(** * CARLA / SUMO co-simulation: the synchronization tick of
      [run_synchronization.py]

    A shallow embedding of [SimulationSynchronization.tick],
    [SimulationSynchronization.close] and [synchronization_loop].

    The two simulators ([SumoSimulation], [CarlaSimulation]), the translation
    layer ([BridgeHelper]), [traci], [time] and [logging] are collaborators of
    the script: every call into them is an element of [call], answered by a
    handler over an abstract world [W].  A call may return or raise; the
    script threads the world, its two id tables and the camera flag through
    the calls, and every call is recorded, with its answer, in the list of
    events a computation produces.  Readings of [time.time()] and the step
    length are rationals. *)

From Stdlib Require Import QArith.QArith_base QArith.Qminmax Lqa.
From stdpp Require Import gmap strings list.

Local Open Scope Z_scope.

(** ** Values *)

(** Actor and landmark ids are Python values used as dictionary keys and set
    members: SUMO ids are strings, CARLA ids are integers. *)
Inductive actor_id : Type :=
| IdStr (s : string)
| IdInt (n : Z).

#[global] Instance actor_id_eq_dec : EqDecision actor_id.
Proof. solve_decision. Defined.

#[global] Instance actor_id_countable : Countable actor_id.
Proof.
  refine (inj_countable'
    (λ i, match i with IdStr s => inl s | IdInt n => inr n end)
    (λ x, match x with inl s => IdStr s | inr n => IdInt n end) _).
  by intros [].
Defined.

(** Python exceptions.  [synchronization_loop] tells [KeyboardInterrupt] from
    the rest; [KeyError] and [AttributeError] are what a missing dictionary
    key and a method call on [None] raise. *)
Inductive exception : Type :=
| KeyboardInterrupt
| KeyError
| AttributeError
| NameError
| OtherError (msg : string).

#[global] Instance exception_eq_dec : EqDecision exception.
Proof. solve_decision. Defined.

Inductive result (A : Type) : Type :=
| Ok (a : A)
| Raise (e : exception).
Arguments Ok {A} a.
Arguments Raise {A} e.

(** The class [Arguments]. *)
Record Arguments : Type := {
  sumo_cfg_file : string;
  sumo_gui : bool;
  carla_host : string;
  carla_port : Z;
  step_length : Q;
  tls_manager : string;
  sync_vehicle_color : bool;
  sync_vehicle_lights : bool;
}.

Section Calls.

(** Opaque Python objects: transforms, extents, blueprints, light states,
    CARLA actor handles. *)
Context {Obj : Type}.

(** What [sumo.get_actor] returns; the script reads three attributes and
    hands the whole object to [BridgeHelper.get_carla_blueprint]. *)
Record SumoActor : Type := {
  type_descr : Obj;
  transform : Obj;
  extent : Obj;
  signals : Obj;
}.

(** [carla.world.get_settings()]: the two fields the script assigns. *)
Record WorldSettings : Type := {
  synchronous_mode : bool;
  fixed_delta_seconds : option Q;
  other_settings : Obj;
}.

(** ** Calls into the collaborators, indexed by the type of their answer *)
Inductive call : Type → Type :=
(* self.sumo *)
| SumoTick : call unit
| SumoSubscribe (i : actor_id) : call unit
| SumoUnsubscribe (i : actor_id) : call unit
| SumoGetActor (i : actor_id) : call SumoActor
| SumoSpawnActor (type_id : Obj) (color : option Obj) : call actor_id
| SumoDestroyActor (i : actor_id) : call unit
| SumoSynchronizeVehicle (i : actor_id) (tf : Obj) (lights : option Obj) : call unit
| SumoGetTrafficLightState (l : actor_id) : call Obj
| SumoSynchronizeTrafficLight (l : actor_id) (s : Obj) : call unit
| SumoSwitchOffTrafficLights : call unit
| SumoGetNetOffset : call Obj
| SumoClose : call unit
(* self.carla *)
| CarlaTick : call unit
| CarlaGetActor (i : actor_id) : call (option Obj)
| CarlaSpawnActor (blueprint tf : Obj) : call actor_id
| CarlaDestroyActor (i : actor_id) : call unit
| CarlaSynchronizeVehicle (i : actor_id) (tf : Obj) (lights : option Obj) : call unit
| CarlaGetActorLightState (i : actor_id) : call (option Obj)
| CarlaGetTrafficLightState (l : actor_id) : call Obj
| CarlaSynchronizeTrafficLight (l : actor_id) (s : Obj) : call unit
| CarlaSwitchOffTrafficLights : call unit
| CarlaClose : call unit
(* self.carla.world and the objects it hands out *)
| WorldGetSettings : call WorldSettings
| WorldApplySettings (s : WorldSettings) : call unit
| WorldGetBlueprintLibrary : call Obj
| WorldGetVehicles : call (list Obj)
| WorldGetSpectator : call Obj
| WorldSpawnCamera (blueprint : Obj) (x z : string) (attach_to : Obj) : call Obj
| BlueprintLibraryFind (lib : Obj) (name : string) : call Obj
| BlueprintSetAttribute (bp : Obj) (key value : string) : call unit
| SensorListen (sensor : Obj) : call unit
| SpectatorSetTransform (spectator tf : Obj) (offset rotation : Z * Z * Z) : call unit
| ActorGetLightState (a : Obj) : call Obj
| ActorGetTransform (a : Obj) : call Obj
(* BridgeHelper *)
| GetCarlaBlueprint (a : SumoActor) (sync_color : bool) : call (option Obj)
| GetCarlaTransform (tf ext : Obj) : call Obj
| GetCarlaLightsState (current sumo_signals : Obj) : call (option Obj)
| GetCarlaTrafficLightState (s : Obj) : call Obj
| GetSumoVtype (a : option Obj) : call (option Obj)
| GetSumoTransform (tf ext : Obj) : call Obj
| GetSumoLightsState (current : Obj) (carla_lights : Obj) : call (option Obj)
| GetSumoTrafficLightState (s : Obj) : call Obj
| BridgeSetBlueprintLibrary (lib : Obj) : call unit
| BridgeSetOffset (off : Obj) : call unit
(* traci, time, logging, the two constructors *)
| NewSumoSimulation (cfg : string) : call unit
| NewCarlaSimulation (host : string) (port : Z) (step_length : Q) : call unit
| TraciGetMinExpectedNumber : call Z
| TraciSimulationStep : call unit
| TimeTime : call Q
| TimeSleep (d : Q) : call unit
| LoggingInfo (msg : string) : call unit.

(** A call together with its answer. *)
Inductive event : Type :=
| Ev {R : Type} (c : call R) (r : result R).

End Calls.

Arguments SumoActor : clear implicits.
Arguments WorldSettings : clear implicits.
Arguments call : clear implicits.
Arguments event : clear implicits.

(** ** The world

    The collaborators' behaviour over a world [W]: the handler of the calls,
    and the attributes the script reads. *)
Class Collaborators (Obj W : Type) : Type := {
  handle : ∀ R, call Obj R → W → result R * W;
  (* Attributes of the two adapters: Python sets. *)
  sumo_spawned_actors : W → gset actor_id;
  sumo_destroyed_actors : W → gset actor_id;
  sumo_traffic_light_ids : W → gset actor_id;
  carla_spawned_actors : W → gset actor_id;
  carla_destroyed_actors : W → gset actor_id;
  carla_traffic_light_ids : W → gset actor_id;
  carla_step_length : W → Q;
  (* Attributes of a CARLA actor: [bounding_box.extent] and
     [attributes.get('color', None)]. *)
  actor_extent : Obj → Obj;
  actor_color : Obj → option Obj;
  (* The module-level [image_buffer], written by the camera callback; it is
     unbound until the first frame arrives. *)
  image_buffer : W → option Obj;
  (* [sumo_integration.constants.INVALID_ACTOR_ID]. *)
  INVALID_ACTOR_ID : actor_id;
}.

Section Model.

Context {Obj W : Type} `{sims : Collaborators Obj W}.

(** The calls [close] makes. *)
Definition is_close_call {R} (c : call Obj R) : bool :=
  match c with
  | WorldGetSettings | WorldApplySettings _ | CarlaDestroyActor _
  | SumoDestroyActor _ | CarlaClose | SumoClose => true
  | _ => false
  end.

(** Collaborators on which no call of [close] raises, and a [logging.info]
    that does not raise. *)
Definition close_calls_return : Prop :=
  ∀ R (c : call Obj R) w,
    is_close_call c = true → ∃ a w', handle R c w = (Ok a, w').

Definition logging_returns : Prop :=
  ∀ msg w, ∃ w', handle _ (LoggingInfo msg) w = (Ok tt, w').

(** ** The fields of [SimulationSynchronization] *)

(** Set once by [__init__], from the arguments of [synchronization_loop],
    and only read afterwards. *)
Variable args : Arguments.
Variable ego_id : actor_id.

Record Sync : Type := {
  world : W;
  sumo2carla_ids : gmap actor_id actor_id;
  carla2sumo_ids : gmap actor_id actor_id;
  record : bool;
  ego_cam : option Obj;
}.

Definition set_world (w : W) (st : Sync) : Sync :=
  {| world := w; sumo2carla_ids := sumo2carla_ids st;
     carla2sumo_ids := carla2sumo_ids st; record := record st;
     ego_cam := ego_cam st |}.

Definition set_sumo2carla_ids (m : gmap actor_id actor_id) (st : Sync) : Sync :=
  {| world := world st; sumo2carla_ids := m;
     carla2sumo_ids := carla2sumo_ids st; record := record st;
     ego_cam := ego_cam st |}.

Definition set_carla2sumo_ids (m : gmap actor_id actor_id) (st : Sync) : Sync :=
  {| world := world st; sumo2carla_ids := sumo2carla_ids st;
     carla2sumo_ids := m; record := record st; ego_cam := ego_cam st |}.

Definition set_camera (cam : Obj) (st : Sync) : Sync :=
  {| world := world st; sumo2carla_ids := sumo2carla_ids st;
     carla2sumo_ids := carla2sumo_ids st; record := true;
     ego_cam := Some cam |}.

(** ** The monad: state, exceptions and the events produced *)
Definition M (A : Type) : Type := Sync → result A * Sync * list (event Obj).

Definition ret {A} (a : A) : M A := λ st, (Ok a, st, []).

Definition raise {A} (e : exception) : M A := λ st, (Raise e, st, []).

Definition bind {A B} (m : M A) (f : A → M B) : M B := λ st,
  match m st with
  | (Ok a, st1, ev1) =>
      match f a st1 with (r, st2, ev2) => (r, st2, ev1 ++ ev2) end
  | (Raise e, st1, ev1) => (Raise e, st1, ev1)
  end.

Definition do {R} (c : call Obj R) : M R := λ st,
  match handle R c (world st) with
  | (r, w) => (r, set_world w st, [Ev c r])
  end.

Definition gets {A} (f : Sync → A) : M A := λ st, (Ok (f st), st, []).

Definition modify (f : Sync → Sync) : M unit := λ st, (Ok tt, f st, []).

(** [for x in xs: body x] *)
Fixpoint for_each {A} (xs : list A) (body : A → M unit) : M unit :=
  match xs with
  | [] => ret tt
  | x :: xs' => bind (body x) (λ _, for_each xs' body)
  end.

(** [d[k]] on a dictionary. *)
Definition subscript (d : gmap actor_id actor_id) (k : actor_id) : M actor_id :=
  match d !! k with
  | Some v => ret v
  | None => raise KeyError
  end.

(** Attribute or method access on an object that may be [None]. *)
Definition deref {A} (o : option Obj) (f : Obj → M A) : M A :=
  match o with
  | Some a => f a
  | None => raise AttributeError
  end.

Definition try_except {A} (m : M A) (exc : exception) (handler : M A) : M A :=
  λ st,
  match m st with
  | (Raise e, st1, ev1) =>
      if decide (e = exc)
      then match handler st1 with (r, st2, ev2) => (r, st2, ev1 ++ ev2) end
      else (Raise e, st1, ev1)
  | res => res
  end.

(** [try: m finally: fin]: [fin] always runs; an exception of [fin] replaces
    the outcome of [m]. *)
Definition try_finally {A} (m : M A) (fin : M unit) : M A := λ st,
  match m st with
  | (r, st1, ev1) =>
      match fin st1 with
      | (Ok _, st2, ev2) => (r, st2, ev1 ++ ev2)
      | (Raise e, st2, ev2) => (Raise e, st2, ev1 ++ ev2)
      end
  end.

#[local] Instance M_ret : MRet M := @ret.
#[local] Instance M_bind : MBind M := λ A B f m, bind m f.

(** Python's [for k in d], [d.values()] and [set(d.values())].  A dictionary
    is walked in the order of the map, where Python walks it in insertion
    order, and a set in the order of [elements], where Python's order is
    arbitrary: the statements below speak of membership, of counts and of
    the walk as a whole, never of a particular order. *)
Definition dict_keys (d : gmap actor_id actor_id) : list actor_id :=
  (map_to_list d).*1.
Definition dict_values (d : gmap actor_id actor_id) : list actor_id :=
  (map_to_list d).*2.
Definition value_set (d : gmap actor_id actor_id) : gset actor_id :=
  list_to_set (dict_values d).

(** ** [SimulationSynchronization.tick] *)

(** *** sumo-->carla sync *)

(** The body of the loop over [sumo_spawned_actors]. *)
Definition spawn_sumo_actor (sumo_actor_id : actor_id) : M unit :=
  _ ← do (SumoSubscribe sumo_actor_id);
  sumo_actor ← do (SumoGetActor sumo_actor_id);
  carla_blueprint ← do (GetCarlaBlueprint sumo_actor (sync_vehicle_color args));
  match carla_blueprint with
  | Some blueprint =>
      carla_transform ←
        do (GetCarlaTransform (transform sumo_actor) (extent sumo_actor));
      carla_actor_id ← do (CarlaSpawnActor blueprint carla_transform);
      if decide (carla_actor_id ≠ INVALID_ACTOR_ID)
      then modify (λ st, set_sumo2carla_ids
                     (<[sumo_actor_id := carla_actor_id]> (sumo2carla_ids st)) st)
      else ret tt
  | None => do (SumoUnsubscribe sumo_actor_id)
  end.

(** Spawning new sumo actors in carla (i.e, not controlled by carla). *)
Definition sumo_spawned (st : Sync) : gset actor_id :=
  sumo_spawned_actors (world st) ∖ value_set (carla2sumo_ids st).

Definition spawn_sumo_actors : M unit :=
  sumo_spawned_actors ← gets sumo_spawned;
  for_each (elements sumo_spawned_actors) spawn_sumo_actor.

(** Destroying sumo arrived actors in carla. *)
Definition destroy_sumo_actor (sumo_actor_id : actor_id) : M unit :=
  ids ← gets sumo2carla_ids;
  match ids !! sumo_actor_id with
  | Some carla_actor_id =>
      _ ← modify (λ st, set_sumo2carla_ids
                    (delete sumo_actor_id (sumo2carla_ids st)) st);
      do (CarlaDestroyActor carla_actor_id)
  | None => ret tt
  end.

Definition destroy_sumo_actors : M unit :=
  destroyed ← gets (λ st, sumo_destroyed_actors (world st));
  for_each (elements destroyed) destroy_sumo_actor.

(** Updating sumo actors in carla. *)
Definition update_sumo_actor (sumo_actor_id : actor_id) : M unit :=
  ids ← gets sumo2carla_ids;
  carla_actor_id ← subscript ids sumo_actor_id;
  sumo_actor ← do (SumoGetActor sumo_actor_id);
  carla_actor ← do (CarlaGetActor carla_actor_id);
  carla_transform ←
    do (GetCarlaTransform (transform sumo_actor) (extent sumo_actor));
  carla_lights ←
    (if sync_vehicle_lights args
     then current ← deref carla_actor (λ a, do (ActorGetLightState a));
          do (GetCarlaLightsState current (signals sumo_actor))
     else ret None);
  do (CarlaSynchronizeVehicle carla_actor_id carla_transform carla_lights).

Definition update_sumo_actors : M unit :=
  ids ← gets sumo2carla_ids;
  for_each (dict_keys ids) update_sumo_actor.

(** Updates traffic lights in carla based on sumo information. *)
Definition common_landmarks (st : Sync) : gset actor_id :=
  sumo_traffic_light_ids (world st) ∩ carla_traffic_light_ids (world st).

Definition update_carla_traffic_light (landmark_id : actor_id) : M unit :=
  sumo_tl_state ← do (SumoGetTrafficLightState landmark_id);
  carla_tl_state ← do (GetCarlaTrafficLightState sumo_tl_state);
  do (CarlaSynchronizeTrafficLight landmark_id carla_tl_state).

Definition update_carla_traffic_lights : M unit :=
  if decide (tls_manager args = "sumo")
  then landmarks ← gets common_landmarks;
       for_each (elements landmarks) update_carla_traffic_light
  else ret tt.

(** *** carla-->sumo sync *)

(** The body of the loop over [carla_spawned_actors]. *)
Definition spawn_carla_actor (carla_actor_id : actor_id) : M unit :=
  carla_actor ← do (CarlaGetActor carla_actor_id);
  type_id ← do (GetSumoVtype carla_actor);
  color ←
    (if sync_vehicle_color args
     then deref carla_actor (λ a, ret (actor_color a))
     else ret None);
  match type_id with
  | Some vtype =>
      sumo_actor_id ← do (SumoSpawnActor vtype color);
      if decide (sumo_actor_id ≠ INVALID_ACTOR_ID)
      then _ ← modify (λ st, set_carla2sumo_ids
                         (<[carla_actor_id := sumo_actor_id]> (carla2sumo_ids st)) st);
           do (SumoSubscribe sumo_actor_id)
      else ret tt
  | None => ret tt
  end.

(** Spawning new carla actors (not controlled by sumo). *)
Definition carla_spawned (st : Sync) : gset actor_id :=
  carla_spawned_actors (world st) ∖ value_set (sumo2carla_ids st).

Definition spawn_carla_actors : M unit :=
  carla_spawned_actors ← gets carla_spawned;
  for_each (elements carla_spawned_actors) spawn_carla_actor.

(** Destroying required carla actors in sumo. *)
Definition destroy_carla_actor (carla_actor_id : actor_id) : M unit :=
  ids ← gets carla2sumo_ids;
  match ids !! carla_actor_id with
  | Some sumo_actor_id =>
      _ ← modify (λ st, set_carla2sumo_ids
                    (delete carla_actor_id (carla2sumo_ids st)) st);
      do (SumoDestroyActor sumo_actor_id)
  | None => ret tt
  end.

Definition destroy_carla_actors : M unit :=
  destroyed ← gets (λ st, carla_destroyed_actors (world st));
  for_each (elements destroyed) destroy_carla_actor.

(** Updating carla actors in sumo. *)
Definition update_carla_actor (carla_actor_id : actor_id) : M unit :=
  ids ← gets carla2sumo_ids;
  sumo_actor_id ← subscript ids carla_actor_id;
  carla_actor ← do (CarlaGetActor carla_actor_id);
  sumo_actor ← do (SumoGetActor sumo_actor_id);
  carla_transform ← deref carla_actor (λ a, do (ActorGetTransform a));
  carla_extent ← deref carla_actor (λ a, ret (actor_extent a));
  sumo_transform ← do (GetSumoTransform carla_transform carla_extent);
  sumo_lights ←
    (if sync_vehicle_lights args
     then carla_lights ← do (CarlaGetActorLightState carla_actor_id);
          match carla_lights with
          | Some lights => do (GetSumoLightsState (signals sumo_actor) lights)
          | None => ret None
          end
     else ret None);
  do (SumoSynchronizeVehicle sumo_actor_id sumo_transform sumo_lights).

Definition update_carla_actors : M unit :=
  ids ← gets carla2sumo_ids;
  for_each (dict_keys ids) update_carla_actor.

(** Updates traffic lights in sumo based on carla information. *)
Definition update_sumo_traffic_light (landmark_id : actor_id) : M unit :=
  carla_tl_state ← do (CarlaGetTrafficLightState landmark_id);
  sumo_tl_state ← do (GetSumoTrafficLightState carla_tl_state);
  do (SumoSynchronizeTrafficLight landmark_id sumo_tl_state).

Definition update_sumo_traffic_lights : M unit :=
  if decide (tls_manager args = "carla")
  then landmarks ← gets common_landmarks;
       for_each (elements landmarks) update_sumo_traffic_light
  else ret tt.

(** *** The two half-passes and the tick *)

(** What follows the spawn loop of each half-pass. *)
Definition sumo_pass_after_spawn : M unit :=
  _ ← destroy_sumo_actors;
  _ ← update_sumo_actors;
  update_carla_traffic_lights.

Definition carla_pass_after_spawn : M unit :=
  _ ← destroy_carla_actors;
  _ ← update_carla_actors;
  update_sumo_traffic_lights.

Definition sumo_pass : M unit :=
  _ ← do SumoTick;
  _ ← spawn_sumo_actors;
  sumo_pass_after_spawn.

Definition carla_pass : M unit :=
  _ ← do CarlaTick;
  _ ← spawn_carla_actors;
  carla_pass_after_spawn.

Definition tick : M unit :=
  _ ← sumo_pass;
  carla_pass.

(** The tick, cut where the destroy loop of a half-pass begins. *)
Definition tick_until_sumo_destroy : M unit :=
  _ ← do SumoTick;
  spawn_sumo_actors.

Definition tick_from_sumo_destroy : M unit :=
  _ ← sumo_pass_after_spawn;
  carla_pass.

Definition tick_until_carla_destroy : M unit :=
  _ ← sumo_pass;
  _ ← do CarlaTick;
  spawn_carla_actors.

(** ** The cosmetic methods used by the loop *)

Definition moveSpectator (vehicle : Obj) : M unit :=
  spectator ← do WorldGetSpectator;
  tf ← do (ActorGetTransform vehicle);
  do (SpectatorSetTransform spectator tf (0, 0, 50) (-90, 0, 0)).

Definition setFrontViewCamera (vehicle : Obj) : M unit :=
  recording ← gets record;
  if (recording : bool) then ret tt
  else
    lib ← do WorldGetBlueprintLibrary;
    cam_bp ← do (BlueprintLibraryFind lib "sensor.camera.rgb");
    _ ← do (BlueprintSetAttribute cam_bp "image_size_x" "800");
    _ ← do (BlueprintSetAttribute cam_bp "image_size_y" "600");
    _ ← do (BlueprintSetAttribute cam_bp "fov" "90");
    _ ← do (BlueprintSetAttribute cam_bp "sensor_tick" "0.1");
    cam ← do (WorldSpawnCamera cam_bp "0.5" "2.4" vehicle);
    _ ← modify (λ st, {| world := world st; sumo2carla_ids := sumo2carla_ids st;
                         carla2sumo_ids := carla2sumo_ids st; record := record st;
                         ego_cam := Some cam |});
    _ ← do (SensorListen cam);
    modify (set_camera cam).

Definition getFrontViewImage : M Obj := λ st,
  match image_buffer (world st) with
  | Some img => ret img st
  | None => raise NameError st
  end.

Definition getEgo : M (option Obj) :=
  _ ← do WorldGetVehicles;
  ids ← gets sumo2carla_ids;
  if decide (ego_id ∈ dom ids)
  then carla_actor_id ← subscript ids ego_id;
       do (CarlaGetActor carla_actor_id)
  else ret None.

(** ** [SimulationSynchronization.close] *)
Definition close : M unit :=
  (* Configuring carla simulation in async mode. *)
  settings ← do WorldGetSettings;
  _ ← do (WorldApplySettings
            {| synchronous_mode := false; fixed_delta_seconds := None;
               other_settings := other_settings settings |});
  (* Destroying synchronized actors. *)
  ids ← gets sumo2carla_ids;
  _ ← for_each (dict_values ids) (λ carla_actor_id, do (CarlaDestroyActor carla_actor_id));
  ids ← gets carla2sumo_ids;
  _ ← for_each (dict_values ids) (λ sumo_actor_id, do (SumoDestroyActor sumo_actor_id));
  (* Closing sumo and carla client. *)
  _ ← do CarlaClose;
  do SumoClose.

(** ** [SimulationSynchronization.__init__] *)
Definition init : M unit :=
  _ ← (if decide (tls_manager args = "carla") then do SumoSwitchOffTrafficLights
       else if decide (tls_manager args = "sumo") then do CarlaSwitchOffTrafficLights
       else ret tt);
  _ ← modify (set_sumo2carla_ids ∅);
  _ ← modify (set_carla2sumo_ids ∅);
  lib ← do WorldGetBlueprintLibrary;
  _ ← do (BridgeSetBlueprintLibrary lib);
  off ← do SumoGetNetOffset;
  _ ← do (BridgeSetOffset off);
  settings ← do WorldGetSettings;
  delta ← gets (λ st, carla_step_length (world st));
  _ ← do (WorldApplySettings
            {| synchronous_mode := true; fixed_delta_seconds := Some delta;
               other_settings := other_settings settings |});
  modify (λ st, {| world := world st; sumo2carla_ids := sumo2carla_ids st;
                   carla2sumo_ids := carla2sumo_ids st; record := false;
                   ego_cam := ego_cam st |}).

(** ** [synchronization_loop] *)

(** The sleep that ends an iteration. *)
Definition pace (start finish : Q) : M unit :=
  let elapsed := (finish - start)%Q in
  if Qlt_le_dec elapsed (step_length args)
  then do (TimeSleep (step_length args - elapsed)%Q)
  else ret tt.

(** One iteration of the [while] loop, after its condition. *)
Definition loop_body (cnt : Z) : M unit :=
  start ← do TimeTime;
  _ ← do TraciSimulationStep;
  _ ← tick;
  vehicle ← getEgo;
  _ ← match vehicle with
      | Some v =>
          _ ← moveSpectator v;
          _ ← setFrontViewCamera v;
          if decide (cnt `mod` 10 = 0)
          then try_except (_ ← getFrontViewImage; ret tt) NameError (ret tt)
          else ret tt
      | None => ret tt
      end;
  finish ← do TimeTime;
  pace start finish.

(** [while traci.simulation.getMinExpectedNumber(): ...]; [None] when the
    fuel runs out before the loop is left. *)
Fixpoint while_loop (fuel : nat) (cnt : Z) (st : Sync)
  : option (result unit * Sync * list (event Obj)) :=
  match fuel with
  | O => None
  | S fuel' =>
      match do TraciGetMinExpectedNumber st with
      | (Raise e, st1, ev1) => Some (Raise e, st1, ev1)
      | (Ok pending, st1, ev1) =>
          if decide (pending = 0) then Some (Ok tt, st1, ev1)
          else
            match loop_body cnt st1 with
            | (Raise e, st2, ev2) => Some (Raise e, st2, ev1 ++ ev2)
            | (Ok _, st2, ev2) =>
                match while_loop fuel' (cnt + 1) st2 with
                | Some (r, st3, ev3) => Some (r, st3, ev1 ++ ev2 ++ ev3)
                | None => None
                end
            end
      end
  end.

(** The [except KeyboardInterrupt] and [finally] clauses, applied to the
    outcome of the [while] loop. *)
Definition leave_loop (outcome : result unit * Sync * list (event Obj)) : M unit :=
  try_finally
    (try_except (λ _, outcome) KeyboardInterrupt
       (do (LoggingInfo "Cancelled by user.")))
    (_ ← do (LoggingInfo "Cleaning synchronization"); close).

Definition fresh_sync (w : W) : Sync :=
  {| world := w; sumo2carla_ids := ∅; carla2sumo_ids := ∅; record := false;
     ego_cam := None |}.

Definition construct : M unit :=
  _ ← do (NewSumoSimulation (sumo_cfg_file args));
  _ ← do (NewCarlaSimulation (carla_host args) (carla_port args) (step_length args));
  init.

Definition synchronization_loop (fuel : nat) (w : W)
  : option (result unit * Sync * list (event Obj)) :=
  match construct (fresh_sync w) with
  | (Raise e, st1, ev1) => Some (Raise e, st1, ev1)
  | (Ok _, st1, ev1) =>
      match while_loop fuel 0 st1 with
      | None => None
      | Some outcome =>
          match leave_loop outcome st1 with
          | (r, st2, ev2) => Some (r, st2, ev1 ++ ev2)
          end
      end
  end.

(** [close], cut where the two adapters are closed. *)
Definition close_until_adapters : M unit :=
  settings ← do WorldGetSettings;
  _ ← do (WorldApplySettings
            {| synchronous_mode := false; fixed_delta_seconds := None;
               other_settings := other_settings settings |});
  ids ← gets sumo2carla_ids;
  _ ← for_each (dict_values ids) (λ carla_actor_id, do (CarlaDestroyActor carla_actor_id));
  ids ← gets carla2sumo_ids;
  for_each (dict_values ids) (λ sumo_actor_id, do (SumoDestroyActor sumo_actor_id)).

Definition close_adapters : M unit :=
  _ ← do CarlaClose;
  do SumoClose.

End Model.

Arguments Sync : clear implicits.
Arguments M : clear implicits.

(** * Observing a run *)

Section Observations.

Context {Obj : Type}.

(** The exception a call raised, if it did. *)
Definition raised (ev : event Obj) : option exception :=
  match ev with
  | Ev _ (Raise e) => Some e
  | Ev _ (Ok _) => None
  end.

(** The ids the spawn loops work on: what the SUMO loop subscribes to, looks
    up and unsubscribes from, and what the CARLA loop looks up. *)
Definition sumo_spawn_source (ev : event Obj) : option actor_id :=
  match ev with
  | Ev (SumoSubscribe i) _ | Ev (SumoGetActor i) _ | Ev (SumoUnsubscribe i) _ =>
      Some i
  | _ => None
  end.

Definition carla_spawn_source (ev : event Obj) : option actor_id :=
  match ev with
  | Ev (CarlaGetActor i) _ => Some i
  | _ => None
  end.

(** Calls that spawn, destroy or update a mirror. *)
Definition spawned_in_carla (ev : event Obj) : option (result actor_id) :=
  match ev with Ev (CarlaSpawnActor _ _) r => Some r | _ => None end.

Definition spawned_in_sumo (ev : event Obj) : option (result actor_id) :=
  match ev with Ev (SumoSpawnActor _ _) r => Some r | _ => None end.

Definition destroyed_in_carla (ev : event Obj) : option actor_id :=
  match ev with Ev (CarlaDestroyActor i) _ => Some i | _ => None end.

Definition destroyed_in_sumo (ev : event Obj) : option actor_id :=
  match ev with Ev (SumoDestroyActor i) _ => Some i | _ => None end.

Definition pushed_to_carla (ev : event Obj) : option (actor_id * option Obj) :=
  match ev with
  | Ev (CarlaSynchronizeVehicle i _ lights) _ => Some (i, lights)
  | _ => None
  end.

Definition pushed_to_sumo (ev : event Obj) : option (actor_id * option Obj) :=
  match ev with
  | Ev (SumoSynchronizeVehicle i _ lights) _ => Some (i, lights)
  | _ => None
  end.

(** The answers of the translation of a descriptor. *)
Definition carla_blueprint_for (ev : event Obj) : option (result (option Obj)) :=
  match ev with Ev (GetCarlaBlueprint _ _) r => Some r | _ => None end.

Definition sumo_vtype_for (ev : event Obj) : option (result (option Obj)) :=
  match ev with Ev (GetSumoVtype _) r => Some r | _ => None end.

Definition unsubscribed (ev : event Obj) : option actor_id :=
  match ev with Ev (SumoUnsubscribe i) _ => Some i | _ => None end.

(** The calls, sorted by what they serve. *)
Inductive family : Type :=
| SumoStep            (* sumo.tick() *)
| CarlaStep           (* carla.tick() *)
| Vehicle             (* spawning, destroying, reading and updating vehicles *)
| LightsToCarla       (* reading SUMO's traffic lights, writing CARLA's *)
| LightsToSumo        (* reading CARLA's traffic lights, writing SUMO's *)
| Settings            (* world settings, closing the adapters *)
| Setup
| Cosmetic
| Driver              (* traci, time *)
| Logging.

#[global] Instance family_eq_dec : EqDecision family.
Proof. solve_decision. Defined.

Definition family_of_call {R} (c : call Obj R) : family :=
  match c with
  | SumoTick => SumoStep
  | CarlaTick => CarlaStep
  | SumoSubscribe _ | SumoUnsubscribe _ | SumoGetActor _ | SumoSpawnActor _ _
  | SumoDestroyActor _ | SumoSynchronizeVehicle _ _ _
  | CarlaGetActor _ | CarlaSpawnActor _ _ | CarlaDestroyActor _
  | CarlaSynchronizeVehicle _ _ _ | CarlaGetActorLightState _
  | ActorGetLightState _ | ActorGetTransform _
  | GetCarlaBlueprint _ _ | GetCarlaTransform _ _ | GetCarlaLightsState _ _
  | GetSumoVtype _ | GetSumoTransform _ _ | GetSumoLightsState _ _ => Vehicle
  | SumoGetTrafficLightState _ | GetCarlaTrafficLightState _
  | CarlaSynchronizeTrafficLight _ _ => LightsToCarla
  | CarlaGetTrafficLightState _ | GetSumoTrafficLightState _
  | SumoSynchronizeTrafficLight _ _ => LightsToSumo
  | WorldGetSettings | WorldApplySettings _ | CarlaClose | SumoClose => Settings
  | SumoSwitchOffTrafficLights | CarlaSwitchOffTrafficLights | SumoGetNetOffset
  | BridgeSetBlueprintLibrary _ | BridgeSetOffset _ | NewSumoSimulation _
  | NewCarlaSimulation _ _ _ => Setup
  | WorldGetBlueprintLibrary | WorldGetVehicles | WorldGetSpectator
  | WorldSpawnCamera _ _ _ _ | BlueprintLibraryFind _ _
  | BlueprintSetAttribute _ _ _ | SensorListen _
  | SpectatorSetTransform _ _ _ _ => Cosmetic
  | TraciGetMinExpectedNumber | TraciSimulationStep | TimeTime
  | TimeSleep _ => Driver
  | LoggingInfo _ => Logging
  end.

Definition family_of (ev : event Obj) : family :=
  match ev with Ev c _ => family_of_call c end.

(** Calls of the loop driver. *)
Definition is_simulation_step (ev : event Obj) : bool :=
  match ev with Ev TraciSimulationStep _ => true | _ => false end.

(** A check of the loop condition that found work pending. *)
Definition found_pending (ev : event Obj) : bool :=
  match ev with
  | Ev TraciGetMinExpectedNumber (Ok n) => bool_decide (n ≠ 0)
  | _ => false
  end.

Definition slept (ev : event Obj) : option Q :=
  match ev with Ev (TimeSleep d) _ => Some d | _ => None end.

Definition in_family (f : family) (ev : event Obj) : bool :=
  bool_decide (family_of ev = f).

Definition count_events (p : event Obj → bool) (evs : list (event Obj)) : nat :=
  length (filter (λ ev, p ev = true) evs).

(** The time slept during a run. *)
Definition sleep_time (evs : list (event Obj)) : Q :=
  foldr Qplus 0%Q (omap slept evs).

(** What a run of [update_carla_traffic_lights] produces when it returns:
    per landmark, SUMO's state read, translated, and pushed to CARLA. *)
Inductive lights_pushed_to_carla : list actor_id → list (event Obj) → Prop :=
| to_carla_nil : lights_pushed_to_carla [] []
| to_carla_cons l ls s s' evs :
    lights_pushed_to_carla ls evs →
    lights_pushed_to_carla (l :: ls)
      (Ev (SumoGetTrafficLightState l) (Ok s)
       :: Ev (GetCarlaTrafficLightState s) (Ok s')
       :: Ev (CarlaSynchronizeTrafficLight l s') (Ok tt) :: evs).

Inductive lights_pushed_to_sumo : list actor_id → list (event Obj) → Prop :=
| to_sumo_nil : lights_pushed_to_sumo [] []
| to_sumo_cons l ls s s' evs :
    lights_pushed_to_sumo ls evs →
    lights_pushed_to_sumo (l :: ls)
      (Ev (CarlaGetTrafficLightState l) (Ok s)
       :: Ev (GetSumoTrafficLightState s) (Ok s')
       :: Ev (SumoSynchronizeTrafficLight l s') (Ok tt) :: evs).

(** What a run of [update_sumo_actors] produces when it returns: per pair
    of the table, the SUMO actor read, its pose translated, the lights
    translated when [sync_vehicle_lights] is set, and one push to the CARLA
    mirror. *)
Inductive vehicles_pushed_to_carla (lights_on : bool)
  : list (actor_id * actor_id) → list (event Obj) → Prop :=
| to_carla_done : vehicles_pushed_to_carla lights_on [] []
| to_carla_plain k v pairs a ca tf evs :
    lights_on = false →
    vehicles_pushed_to_carla lights_on pairs evs →
    vehicles_pushed_to_carla lights_on ((k, v) :: pairs)
      (Ev (SumoGetActor k) (Ok a)
       :: Ev (CarlaGetActor v) (Ok ca)
       :: Ev (GetCarlaTransform (transform a) (extent a)) (Ok tf)
       :: Ev (CarlaSynchronizeVehicle v tf None) (Ok tt) :: evs)
| to_carla_lit k v pairs a actor tf current lights evs :
    lights_on = true →
    vehicles_pushed_to_carla lights_on pairs evs →
    vehicles_pushed_to_carla lights_on ((k, v) :: pairs)
      (Ev (SumoGetActor k) (Ok a)
       :: Ev (CarlaGetActor v) (Ok (Some actor))
       :: Ev (GetCarlaTransform (transform a) (extent a)) (Ok tf)
       :: Ev (ActorGetLightState actor) (Ok current)
       :: Ev (GetCarlaLightsState current (signals a)) (Ok lights)
       :: Ev (CarlaSynchronizeVehicle v tf lights) (Ok tt) :: evs).

(** The same for [update_carla_actors]; [extent_of] is the actor's
    [bounding_box.extent]. *)
Inductive vehicles_pushed_to_sumo (extent_of : Obj → Obj) (lights_on : bool)
  : list (actor_id * actor_id) → list (event Obj) → Prop :=
| to_sumo_done : vehicles_pushed_to_sumo extent_of lights_on [] []
| to_sumo_plain k v pairs actor a tf tf' evs :
    lights_on = false →
    vehicles_pushed_to_sumo extent_of lights_on pairs evs →
    vehicles_pushed_to_sumo extent_of lights_on ((k, v) :: pairs)
      (Ev (CarlaGetActor k) (Ok (Some actor))
       :: Ev (SumoGetActor v) (Ok a)
       :: Ev (ActorGetTransform actor) (Ok tf)
       :: Ev (GetSumoTransform tf (extent_of actor)) (Ok tf')
       :: Ev (SumoSynchronizeVehicle v tf' None) (Ok tt) :: evs)
| to_sumo_lit k v pairs actor a tf tf' carla_lights lights evs :
    lights_on = true →
    vehicles_pushed_to_sumo extent_of lights_on pairs evs →
    vehicles_pushed_to_sumo extent_of lights_on ((k, v) :: pairs)
      (Ev (CarlaGetActor k) (Ok (Some actor))
       :: Ev (SumoGetActor v) (Ok a)
       :: Ev (ActorGetTransform actor) (Ok tf)
       :: Ev (GetSumoTransform tf (extent_of actor)) (Ok tf')
       :: Ev (CarlaGetActorLightState k) (Ok (Some carla_lights))
       :: Ev (GetSumoLightsState (signals a) carla_lights) (Ok lights)
       :: Ev (SumoSynchronizeVehicle v tf' lights) (Ok tt) :: evs)
| to_sumo_dark k v pairs actor a tf tf' evs :
    lights_on = true →
    vehicles_pushed_to_sumo extent_of lights_on pairs evs →
    vehicles_pushed_to_sumo extent_of lights_on ((k, v) :: pairs)
      (Ev (CarlaGetActor k) (Ok (Some actor))
       :: Ev (SumoGetActor v) (Ok a)
       :: Ev (ActorGetTransform actor) (Ok tf)
       :: Ev (GetSumoTransform tf (extent_of actor)) (Ok tf')
       :: Ev (CarlaGetActorLightState k) (Ok None)
       :: Ev (SumoSynchronizeVehicle v tf' None) (Ok tt) :: evs).

(** No call of [evs] raised. *)
Definition clean (evs : list (event Obj)) : Prop :=
  Forall (λ ev, raised ev = None) evs.

(** Either no call raised, or the last call did, nothing was called after
    it, and its exception is the outcome. *)
Definition stops_at_failure {A} (r : result A) (evs : list (event Obj)) : Prop :=
  clean evs ∨
  ∃ evs0 ev e, evs = evs0 ++ [ev] ∧ clean evs0 ∧ raised ev = Some e ∧ r = Raise e.

(** A lookup of a CARLA actor that found none: [carla.get_actor] answered
    [None]. *)
Definition not_found (ev : event Obj) : option actor_id :=
  match ev with
  | Ev (CarlaGetActor i) (Ok None) => Some i
  | _ => None
  end.

Definition subscribed (ev : event Obj) : option actor_id :=
  match ev with Ev (SumoSubscribe i) _ => Some i | _ => None end.

Definition logged (ev : event Obj) : option string :=
  match ev with Ev (LoggingInfo msg) _ => Some msg | _ => None end.

(** Calls that change the vehicles or the traffic lights of a simulator. *)
Definition writes_carla (ev : event Obj) : bool :=
  match ev with
  | Ev (CarlaSpawnActor _ _) _ | Ev (CarlaDestroyActor _) _
  | Ev (CarlaSynchronizeVehicle _ _ _) _
  | Ev (CarlaSynchronizeTrafficLight _ _) _ => true
  | _ => false
  end.

Definition writes_sumo (ev : event Obj) : bool :=
  match ev with
  | Ev (SumoSpawnActor _ _) _ | Ev (SumoDestroyActor _) _
  | Ev (SumoSynchronizeVehicle _ _ _) _
  | Ev (SumoSynchronizeTrafficLight _ _) _ => true
  | _ => false
  end.

(** The camera sensor being spawned, and an adapter being closed. *)
Definition camera_spawned (ev : event Obj) : bool :=
  match ev with Ev (WorldSpawnCamera _ _ _ _) _ => true | _ => false end.

Definition closes_adapter (ev : event Obj) : bool :=
  match ev with Ev CarlaClose _ | Ev SumoClose _ => true | _ => false end.

(** The exception of an outcome is the one the last call raised, or it is
    the [AttributeError] of an access to the [None] that a lookup of a CARLA
    actor answered. *)
Definition raised_by_call_or_missing_actor {A}
    (r : result A) (evs : list (event Obj)) : Prop :=
  match r with
  | Ok _ => True
  | Raise e =>
      last evs ≫= raised = Some e ∨
      (e = AttributeError ∧ omap not_found evs ≠ [])
  end.

(** The traffic lights of a simulator being switched off, and the settings
    applied to the CARLA world. *)
Definition switches_off_sumo_lights (ev : event Obj) : bool :=
  match ev with Ev SumoSwitchOffTrafficLights _ => true | _ => false end.

Definition switches_off_carla_lights (ev : event Obj) : bool :=
  match ev with Ev CarlaSwitchOffTrafficLights _ => true | _ => false end.

Definition settings_applied (ev : event Obj) : option (bool * option Q) :=
  match ev with
  | Ev (WorldApplySettings s) _ =>
      Some (synchronous_mode s, fixed_delta_seconds s)
  | _ => None
  end.

(** The colour a SUMO mirror is spawned with, the colour flag a blueprint is
    asked with, and the calls that read or translate vehicle lights. *)
Definition spawn_color (ev : event Obj) : option (option Obj) :=
  match ev with Ev (SumoSpawnActor _ c) _ => Some c | _ => None end.

Definition blueprint_color_flag (ev : event Obj) : option bool :=
  match ev with Ev (GetCarlaBlueprint _ b) _ => Some b | _ => None end.

Definition reads_lights (ev : event Obj) : bool :=
  match ev with
  | Ev (ActorGetLightState _) _ | Ev (CarlaGetActorLightState _) _
  | Ev (GetCarlaLightsState _ _) _ | Ev (GetSumoLightsState _ _) _ => true
  | _ => false
  end.

Context {W : Type}.

(** A relation between the state a computation starts in, the state it
    leaves and the events it produced, whatever its outcome. *)
Definition transition : Type := Sync Obj W → Sync Obj W → list (event Obj) → Prop.

Definition ensures {A} (m : M Obj W A) (G : transition) : Prop :=
  ∀ st r st' evs, m st = (r, st', evs) → G st st' evs.

(** Transitions that hold of no step and compose along sequencing. *)
Class Stable (G : transition) : Prop := {
  stable_refl : ∀ st, G st st [];
  stable_trans : ∀ st0 st1 st2 ev1 ev2,
    G st0 st1 ev1 → G st1 st2 ev2 → G st0 st2 (ev1 ++ ev2);
}.

Definition keeps {X} (f : Sync Obj W → X) : transition :=
  λ st st' _, f st' = f st.

Definition emits (P : event Obj → Prop) : transition :=
  λ _ _ evs, Forall P evs.

Definition both (G1 G2 : transition) : transition :=
  λ st st' evs, G1 st st' evs ∧ G2 st st' evs.

(** A computation that catches no exception of a call. *)
Definition propagates {A} (m : M Obj W A) : Prop :=
  ∀ st r st' evs, m st = (r, st', evs) → stops_at_failure r evs.

(** A computation that makes [n] calls satisfying [p] when it returns. *)
Definition counts {A} (p : event Obj → bool) (m : M Obj W A) (n : nat) : Prop :=
  ∀ st a st' evs, m st = (Ok a, st', evs) → count_events p evs = n.

(** The SUMO-to-CARLA table changes at most at the keys in [S]. *)
Definition sumo2carla_only_at (S : gset actor_id) : transition :=
  λ st st' _, ∀ k, k ∉ S → sumo2carla_ids st' !! k = sumo2carla_ids st !! k.

Definition carla2sumo_only_at (S : gset actor_id) : transition :=
  λ st st' _, ∀ k, k ∉ S → carla2sumo_ids st' !! k = carla2sumo_ids st !! k.

(** A computation whose exceptions are those of its calls, or the
    [AttributeError] of a missing CARLA actor. *)
Definition raises_no_other {A} (m : M Obj W A) : Prop :=
  ∀ st r st' evs, m st = (r, st', evs) → raised_by_call_or_missing_actor r evs.

(** An entry of a table that is new or changed was subscribed to in SUMO:
    under its key in the SUMO-to-CARLA table, under its value, the SUMO
    mirror, in the CARLA-to-SUMO table. *)
Definition sumo2carla_new_subscribed : transition := λ st st' evs,
  ∀ k m, sumo2carla_ids st' !! k = Some m →
         sumo2carla_ids st !! k = Some m ∨ k ∈ omap subscribed evs.

Definition carla2sumo_new_subscribed : transition := λ st st' evs,
  ∀ k m, carla2sumo_ids st' !! k = Some m →
         carla2sumo_ids st !! k = Some m ∨ m ∈ omap subscribed evs.

(** No table holds the sentinel [INVALID_ACTOR_ID] as a value. *)
Definition no_invalid_mirror `{sims : Collaborators Obj W} (st : Sync Obj W) : Prop :=
  ∀ k v, sumo2carla_ids st !! k = Some v ∨ carla2sumo_ids st !! k = Some v →
         v ≠ INVALID_ACTOR_ID.

Definition preserves (P : Sync Obj W → Prop) : transition :=
  λ st st' _, P st → P st'.

(** A computation that spawns no camera once [record] is set, and that,
    started with [record] unset, spawns at most one, and sets [record] when
    it spawns one and returns. *)
Definition attaches_camera_once {A} (m : M Obj W A) : Prop :=
  ∀ st r st' evs, m st = (r, st', evs) →
    (record st = true →
       record st' = true ∧ count_events camera_spawned evs = 0%nat) ∧
    (record st = false →
       (count_events camera_spawned evs ≤ 1)%nat ∧
       (count_events camera_spawned evs = 1%nat → (∃ a, r = Ok a) →
        record st' = true)).

(** No key of a table is lost. *)
Definition keeps_keys (f : Sync Obj W → gmap actor_id actor_id) : transition :=
  λ st st' _, ∀ k, is_Some (f st !! k) → is_Some (f st' !! k).

End Observations.

(** * A scripted pair of simulators

    A test double for the two adapters: what each simulator reports on its
    next ticks is scripted, ids are handed out from a counter, and
    descriptors are strings. *)
Module Double.

(** What one simulator reports after a tick. *)
Record Frame : Type := {
  f_spawned : list actor_id;
  f_destroyed : list actor_id;
  f_types : list (actor_id * string);   (* descriptor per actor *)
  f_stale : list actor_id;              (* ids [get_actor] fails on *)
}.

Definition empty_frame : Frame :=
  {| f_spawned := []; f_destroyed := []; f_types := []; f_stale := [] |}.

Record World : Type := {
  sumo_script : list Frame;
  carla_script : list Frame;
  sumo_now : Frame;
  carla_now : Frame;
  sumo_tls : list actor_id;
  carla_tls : list actor_id;
  next_carla_id : Z;
  next_sumo_id : Z;
  clock : list Q;                       (* the next readings of time.time() *)
  frame_seen : bool;                    (* has the camera delivered a frame? *)
}.

Definition descr_of (f : Frame) (i : actor_id) : string :=
  match list_find (λ p, p.1 = i) (f_types f) with
  | Some (_, (_, d)) => d
  | None => "car"
  end.

Definition invalid : actor_id := IdInt (-1).

Definition answer {R} (c : call string R) (w : World) : result R * World :=
  match c in call _ R return result R * World with
  | SumoTick =>
      match sumo_script w with
      | f :: rest =>
          (Ok tt, {| sumo_script := rest; carla_script := carla_script w;
                     sumo_now := f; carla_now := carla_now w;
                     sumo_tls := sumo_tls w; carla_tls := carla_tls w;
                     next_carla_id := next_carla_id w;
                     next_sumo_id := next_sumo_id w; clock := clock w;
                     frame_seen := frame_seen w |})
      | [] =>
          (Ok tt, {| sumo_script := []; carla_script := carla_script w;
                     sumo_now := empty_frame; carla_now := carla_now w;
                     sumo_tls := sumo_tls w; carla_tls := carla_tls w;
                     next_carla_id := next_carla_id w;
                     next_sumo_id := next_sumo_id w; clock := clock w;
                     frame_seen := frame_seen w |})
      end
  | CarlaTick =>
      match carla_script w with
      | f :: rest =>
          (Ok tt, {| sumo_script := sumo_script w; carla_script := rest;
                     sumo_now := sumo_now w; carla_now := f;
                     sumo_tls := sumo_tls w; carla_tls := carla_tls w;
                     next_carla_id := next_carla_id w;
                     next_sumo_id := next_sumo_id w; clock := clock w;
                     frame_seen := frame_seen w |})
      | [] =>
          (Ok tt, {| sumo_script := sumo_script w; carla_script := [];
                     sumo_now := sumo_now w; carla_now := empty_frame;
                     sumo_tls := sumo_tls w; carla_tls := carla_tls w;
                     next_carla_id := next_carla_id w;
                     next_sumo_id := next_sumo_id w; clock := clock w;
                     frame_seen := frame_seen w |})
      end
  | SumoGetActor i =>
      if decide (i ∈ f_stale (sumo_now w))
      then (Raise (OtherError "stale sumo actor"), w)
      else (Ok {| type_descr := descr_of (sumo_now w) i; transform := "pose";
                  extent := "extent"; signals := "signals" |}, w)
  | CarlaGetActor i =>
      if decide (i ∈ f_stale (carla_now w)) then (Ok None, w)
      else (Ok (Some (descr_of (carla_now w) i)), w)
  | GetCarlaBlueprint a _ =>
      (Ok (if decide (type_descr a = "unknown") then None
           else Some (type_descr a)), w)
  | GetSumoVtype a =>
      match a with
      | Some d => (Ok (if decide (d = "unknown") then None else Some d), w)
      | None => (Raise AttributeError, w)
      end
  | CarlaSpawnActor bp _ =>
      if decide (bp = "blocked") then (Ok invalid, w)
      else
        (Ok (IdInt (next_carla_id w)),
         {| sumo_script := sumo_script w; carla_script := carla_script w;
            sumo_now := sumo_now w; carla_now := carla_now w;
            sumo_tls := sumo_tls w; carla_tls := carla_tls w;
            next_carla_id := next_carla_id w + 1;
            next_sumo_id := next_sumo_id w; clock := clock w;
            frame_seen := frame_seen w |})
  | SumoSpawnActor vtype _ =>
      if decide (vtype = "blocked") then (Ok invalid, w)
      else
        (Ok (IdInt (next_sumo_id w)),
         {| sumo_script := sumo_script w; carla_script := carla_script w;
            sumo_now := sumo_now w; carla_now := carla_now w;
            sumo_tls := sumo_tls w; carla_tls := carla_tls w;
            next_carla_id := next_carla_id w;
            next_sumo_id := next_sumo_id w + 1; clock := clock w;
            frame_seen := frame_seen w |})
  | TimeTime =>
      match clock w with
      | t :: rest =>
          (Ok t, {| sumo_script := sumo_script w; carla_script := carla_script w;
                    sumo_now := sumo_now w; carla_now := carla_now w;
                    sumo_tls := sumo_tls w; carla_tls := carla_tls w;
                    next_carla_id := next_carla_id w;
                    next_sumo_id := next_sumo_id w; clock := rest;
                    frame_seen := frame_seen w |})
      | [] => (Ok 0%Q, w)
      end
  | TraciGetMinExpectedNumber => (Ok (Z.of_nat (length (sumo_script w))), w)
  | SumoSubscribe _ | SumoUnsubscribe _ | SumoDestroyActor _
  | SumoSynchronizeVehicle _ _ _ | SumoSynchronizeTrafficLight _ _
  | SumoSwitchOffTrafficLights | SumoClose
  | CarlaDestroyActor _ | CarlaSynchronizeVehicle _ _ _
  | CarlaSynchronizeTrafficLight _ _ | CarlaSwitchOffTrafficLights | CarlaClose
  | WorldApplySettings _ | BlueprintSetAttribute _ _ _ | SensorListen _
  | SpectatorSetTransform _ _ _ _ | BridgeSetBlueprintLibrary _
  | BridgeSetOffset _ | NewSumoSimulation _ | NewCarlaSimulation _ _ _
  | TraciSimulationStep | TimeSleep _ | LoggingInfo _ => (Ok tt, w)
  | SumoGetTrafficLightState l => (Ok "sumo-green", w)
  | CarlaGetTrafficLightState l => (Ok "carla-green", w)
  | GetCarlaTrafficLightState s => (Ok ("to-carla:" +:+ s), w)
  | GetSumoTrafficLightState s => (Ok ("to-sumo:" +:+ s), w)
  | GetCarlaTransform tf _ => (Ok ("to-carla:" +:+ tf), w)
  | GetSumoTransform tf _ => (Ok ("to-sumo:" +:+ tf), w)
  | GetCarlaLightsState _ sig => (Ok (Some ("to-carla:" +:+ sig)), w)
  | GetSumoLightsState _ lights => (Ok (Some ("to-sumo:" +:+ lights)), w)
  | CarlaGetActorLightState _ => (Ok (Some "lights"), w)
  | ActorGetLightState _ => (Ok "lights", w)
  | ActorGetTransform _ => (Ok "pose", w)
  | SumoGetNetOffset => (Ok "offset", w)
  | WorldGetBlueprintLibrary => (Ok "library", w)
  | WorldGetSpectator => (Ok "spectator", w)
  | WorldGetVehicles => (Ok [], w)
  | WorldSpawnCamera _ _ _ _ => (Ok "camera", w)
  | BlueprintLibraryFind _ name => (Ok name, w)
  | WorldGetSettings =>
      (Ok {| synchronous_mode := true; fixed_delta_seconds := Some (1 # 10)%Q;
             other_settings := "settings" |}, w)
  end.

#[global] Instance sims : Collaborators string World := {
  handle := @answer;
  sumo_spawned_actors w := list_to_set (f_spawned (sumo_now w));
  sumo_destroyed_actors w := list_to_set (f_destroyed (sumo_now w));
  sumo_traffic_light_ids w := list_to_set (sumo_tls w);
  carla_spawned_actors w := list_to_set (f_spawned (carla_now w));
  carla_destroyed_actors w := list_to_set (f_destroyed (carla_now w));
  carla_traffic_light_ids w := list_to_set (carla_tls w);
  carla_step_length w := (1 # 10)%Q;
  actor_extent a := "extent";
  actor_color a := Some "color";
  image_buffer w := if frame_seen w then Some "frame" else None;
  INVALID_ACTOR_ID := invalid;
}.

(** A quiet world: nothing scripted, no traffic lights. *)
Definition quiet : World :=
  {| sumo_script := []; carla_script := []; sumo_now := empty_frame;
     carla_now := empty_frame; sumo_tls := []; carla_tls := [];
     next_carla_id := 1; next_sumo_id := 1000; clock := [];
     frame_seen := false |}.

Definition with_scripts (sumo carla : list Frame) (w : World) : World :=
  {| sumo_script := sumo; carla_script := carla; sumo_now := sumo_now w;
     carla_now := carla_now w; sumo_tls := sumo_tls w; carla_tls := carla_tls w;
     next_carla_id := next_carla_id w; next_sumo_id := next_sumo_id w;
     clock := clock w; frame_seen := frame_seen w |}.

Definition with_traffic_lights (sumo carla : list actor_id) (w : World) : World :=
  {| sumo_script := sumo_script w; carla_script := carla_script w;
     sumo_now := sumo_now w; carla_now := carla_now w; sumo_tls := sumo;
     carla_tls := carla; next_carla_id := next_carla_id w;
     next_sumo_id := next_sumo_id w; clock := clock w;
     frame_seen := frame_seen w |}.

Definition with_clock (ts : list Q) (w : World) : World :=
  {| sumo_script := sumo_script w; carla_script := carla_script w;
     sumo_now := sumo_now w; carla_now := carla_now w; sumo_tls := sumo_tls w;
     carla_tls := carla_tls w; next_carla_id := next_carla_id w;
     next_sumo_id := next_sumo_id w; clock := ts;
     frame_seen := frame_seen w |}.

Definition config (tls : string) (lights : bool) : Arguments :=
  {| sumo_cfg_file := "Town06.sumocfg"; sumo_gui := false;
     carla_host := "127.0.0.1"; carla_port := 2000; step_length := (1 # 10)%Q;
     tls_manager := tls; sync_vehicle_color := false;
     sync_vehicle_lights := lights |}.

Definition start (w : World) : Sync string World := fresh_sync w.

(** The tables of a state, as association lists. *)
Definition tables (st : Sync string World)
  : list (actor_id * actor_id) * list (actor_id * actor_id) :=
  (map_to_list (sumo2carla_ids st), map_to_list (carla2sumo_ids st)).

(** ** Scenarios *)

Definition frame (spawned destroyed : list actor_id)
    (types : list (actor_id * string)) (stale : list actor_id) : Frame :=
  {| f_spawned := spawned; f_destroyed := destroyed; f_types := types;
     f_stale := stale |}.

(** A world whose simulators have just reported the two frames. *)
Definition at_frames (sumo carla : Frame) (w : World) : World :=
  {| sumo_script := sumo_script w; carla_script := carla_script w;
     sumo_now := sumo; carla_now := carla; sumo_tls := sumo_tls w;
     carla_tls := carla_tls w; next_carla_id := next_carla_id w;
     next_sumo_id := next_sumo_id w; clock := clock w;
     frame_seen := frame_seen w |}.

Definition state_of (w : World) (sumo2carla carla2sumo : list (actor_id * actor_id))
  : Sync string World :=
  {| world := w; sumo2carla_ids := list_to_map sumo2carla;
     carla2sumo_ids := list_to_map carla2sumo; record := false;
     ego_cam := None |}.

Definition cfg : Arguments := config "none" false.

(** SUMO reports ["v1"] and [1000] as spawned; [1000] is the SUMO mirror of
    CARLA's actor [7]. *)
Definition mirror_reported : Sync string World :=
  state_of (at_frames (frame [IdStr "v1"; IdInt 1000] [] [] []) empty_frame quiet)
    [] [(IdInt 7, IdInt 1000)].

(** ["v1"], mirrored as [1], is about to be reported destroyed. *)
Definition orphan_start : Sync string World :=
  state_of (with_scripts [frame [] [IdStr "v1"] [] []] [] quiet)
    [(IdStr "v1", IdInt 1)] [].

(** Two traffic lights in SUMO, one of them in CARLA too. *)
Definition lights_start : Sync string World :=
  state_of (with_traffic_lights [IdStr "tl7"; IdStr "tl8"] [IdStr "tl7"] quiet)
    [] [].

(** Two mirrored SUMO vehicles, nothing destroyed. *)
Definition update_start : Sync string World :=
  state_of quiet [(IdStr "v1", IdInt 1); (IdStr "v2", IdInt 2)] [].


(** On the next tick SUMO reports ["v1"] as spawned but cannot describe it;
    CARLA reports a new actor [7]; SUMO has a further frame pending. *)
Definition stale_start : Sync string World :=
  state_of (with_scripts [frame [IdStr "v1"] [] [] [IdStr "v1"]; empty_frame]
              [frame [IdInt 7] [] [] []] quiet)
    [] [].

Definition stale_error : exception := OtherError "stale sumo actor".

(** One tick of work: a vehicle spawned in each world. *)
Definition teardown_start : Sync string World :=
  state_of (with_scripts [frame [IdStr "v1"] [] [] []]
              [frame [IdInt 7] [] [] []] quiet)
    [] [].

(** ["v1"] is new in SUMO and has no equivalent type in CARLA. *)
Definition unknown_start : Sync string World :=
  state_of (at_frames (frame [IdStr "v1"] [] [(IdStr "v1", "unknown")] [])
              empty_frame quiet)
    [] [].

(** Each simulator reports the same id as spawned on two ticks running: with
    a descriptor that has no equivalent on the first, with a known one on
    the second. *)
Definition retried_start : Sync string World :=
  state_of (with_scripts
              [frame [IdStr "v1"] [] [(IdStr "v1", "unknown")] [];
               frame [IdStr "v1"] [] [(IdStr "v1", "car")] []]
              [frame [IdInt 7] [] [(IdInt 7, "unknown")] [];
               frame [IdInt 7] [] [(IdInt 7, "car")] []] quiet)
    [] [].


(** ["v1"] is mirrored as [1], and CARLA no longer knows the actor [1]. *)
Definition vanished_start : Sync string World :=
  state_of (at_frames empty_frame (frame [] [] [] [IdInt 1]) quiet)
    [(IdStr "v1", IdInt 1)] [].

(** ["v1"] and ["v2"] are mirrored, and SUMO has just reported ["v1"] as
    destroyed. *)
Definition departing_start : Sync string World :=
  state_of (at_frames (frame [] [IdStr "v1"] [] []) empty_frame quiet)
    [(IdStr "v1", IdInt 1); (IdStr "v2", IdInt 2)] [].

(** ["v1"], mirrored as [5], is reported as spawned once more. *)
Definition respawn_start : Sync string World :=
  state_of (at_frames (frame [IdStr "v1"] [] [] []) empty_frame quiet)
    [(IdStr "v1", IdInt 5)] [].

(** Two ticks of work, the ego vehicle ["v1"] spawned by the first. *)
Definition ego_start : Sync string World :=
  state_of (with_scripts [frame [IdStr "v1"] [] [] []; empty_frame] [] quiet)
    [] [].

(** One tick of work in which each simulator reports two new vehicles, and
    the spawn of the first of them is refused by the other simulator. *)
Definition refusing_world : World :=
  with_scripts
    [frame [IdStr "v1"; IdStr "v2"] [] [(IdStr "v1", "blocked")] []]
    [frame [IdInt 7; IdInt 8] [] [(IdInt 7, "blocked")] []] quiet.

End Double.

(** * A CARLA server that cannot be reached

    SUMO starts; the constructor of the CARLA adapter raises, and so would
    every later call. *)
Module Offline.

Definition refused : exception := OtherError "connection refused".

Definition refuse {R} (c : call string R) (w : unit) : result R * unit :=
  match c in call _ R return result R * unit with
  | NewSumoSimulation _ => (Ok tt, w)
  | _ => (Raise refused, w)
  end.

Definition unreachable : Collaborators string unit := {|
  handle := @refuse;
  sumo_spawned_actors w := ∅;
  sumo_destroyed_actors w := ∅;
  sumo_traffic_light_ids w := ∅;
  carla_spawned_actors w := ∅;
  carla_destroyed_actors w := ∅;
  carla_traffic_light_ids w := ∅;
  carla_step_length w := (1 # 10)%Q;
  actor_extent a := a;
  actor_color a := None;
  image_buffer w := None;
  INVALID_ACTOR_ID := IdInt (-1);
|}.

End Offline.

(** * Reasoning about computations *)

Section Properties.

Context {Obj W : Type} `{sims : Collaborators Obj W}.
Variable args : Arguments.
Variable ego_id : actor_id.

#[local] Abbreviation Sync := (Sync Obj W).
#[local] Abbreviation M := (M Obj W).
#[local] Abbreviation transition := (@transition Obj W).

(** ** Sequencing *)

Lemma bind_ok {A B} (m : M A) (f : A → M B) st a st1 ev1 :
  m st = (Ok a, st1, ev1) →
  bind m f st = (let '(r, st2, ev2) := f a st1 in (r, st2, ev1 ++ ev2)).
Proof. intros E. unfold bind. rewrite E. by destruct (f a st1) as [[??]?]. Qed.

Lemma bind_raise {A B} (m : M A) (f : A → M B) st e st1 ev1 :
  m st = (Raise e, st1, ev1) → bind m f st = (Raise e, st1, ev1).
Proof. intros E. unfold bind. by rewrite E. Qed.

Lemma bind_inv {A B} (m : M A) (f : A → M B) st r st' evs :
  bind m f st = (r, st', evs) →
  (∃ e, r = Raise e ∧ m st = (Raise e, st', evs)) ∨
  (∃ a st1 ev1 ev2,
      m st = (Ok a, st1, ev1) ∧ f a st1 = (r, st', ev2) ∧ evs = ev1 ++ ev2).
Proof.
  unfold bind. destruct (m st) as [[[a|e] st1] ev1].
  - destruct (f a st1) as [[r2 st2] ev2] eqn:E. intros [= <- <- <-].
    right. by exists a, st1, ev1, ev2.
  - intros [= <- <- <-]. left. by exists e.
Qed.

Lemma bind_ok_inv {A B} (m : M A) (f : A → M B) st b st' evs :
  bind m f st = (Ok b, st', evs) →
  ∃ a st1 ev1 ev2,
    m st = (Ok a, st1, ev1) ∧ f a st1 = (Ok b, st', ev2) ∧ evs = ev1 ++ ev2.
Proof. intros [(e & ? & _)|H]%bind_inv; [done|exact H]. Qed.

Lemma bind_assoc {A B D} (m : M A) (f : A → M B) (g : B → M D) st :
  bind (bind m f) g st = bind m (λ a, bind (f a) g) st.
Proof.
  unfold bind. destruct (m st) as [[[a|e] st1] ev1]; [|done].
  destruct (f a st1) as [[[b|e] st2] ev2]; [|done].
  destruct (g b st2) as [[r st3] ev3]. by rewrite app_assoc.
Qed.

Lemma bind_ext {A B} (m : M A) (f g : A → M B) st :
  (∀ a st1, f a st1 = g a st1) → bind m f st = bind m g st.
Proof.
  intros E. unfold bind. destruct (m st) as [[[a|e] st1] ev1]; [|done].
  by rewrite E.
Qed.

Lemma for_each_app {A} (l1 l2 : list A) (body : A → M unit) st :
  for_each (l1 ++ l2) body st
  = bind (for_each l1 body) (λ _, for_each l2 body) st.
Proof.
  revert st. induction l1 as [|x l1 IH]; intros st; simpl.
  - unfold bind, ret. by destruct (for_each l2 body st) as [[??]?].
  - rewrite bind_assoc. apply bind_ext. intros _ st1. apply IH.
Qed.

(** ** Stable transitions *)

#[local] Instance keeps_stable {X} (f : Sync → X) : Stable (keeps f).
Proof. split; unfold keeps; [done|]. intros; congruence. Qed.

#[local] Instance emits_stable (P : event Obj → Prop) : Stable (emits (W:=W) P).
Proof. split; unfold emits; [by constructor|]. intros. by apply Forall_app. Qed.

#[local] Instance both_stable (G1 G2 : transition) :
  Stable G1 → Stable G2 → Stable (both G1 G2).
Proof.
  intros [r1 t1] [r2 t2]. split; unfold both; [by split|].
  intros ????? [??] [??]. split; eauto.
Qed.

#[local] Instance sumo2carla_only_at_stable S :
  Stable (sumo2carla_only_at (Obj:=Obj) (W:=W) S).
Proof.
  split; unfold sumo2carla_only_at; [done|].
  intros ????? H1 H2 k Hk. by rewrite H2, H1.
Qed.

#[local] Instance carla2sumo_only_at_stable S :
  Stable (carla2sumo_only_at (Obj:=Obj) (W:=W) S).
Proof.
  split; unfold carla2sumo_only_at; [done|].
  intros ????? H1 H2 k Hk. by rewrite H2, H1.
Qed.

Lemma ensures_ret {A} (a : A) (G : transition) `{!Stable G} : ensures (ret a) G.
Proof. intros ???? [= _ <- <-]. apply stable_refl. Qed.

Lemma ensures_raise {A} e (G : transition) `{!Stable G} :
  ensures (raise (A:=A) e) G.
Proof. intros ???? [= _ <- <-]. apply stable_refl. Qed.

Lemma ensures_gets {A} (f : Sync → A) (G : transition) `{!Stable G} :
  ensures (gets f) G.
Proof. intros ???? [= _ <- <-]. apply stable_refl. Qed.

Lemma ensures_bind {A B} (m : M A) (f : A → M B) (G : transition) `{!Stable G} :
  ensures m G → (∀ a, ensures (f a) G) → ensures (bind m f) G.
Proof.
  intros Hm Hf st r st' evs
    [(e & -> & E)|(a & st1 & ev1 & ev2 & E1 & E2 & ->)]%bind_inv.
  - by eapply Hm.
  - eapply stable_trans; [by eapply Hm|by eapply Hf].
Qed.

Lemma ensures_for_each {A} (l : list A) (body : A → M unit) (G : transition)
    `{!Stable G} :
  (∀ x, x ∈ l → ensures (body x) G) → ensures (for_each l body) G.
Proof.
  induction l as [|x l IH]; intros Hbody; simpl.
  - by apply ensures_ret.
  - apply ensures_bind; [done|apply Hbody; by left|].
    intros _. apply IH. intros y Hy. apply Hbody. by right.
Qed.

Lemma ensures_both {A} (m : M A) (G1 G2 : transition) :
  ensures m G1 → ensures m G2 → ensures m (both G1 G2).
Proof. intros H1 H2 st r st' evs E. split; eauto. Qed.

Lemma ensures_weaken {A} (m : M A) (G1 G2 : transition) :
  (∀ st st' evs, G1 st st' evs → G2 st st' evs) → ensures m G1 → ensures m G2.
Proof. intros H H1 st r st' evs E. eauto. Qed.

(** Symbolic execution of a straight-line body: case on the answer of each
    call in turn. *)
Ltac unfold_monad :=
  cbv beta delta [mbind M_bind bind do gets modify ret raise subscript deref
                  set_world set_sumo2carla_ids set_carla2sumo_ids] iota zeta.

Ltac run_step :=
  match goal with
  | |- context [handle ?R ?c ?w] =>
      let E := fresh "E" in
      destruct (handle R c w) as [[?|?] ?] eqn:E; simpl
  | |- context [decide ?P] => destruct (decide P); simpl
  | |- context [match ?o with Some _ => _ | None => _ end] =>
      let E := fresh "E" in destruct o eqn:E; simpl
  | |- context [if ?b then _ else _] =>
      let E := fresh "E" in destruct b eqn:E; simpl
  end.

Ltac run_body := unfold_monad; simpl; repeat run_step.

Ltac ens :=
  repeat (unfold mbind, M_bind;
    lazymatch goal with
    | |- ensures (bind _ _) _ => apply ensures_bind; [apply _| |intros ?]
    | |- ensures (for_each _ _) _ => apply ensures_for_each; [apply _|intros ? _]
    | |- ensures (ret _) _ => apply ensures_ret; apply _
    | |- ensures (raise _) _ => apply ensures_raise; apply _
    | |- ensures (gets _) _ => apply ensures_gets; apply _
    end).

(** ** What leaves the tables alone *)

Lemma do_keeps {R X} (c : call Obj R) (f : Sync → X) :
  (∀ w st, f (set_world w st) = f st) → ensures (do c) (keeps f).
Proof.
  intros Hf st r st' evs. unfold do.
  destruct (handle R c (world st)) as [r1 w1]. intros [= <- <- <-]. apply Hf.
Qed.

Lemma do_keeps_sumo2carla {R} (c : call Obj R) :
  ensures (do c) (keeps sumo2carla_ids).
Proof. by apply do_keeps. Qed.

Lemma do_keeps_carla2sumo {R} (c : call Obj R) :
  ensures (do c) (keeps carla2sumo_ids).
Proof. by apply do_keeps. Qed.

Lemma update_sumo_actor_keeps i :
  ensures (update_sumo_actor args i)
    (both (keeps sumo2carla_ids) (keeps carla2sumo_ids)).
Proof.
  intros st r st' evs. unfold update_sumo_actor, both, keeps.
  run_body; by intros [= <- <- <-].
Qed.

Lemma update_carla_actor_keeps i :
  ensures (update_carla_actor args i)
    (both (keeps sumo2carla_ids) (keeps carla2sumo_ids)).
Proof.
  intros st r st' evs. unfold update_carla_actor, both, keeps.
  run_body; by intros [= <- <- <-].
Qed.

Lemma update_carla_traffic_light_keeps l :
  ensures (update_carla_traffic_light l)
    (both (keeps sumo2carla_ids) (keeps carla2sumo_ids)).
Proof.
  intros st r st' evs. unfold update_carla_traffic_light, both, keeps.
  run_body; by intros [= <- <- <-].
Qed.

Lemma update_sumo_traffic_light_keeps l :
  ensures (update_sumo_traffic_light l)
    (both (keeps sumo2carla_ids) (keeps carla2sumo_ids)).
Proof.
  intros st r st' evs. unfold update_sumo_traffic_light, both, keeps.
  run_body; by intros [= <- <- <-].
Qed.

Lemma update_sumo_actors_keeps :
  ensures (update_sumo_actors args)
    (both (keeps sumo2carla_ids) (keeps carla2sumo_ids)).
Proof. unfold update_sumo_actors. ens. apply update_sumo_actor_keeps. Qed.

Lemma update_carla_actors_keeps :
  ensures (update_carla_actors args)
    (both (keeps sumo2carla_ids) (keeps carla2sumo_ids)).
Proof. unfold update_carla_actors. ens. apply update_carla_actor_keeps. Qed.

Lemma update_carla_traffic_lights_keeps :
  ensures (update_carla_traffic_lights args)
    (both (keeps sumo2carla_ids) (keeps carla2sumo_ids)).
Proof.
  unfold update_carla_traffic_lights. case_decide; ens.
  apply update_carla_traffic_light_keeps.
Qed.

Lemma update_sumo_traffic_lights_keeps :
  ensures (update_sumo_traffic_lights args)
    (both (keeps sumo2carla_ids) (keeps carla2sumo_ids)).
Proof.
  unfold update_sumo_traffic_lights. case_decide; ens.
  apply update_sumo_traffic_light_keeps.
Qed.

Lemma ensures_left {A} (m : M A) (G1 G2 : transition) :
  ensures m (both G1 G2) → ensures m G1.
Proof. intros H st r st' evs E. by destruct (H _ _ _ _ E). Qed.

Lemma ensures_right {A} (m : M A) (G1 G2 : transition) :
  ensures m (both G1 G2) → ensures m G2.
Proof. intros H st r st' evs E. by destruct (H _ _ _ _ E). Qed.

(** ** The spawn loops *)

(** One iteration touches its own key only, never the other table, and
    addresses the simulator about its own id only. *)
Lemma spawn_sumo_actor_frame i :
  ensures (spawn_sumo_actor args i)
    (both (keeps carla2sumo_ids)
       (both (sumo2carla_only_at {[i]})
          (emits (λ ev, ∀ j, sumo_spawn_source ev = Some j → j = i)))).
Proof.
  intros st r st' evs. unfold spawn_sumo_actor, both, keeps, emits,
    sumo2carla_only_at. run_body; intros [= <- <- <-]; simpl;
    (split; [done|split;
      [intros k Hk; try done; apply lookup_insert_ne; set_solver
      |repeat constructor; simpl; congruence]]).
Qed.

Lemma spawn_carla_actor_frame i :
  ensures (spawn_carla_actor args i)
    (both (keeps sumo2carla_ids)
       (both (carla2sumo_only_at {[i]})
          (emits (λ ev, ∀ j, carla_spawn_source ev = Some j → j = i)))).
Proof.
  intros st r st' evs. unfold spawn_carla_actor, both, keeps, emits,
    carla2sumo_only_at. run_body; intros [= <- <- <-]; simpl;
    (split; [done|split;
      [intros k Hk; try done; apply lookup_insert_ne; set_solver
      |repeat constructor; simpl; congruence]]).
Qed.

Lemma spawn_sumo_actors_frame st r st' evs :
  spawn_sumo_actors args st = (r, st', evs) →
  carla2sumo_ids st' = carla2sumo_ids st ∧
  (∀ k, k ∉ sumo_spawned st → sumo2carla_ids st' !! k = sumo2carla_ids st !! k) ∧
  Forall (λ ev, ∀ j, sumo_spawn_source ev = Some j → j ∈ sumo_spawned st) evs.
Proof.
  unfold spawn_sumo_actors. unfold_monad. simpl.
  destruct (for_each _ _ st) as [[r1 st1] ev1] eqn:E. intros [= <- <- <-].
  eapply (ensures_for_each _ _
    (both (keeps carla2sumo_ids)
       (both (sumo2carla_only_at (sumo_spawned st))
          (emits (λ ev, ∀ j, sumo_spawn_source ev = Some j
                            → j ∈ sumo_spawned st))))) in E; [exact E|].
  intros i Hi%elem_of_elements. eapply ensures_weaken;
    [|apply spawn_sumo_actor_frame].
  intros s s' ev (? & Hk & Hev). split; [done|split].
  - intros k ?. apply Hk. set_solver.
  - eapply Forall_impl; [exact Hev|]. simpl. intros e He j Hj.
    apply He in Hj as ->. done.
Qed.

Lemma spawn_carla_actors_frame st r st' evs :
  spawn_carla_actors args st = (r, st', evs) →
  sumo2carla_ids st' = sumo2carla_ids st ∧
  (∀ k, k ∉ carla_spawned st → carla2sumo_ids st' !! k = carla2sumo_ids st !! k) ∧
  Forall (λ ev, ∀ j, carla_spawn_source ev = Some j → j ∈ carla_spawned st) evs.
Proof.
  unfold spawn_carla_actors. unfold_monad. simpl.
  destruct (for_each _ _ st) as [[r1 st1] ev1] eqn:E. intros [= <- <- <-].
  eapply (ensures_for_each _ _
    (both (keeps sumo2carla_ids)
       (both (carla2sumo_only_at (carla_spawned st))
          (emits (λ ev, ∀ j, carla_spawn_source ev = Some j
                            → j ∈ carla_spawned st))))) in E; [exact E|].
  intros i Hi%elem_of_elements. eapply ensures_weaken;
    [|apply spawn_carla_actor_frame].
  intros s s' ev (? & Hk & Hev). split; [done|split].
  - intros k ?. apply Hk. set_solver.
  - eapply Forall_impl; [exact Hev|]. simpl. intros e He j Hj.
    apply He in Hj as ->. done.
Qed.

(** C1.  No re-mirroring of mirrors.  Whatever its outcome, the spawn loop
    of the SUMO half-pass addresses only ids of [sumo.spawned_actors] that are
    not values of [carla2sumo_ids], leaves [carla2sumo_ids] alone, and leaves
    the entry of [sumo2carla_ids] at every value of [carla2sumo_ids] as it
    was: a mirror does not become a key.  The same holds of the CARLA
    half-pass with the two tables exchanged. *)
Theorem no_remirroring_of_mirrors st r st' evs :
  (spawn_sumo_actors args st = (r, st', evs) →
     Forall (λ ev, ∀ i, sumo_spawn_source ev = Some i →
               i ∈ sumo_spawned_actors (world st) ∧
               i ∉ value_set (carla2sumo_ids st)) evs ∧
     carla2sumo_ids st' = carla2sumo_ids st ∧
     ∀ k, k ∈ value_set (carla2sumo_ids st) →
          sumo2carla_ids st' !! k = sumo2carla_ids st !! k) ∧
  (spawn_carla_actors args st = (r, st', evs) →
     Forall (λ ev, ∀ i, carla_spawn_source ev = Some i →
               i ∈ carla_spawned_actors (world st) ∧
               i ∉ value_set (sumo2carla_ids st)) evs ∧
     sumo2carla_ids st' = sumo2carla_ids st ∧
     ∀ k, k ∈ value_set (sumo2carla_ids st) →
          carla2sumo_ids st' !! k = carla2sumo_ids st !! k).
Proof.
  split.
  - intros (Hc & Hk & Hev)%spawn_sumo_actors_frame. split; [|split; [done|]].
    + eapply Forall_impl; [exact Hev|]. simpl. intros e He i Hi.
      apply He in Hi. unfold sumo_spawned in Hi. set_solver.
    + intros k Hin. apply Hk. unfold sumo_spawned. set_solver.
  - intros (Hc & Hk & Hev)%spawn_carla_actors_frame. split; [|split; [done|]].
    + eapply Forall_impl; [exact Hev|]. simpl. intros e He i Hi.
      apply He in Hi. unfold carla_spawned in Hi. set_solver.
    + intros k Hin. apply Hk. unfold carla_spawned. set_solver.
Qed.

(** ** The destroy loops *)

Lemma destroy_sumo_actor_unmapped a st :
  sumo2carla_ids st !! a = None → destroy_sumo_actor a st = (Ok tt, st, []).
Proof. intros E. unfold destroy_sumo_actor. unfold_monad. by rewrite E. Qed.

Lemma destroy_carla_actor_unmapped a st :
  carla2sumo_ids st !! a = None → destroy_carla_actor a st = (Ok tt, st, []).
Proof. intros E. unfold destroy_carla_actor. unfold_monad. by rewrite E. Qed.

Lemma destroy_sumo_actor_mapped a b st :
  sumo2carla_ids st !! a = Some b →
  destroy_sumo_actor a st =
    (let '(r, w) := handle _ (CarlaDestroyActor b) (world st) in
     (r, set_world w (set_sumo2carla_ids (delete a (sumo2carla_ids st)) st),
      [Ev (CarlaDestroyActor b) r])).
Proof.
  intros E. unfold destroy_sumo_actor. unfold_monad. rewrite E. simpl.
  by destruct (handle _ _ _) as [??].
Qed.

Lemma destroy_carla_actor_mapped a b st :
  carla2sumo_ids st !! a = Some b →
  destroy_carla_actor a st =
    (let '(r, w) := handle _ (SumoDestroyActor b) (world st) in
     (r, set_world w (set_carla2sumo_ids (delete a (carla2sumo_ids st)) st),
      [Ev (SumoDestroyActor b) r])).
Proof.
  intros E. unfold destroy_carla_actor. unfold_monad. rewrite E. simpl.
  by destruct (handle _ _ _) as [??].
Qed.

(** Whatever its outcome, the loop destroys mirrors of destroyed keys only,
    and removes entries at destroyed keys only. *)
Lemma destroy_sumo_loop_frame l st r st' evs :
  for_each l destroy_sumo_actor st = (r, st', evs) →
  carla2sumo_ids st' = carla2sumo_ids st ∧
  (∀ k, k ∉ l → sumo2carla_ids st' !! k = sumo2carla_ids st !! k) ∧
  (∀ ev b, ev ∈ evs → destroyed_in_carla ev = Some b →
           ∃ a, a ∈ l ∧ sumo2carla_ids st !! a = Some b) ∧
  Forall (λ ev, is_Some (destroyed_in_carla ev)) evs.
Proof.
  revert st r st' evs. induction l as [|x l IH]; intros st r st' evs; simpl.
  - intros [= <- <- <-]. repeat split; try done. by intros ?? ?%elem_of_nil.
  - destruct (sumo2carla_ids st !! x) as [b|] eqn:Ex.
    + unfold bind. rewrite (destroy_sumo_actor_mapped _ _ _ Ex).
      destruct (handle _ _ _) as [[[]|e] w].
      * destruct (for_each _ _ _) as [[r2 st2] ev2] eqn:E2.
        intros [= <- <- <-]. apply IH in E2 as (Hc & Hk & Hev & Hall).
        simpl in *. split; [done|split; [|split]].
        -- intros k Hk'. rewrite Hk by set_solver.
           apply lookup_delete_ne. set_solver.
        -- intros ev b' [->|Hin]%elem_of_cons Hd.
           ++ simpl in Hd. injection Hd as <-. exists x. split; [by left|done].
           ++ destruct (Hev _ _ Hin Hd) as (a & Ha & Hlk). exists a.
              split; [by right|].
              by apply lookup_delete_Some in Hlk as [_ ?].
        -- constructor; [by eexists|done].
      * intros [= <- <- <-]. simpl. split; [done|split; [|split]].
        -- intros k Hk'. apply lookup_delete_ne. set_solver.
        -- intros ev b' ->%list_elem_of_singleton Hd. simpl in Hd.
           injection Hd as <-. exists x. split; [by left|done].
        -- constructor; [by eexists|done].
    + unfold bind. rewrite (destroy_sumo_actor_unmapped _ _ Ex).
      destruct (for_each _ _ _) as [[r2 st2] ev2] eqn:E2.
      intros [= <- <- <-]. apply IH in E2 as (Hc & Hk & Hev & Hall).
      simpl. split; [done|split; [|split; [|done]]].
      * intros k Hk'. apply Hk. set_solver.
      * intros ev b' Hin Hd. destruct (Hev _ _ Hin Hd) as (a & Ha & Hlk).
        exists a. split; [by right|done].
Qed.

Lemma destroy_carla_loop_frame l st r st' evs :
  for_each l destroy_carla_actor st = (r, st', evs) →
  sumo2carla_ids st' = sumo2carla_ids st ∧
  (∀ k, k ∉ l → carla2sumo_ids st' !! k = carla2sumo_ids st !! k) ∧
  (∀ ev b, ev ∈ evs → destroyed_in_sumo ev = Some b →
           ∃ a, a ∈ l ∧ carla2sumo_ids st !! a = Some b) ∧
  Forall (λ ev, is_Some (destroyed_in_sumo ev)) evs.
Proof.
  revert st r st' evs. induction l as [|x l IH]; intros st r st' evs; simpl.
  - intros [= <- <- <-]. repeat split; try done. by intros ?? ?%elem_of_nil.
  - destruct (carla2sumo_ids st !! x) as [b|] eqn:Ex.
    + unfold bind. rewrite (destroy_carla_actor_mapped _ _ _ Ex).
      destruct (handle _ _ _) as [[[]|e] w].
      * destruct (for_each _ _ _) as [[r2 st2] ev2] eqn:E2.
        intros [= <- <- <-]. apply IH in E2 as (Hc & Hk & Hev & Hall).
        simpl in *. split; [done|split; [|split]].
        -- intros k Hk'. rewrite Hk by set_solver.
           apply lookup_delete_ne. set_solver.
        -- intros ev b' [->|Hin]%elem_of_cons Hd.
           ++ simpl in Hd. injection Hd as <-. exists x. split; [by left|done].
           ++ destruct (Hev _ _ Hin Hd) as (a & Ha & Hlk). exists a.
              split; [by right|].
              by apply lookup_delete_Some in Hlk as [_ ?].
        -- constructor; [by eexists|done].
      * intros [= <- <- <-]. simpl. split; [done|split; [|split]].
        -- intros k Hk'. apply lookup_delete_ne. set_solver.
        -- intros ev b' ->%list_elem_of_singleton Hd. simpl in Hd.
           injection Hd as <-. exists x. split; [by left|done].
        -- constructor; [by eexists|done].
    + unfold bind. rewrite (destroy_carla_actor_unmapped _ _ Ex).
      destruct (for_each _ _ _) as [[r2 st2] ev2] eqn:E2.
      intros [= <- <- <-]. apply IH in E2 as (Hc & Hk & Hev & Hall).
      simpl. split; [done|split; [|split; [|done]]].
      * intros k Hk'. apply Hk. set_solver.
      * intros ev b' Hin Hd. destruct (Hev _ _ Hin Hd) as (a & Ha & Hlk).
        exists a. split; [by right|done].
Qed.

(** When the loop returns, every mirror of a destroyed key was destroyed and
    every destroyed key is gone. *)
Lemma destroy_sumo_loop_ok l st st' evs :
  for_each l destroy_sumo_actor st = (Ok tt, st', evs) →
  (∀ a, a ∈ l → sumo2carla_ids st' !! a = None) ∧
  (∀ a b, a ∈ l → sumo2carla_ids st !! a = Some b →
          Ev (CarlaDestroyActor b) (Ok tt) ∈ evs).
Proof.
  revert st st' evs. induction l as [|x l IH]; intros st st' evs; simpl.
  - intros _. split; intros a; [|intros b]; by intros ?%elem_of_nil.
  - intros (u & st1 & ev1 & ev2 & E1 & E2 & ->)%bind_ok_inv.
    pose proof (destroy_sumo_loop_frame _ _ _ _ _ E2) as (_ & Hk & _).
    apply IH in E2 as [Hgone Hev]. destruct u.
    destruct (sumo2carla_ids st !! x) as [b|] eqn:Ex.
    + rewrite (destroy_sumo_actor_mapped _ _ _ Ex) in E1.
      destruct (handle _ _ _) as [[[]|e] w]; [|done].
      injection E1 as <- <-. simpl in *. split.
      * intros a [->|Ha]%elem_of_cons; [|by apply Hgone].
        destruct (decide (x ∈ l)); [by apply Hgone|].
        rewrite Hk by done. apply lookup_delete_eq.
      * intros a b' [->|Ha]%elem_of_cons Hlk.
        -- simplify_eq. set_solver.
        -- destruct (decide (a = x)) as [->|Hne]; [simplify_eq; set_solver|].
           apply elem_of_cons. right. eapply Hev; [done|].
           by rewrite lookup_delete_ne.
    + rewrite (destroy_sumo_actor_unmapped _ _ Ex) in E1.
      injection E1 as <- <-. simpl. split.
      * intros a [->|Ha]%elem_of_cons; [|by apply Hgone].
        destruct (decide (x ∈ l)); [by apply Hgone|]. by rewrite Hk.
      * intros a b' [->|Ha]%elem_of_cons Hlk; [congruence|]. eauto.
Qed.

Lemma destroy_carla_loop_ok l st st' evs :
  for_each l destroy_carla_actor st = (Ok tt, st', evs) →
  (∀ a, a ∈ l → carla2sumo_ids st' !! a = None) ∧
  (∀ a b, a ∈ l → carla2sumo_ids st !! a = Some b →
          Ev (SumoDestroyActor b) (Ok tt) ∈ evs).
Proof.
  revert st st' evs. induction l as [|x l IH]; intros st st' evs; simpl.
  - intros _. split; intros a; [|intros b]; by intros ?%elem_of_nil.
  - intros (u & st1 & ev1 & ev2 & E1 & E2 & ->)%bind_ok_inv.
    pose proof (destroy_carla_loop_frame _ _ _ _ _ E2) as (_ & Hk & _).
    apply IH in E2 as [Hgone Hev]. destruct u.
    destruct (carla2sumo_ids st !! x) as [b|] eqn:Ex.
    + rewrite (destroy_carla_actor_mapped _ _ _ Ex) in E1.
      destruct (handle _ _ _) as [[[]|e] w]; [|done].
      injection E1 as <- <-. simpl in *. split.
      * intros a [->|Ha]%elem_of_cons; [|by apply Hgone].
        destruct (decide (x ∈ l)); [by apply Hgone|].
        rewrite Hk by done. apply lookup_delete_eq.
      * intros a b' [->|Ha]%elem_of_cons Hlk.
        -- simplify_eq. set_solver.
        -- destruct (decide (a = x)) as [->|Hne]; [simplify_eq; set_solver|].
           apply elem_of_cons. right. eapply Hev; [done|].
           by rewrite lookup_delete_ne.
    + rewrite (destroy_carla_actor_unmapped _ _ Ex) in E1.
      injection E1 as <- <-. simpl. split.
      * intros a [->|Ha]%elem_of_cons; [|by apply Hgone].
        destruct (decide (x ∈ l)); [by apply Hgone|]. by rewrite Hk.
      * intros a b' [->|Ha]%elem_of_cons Hlk; [congruence|]. eauto.
Qed.

Lemma destroy_sumo_actors_frame st r st' evs :
  destroy_sumo_actors st = (r, st', evs) →
  carla2sumo_ids st' = carla2sumo_ids st ∧
  (∀ k, k ∉ sumo_destroyed_actors (world st) →
        sumo2carla_ids st' !! k = sumo2carla_ids st !! k) ∧
  (∀ ev b, ev ∈ evs → destroyed_in_carla ev = Some b →
     ∃ a, a ∈ sumo_destroyed_actors (world st) ∧ sumo2carla_ids st !! a = Some b).
Proof.
  unfold destroy_sumo_actors. unfold_monad. simpl.
  destruct (for_each _ _ st) as [[r1 st1] ev1] eqn:E. intros [= <- <- <-].
  apply destroy_sumo_loop_frame in E as (Hc & Hk & Hev & _).
  split; [done|split].
  - intros k Hk'. apply Hk. by rewrite elem_of_elements.
  - intros ev b Hin Hd. destruct (Hev _ _ Hin Hd) as (a & Ha & ?).
    exists a. by rewrite elem_of_elements in Ha.
Qed.

Lemma destroy_carla_actors_frame st r st' evs :
  destroy_carla_actors st = (r, st', evs) →
  sumo2carla_ids st' = sumo2carla_ids st ∧
  (∀ k, k ∉ carla_destroyed_actors (world st) →
        carla2sumo_ids st' !! k = carla2sumo_ids st !! k) ∧
  (∀ ev b, ev ∈ evs → destroyed_in_sumo ev = Some b →
     ∃ a, a ∈ carla_destroyed_actors (world st) ∧ carla2sumo_ids st !! a = Some b).
Proof.
  unfold destroy_carla_actors. unfold_monad. simpl.
  destruct (for_each _ _ st) as [[r1 st1] ev1] eqn:E. intros [= <- <- <-].
  apply destroy_carla_loop_frame in E as (Hc & Hk & Hev & _).
  split; [done|split].
  - intros k Hk'. apply Hk. by rewrite elem_of_elements.
  - intros ev b Hin Hd. destruct (Hev _ _ Hin Hd) as (a & Ha & ?).
    exists a. by rewrite elem_of_elements in Ha.
Qed.

Lemma destroy_sumo_actors_only st r st' evs :
  destroy_sumo_actors st = (r, st', evs) →
  Forall (λ ev, is_Some (destroyed_in_carla ev)) evs.
Proof.
  unfold destroy_sumo_actors. unfold_monad. simpl.
  destruct (for_each _ _ st) as [[r1 st1] ev1] eqn:E. intros [= <- <- <-].
  by apply destroy_sumo_loop_frame in E as (_ & _ & _ & ?).
Qed.

Lemma destroy_carla_actors_only st r st' evs :
  destroy_carla_actors st = (r, st', evs) →
  Forall (λ ev, is_Some (destroyed_in_sumo ev)) evs.
Proof.
  unfold destroy_carla_actors. unfold_monad. simpl.
  destruct (for_each _ _ st) as [[r1 st1] ev1] eqn:E. intros [= <- <- <-].
  by apply destroy_carla_loop_frame in E as (_ & _ & _ & ?).
Qed.

Lemma destroy_sumo_actors_ok st st' evs :
  destroy_sumo_actors st = (Ok tt, st', evs) →
  ∀ a, a ∈ sumo_destroyed_actors (world st) →
    sumo2carla_ids st' !! a = None ∧
    ∀ b, sumo2carla_ids st !! a = Some b → Ev (CarlaDestroyActor b) (Ok tt) ∈ evs.
Proof.
  unfold destroy_sumo_actors. unfold_monad. simpl.
  destruct (for_each _ _ st) as [[r1 st1] ev1] eqn:E. intros [= -> <- <-].
  apply destroy_sumo_loop_ok in E as [Hgone Hev].
  intros a Ha%elem_of_elements. split; eauto.
Qed.

Lemma destroy_carla_actors_ok st st' evs :
  destroy_carla_actors st = (Ok tt, st', evs) →
  ∀ a, a ∈ carla_destroyed_actors (world st) →
    carla2sumo_ids st' !! a = None ∧
    ∀ b, carla2sumo_ids st !! a = Some b → Ev (SumoDestroyActor b) (Ok tt) ∈ evs.
Proof.
  unfold destroy_carla_actors. unfold_monad. simpl.
  destruct (for_each _ _ st) as [[r1 st1] ev1] eqn:E. intros [= -> <- <-].
  apply destroy_carla_loop_ok in E as [Hgone Hev].
  intros a Ha%elem_of_elements. split; eauto.
Qed.

(** ** The half-passes *)

Lemma spawn_carla_actors_keeps :
  ensures (spawn_carla_actors args) (keeps sumo2carla_ids).
Proof. intros st r st' evs E. by apply spawn_carla_actors_frame in E as [? _]. Qed.

Lemma destroy_carla_actors_keeps :
  ensures destroy_carla_actors (keeps sumo2carla_ids).
Proof. intros st r st' evs E. by apply destroy_carla_actors_frame in E as [? _]. Qed.

Lemma carla_pass_after_spawn_keeps :
  ensures (carla_pass_after_spawn args) (keeps sumo2carla_ids).
Proof.
  unfold carla_pass_after_spawn. ens.
  - apply destroy_carla_actors_keeps.
  - eapply ensures_left, update_carla_actors_keeps.
  - eapply ensures_left, update_sumo_traffic_lights_keeps.
Qed.

Lemma carla_pass_keeps : ensures (carla_pass args) (keeps sumo2carla_ids).
Proof.
  unfold carla_pass. ens.
  - apply do_keeps_sumo2carla.
  - apply spawn_carla_actors_keeps.
  - apply carla_pass_after_spawn_keeps.
Qed.

Lemma tick_cut_at_sumo_destroy st :
  tick args st
  = bind (tick_until_sumo_destroy args) (λ _, tick_from_sumo_destroy args) st.
Proof.
  unfold tick, sumo_pass, tick_until_sumo_destroy, tick_from_sumo_destroy,
    mbind, M_bind.
  rewrite !bind_assoc. apply bind_ext. intros _ st1. apply bind_assoc.
Qed.

Lemma tick_cut_at_carla_destroy st :
  tick args st
  = bind (tick_until_carla_destroy args) (λ _, carla_pass_after_spawn args) st.
Proof.
  unfold tick, carla_pass, tick_until_carla_destroy, mbind, M_bind.
  rewrite (bind_assoc (sumo_pass args)). apply bind_ext. intros _ st1.
  symmetry. apply bind_assoc.
Qed.

(** C2.  No orphan mirrors.  Take a tick that returns, and the state at which
    the destroy loop of a half-pass begins.  For every id [a] of the driver
    world's destroyed set that is a key of that direction's table there, the
    destroy call for its mirror was made after that point and returned, and
    [a] is no key of the table when the tick ends.  An id that is not a key
    makes the loop body do nothing at all; and, whatever the outcome, the
    loop destroys only mirrors of destroyed keys, removes only destroyed
    keys, and leaves the other table alone. *)
Theorem no_orphan_mirrors :
  (∀ st0 st ev0 st' evs a b,
     tick_until_sumo_destroy args st0 = (Ok tt, st, ev0) →
     tick args st0 = (Ok tt, st', evs) →
     a ∈ sumo_destroyed_actors (world st) →
     sumo2carla_ids st !! a = Some b →
     (∃ ev1, evs = ev0 ++ ev1 ∧ Ev (CarlaDestroyActor b) (Ok tt) ∈ ev1) ∧
     sumo2carla_ids st' !! a = None) ∧
  (∀ st0 st ev0 st' evs a b,
     tick_until_carla_destroy args st0 = (Ok tt, st, ev0) →
     tick args st0 = (Ok tt, st', evs) →
     a ∈ carla_destroyed_actors (world st) →
     carla2sumo_ids st !! a = Some b →
     (∃ ev1, evs = ev0 ++ ev1 ∧ Ev (SumoDestroyActor b) (Ok tt) ∈ ev1) ∧
     carla2sumo_ids st' !! a = None) ∧
  (∀ st a, sumo2carla_ids st !! a = None →
     destroy_sumo_actor a st = (Ok tt, st, [])) ∧
  (∀ st a, carla2sumo_ids st !! a = None →
     destroy_carla_actor a st = (Ok tt, st, [])) ∧
  (∀ st r st' evs, destroy_sumo_actors st = (r, st', evs) →
     carla2sumo_ids st' = carla2sumo_ids st ∧
     (∀ k, k ∉ sumo_destroyed_actors (world st) →
           sumo2carla_ids st' !! k = sumo2carla_ids st !! k) ∧
     ∀ ev b, ev ∈ evs → destroyed_in_carla ev = Some b →
       ∃ a, a ∈ sumo_destroyed_actors (world st) ∧
            sumo2carla_ids st !! a = Some b) ∧
  (∀ st r st' evs, destroy_carla_actors st = (r, st', evs) →
     sumo2carla_ids st' = sumo2carla_ids st ∧
     (∀ k, k ∉ carla_destroyed_actors (world st) →
           carla2sumo_ids st' !! k = carla2sumo_ids st !! k) ∧
     ∀ ev b, ev ∈ evs → destroyed_in_sumo ev = Some b →
       ∃ a, a ∈ carla_destroyed_actors (world st) ∧
            carla2sumo_ids st !! a = Some b).
Proof.
  split; [|split; [|split; [|split; [|split]]]].
  - intros st0 st ev0 st' evs a b E0 E Ha Hb.
    rewrite tick_cut_at_sumo_destroy, (bind_ok _ _ _ _ _ _ E0) in E.
    destruct (tick_from_sumo_destroy args st) as [[r1 st1] ev1] eqn:E1.
    injection E as -> -> <-.
    unfold tick_from_sumo_destroy, mbind, M_bind in E1.
    apply bind_ok_inv in E1 as ([] & st2 & e2 & e3 & E2 & E3 & ->).
    apply carla_pass_keeps in E3. unfold keeps in E3.
    unfold sumo_pass_after_spawn, mbind, M_bind in E2.
    apply bind_ok_inv in E2 as ([] & st3 & e4 & e5 & E4 & E5 & ->).
    apply bind_ok_inv in E5 as ([] & st4 & e6 & e7 & E6 & E7 & ->).
    apply update_sumo_actors_keeps in E6 as [E6 _].
    apply update_carla_traffic_lights_keeps in E7 as [E7 _].
    unfold keeps in *.
    destruct (destroy_sumo_actors_ok _ _ _ E4 a Ha) as [Hgone Hev].
    split.
    + eexists. split; [done|]. rewrite !elem_of_app. left. left. eauto.
    + congruence.
  - intros st0 st ev0 st' evs a b E0 E Ha Hb.
    rewrite tick_cut_at_carla_destroy, (bind_ok _ _ _ _ _ _ E0) in E.
    destruct (carla_pass_after_spawn args st) as [[r1 st1] ev1] eqn:E1.
    injection E as -> -> <-.
    unfold carla_pass_after_spawn, mbind, M_bind in E1.
    apply bind_ok_inv in E1 as ([] & st3 & e4 & e5 & E4 & E5 & ->).
    apply bind_ok_inv in E5 as ([] & st4 & e6 & e7 & E6 & E7 & ->).
    apply update_carla_actors_keeps in E6 as [_ E6].
    apply update_sumo_traffic_lights_keeps in E7 as [_ E7].
    unfold keeps in *.
    destruct (destroy_carla_actors_ok _ _ _ E4 a Ha) as [Hgone Hev].
    split.
    + eexists. split; [done|]. rewrite !elem_of_app. left. eauto.
    + congruence.
  - intros st a. apply destroy_sumo_actor_unmapped.
  - intros st a. apply destroy_carla_actor_unmapped.
  - apply destroy_sumo_actors_frame.
  - apply destroy_carla_actors_frame.
Qed.

(** ** The families of calls each part makes *)

Lemma emits_weaken {A} (m : M A) (P Q : event Obj → Prop) :
  (∀ ev, P ev → Q ev) → ensures m (emits P) → ensures m (emits Q).
Proof.
  intros HPQ Hm st r st' evs E. eapply Forall_impl; [by eapply Hm|done].
Qed.

Lemma do_emits {R} (c : call Obj R) (P : event Obj → Prop) :
  (∀ r, P (Ev c r)) → ensures (do c) (emits P).
Proof.
  intros HP st r st' evs. unfold do.
  destruct (handle R c (world st)) as [r1 w1]. intros [= <- <- <-].
  by repeat constructor.
Qed.

Ltac body_emits :=
  intros ? ? ? ?; unfold emits; run_body; intros [= <- <- <-];
  repeat constructor.

Lemma spawn_sumo_actor_family i :
  ensures (spawn_sumo_actor args i) (emits (λ ev, family_of ev = Vehicle)).
Proof. unfold spawn_sumo_actor. body_emits. Qed.

Lemma destroy_sumo_actor_family i :
  ensures (destroy_sumo_actor i) (emits (λ ev, family_of ev = Vehicle)).
Proof. unfold destroy_sumo_actor. body_emits. Qed.

Lemma update_sumo_actor_family i :
  ensures (update_sumo_actor args i) (emits (λ ev, family_of ev = Vehicle)).
Proof. unfold update_sumo_actor. body_emits. Qed.

Lemma spawn_carla_actor_family i :
  ensures (spawn_carla_actor args i) (emits (λ ev, family_of ev = Vehicle)).
Proof. unfold spawn_carla_actor. body_emits. Qed.

Lemma destroy_carla_actor_family i :
  ensures (destroy_carla_actor i) (emits (λ ev, family_of ev = Vehicle)).
Proof. unfold destroy_carla_actor. body_emits. Qed.

Lemma update_carla_actor_family i :
  ensures (update_carla_actor args i) (emits (λ ev, family_of ev = Vehicle)).
Proof. unfold update_carla_actor. body_emits. Qed.

Lemma update_carla_traffic_light_family l :
  ensures (update_carla_traffic_light l)
    (emits (λ ev, family_of ev = LightsToCarla)).
Proof. unfold update_carla_traffic_light. body_emits. Qed.

Lemma update_sumo_traffic_light_family l :
  ensures (update_sumo_traffic_light l)
    (emits (λ ev, family_of ev = LightsToSumo)).
Proof. unfold update_sumo_traffic_light. body_emits. Qed.

Lemma update_carla_traffic_lights_off st :
  tls_manager args ≠ "sumo" →
  update_carla_traffic_lights args st = (Ok tt, st, []).
Proof. intros H. unfold update_carla_traffic_lights. by case_decide. Qed.

Lemma update_sumo_traffic_lights_off st :
  tls_manager args ≠ "carla" →
  update_sumo_traffic_lights args st = (Ok tt, st, []).
Proof. intros H. unfold update_sumo_traffic_lights. by case_decide. Qed.

Lemma update_carla_traffic_lights_family :
  ensures (update_carla_traffic_lights args)
    (emits (λ ev, tls_manager args = "sumo" ∧ family_of ev = LightsToCarla)).
Proof.
  unfold update_carla_traffic_lights. case_decide; ens.
  eapply emits_weaken; [|apply update_carla_traffic_light_family]. done.
Qed.

Lemma update_sumo_traffic_lights_family :
  ensures (update_sumo_traffic_lights args)
    (emits (λ ev, tls_manager args = "carla" ∧ family_of ev = LightsToSumo)).
Proof.
  unfold update_sumo_traffic_lights. case_decide; ens.
  eapply emits_weaken; [|apply update_sumo_traffic_light_family]. done.
Qed.

Lemma sumo_pass_family :
  ensures (sumo_pass args)
    (emits (λ ev, family_of ev = SumoStep ∨ family_of ev = Vehicle ∨
                  (tls_manager args = "sumo" ∧ family_of ev = LightsToCarla))).
Proof.
  unfold sumo_pass, sumo_pass_after_spawn, spawn_sumo_actors,
    destroy_sumo_actors, update_sumo_actors. ens.
  - apply do_emits. intros r. by left.
  - eapply emits_weaken; [|apply spawn_sumo_actor_family]. simpl. tauto.
  - eapply emits_weaken; [|apply destroy_sumo_actor_family]. simpl. tauto.
  - eapply emits_weaken; [|apply update_sumo_actor_family]. simpl. tauto.
  - eapply emits_weaken; [|apply update_carla_traffic_lights_family].
    simpl. tauto.
Qed.

Lemma carla_pass_family :
  ensures (carla_pass args)
    (emits (λ ev, family_of ev = CarlaStep ∨ family_of ev = Vehicle ∨
                  (tls_manager args = "carla" ∧ family_of ev = LightsToSumo))).
Proof.
  unfold carla_pass, carla_pass_after_spawn, spawn_carla_actors,
    destroy_carla_actors, update_carla_actors. ens.
  - apply do_emits. intros r. by left.
  - eapply emits_weaken; [|apply spawn_carla_actor_family]. simpl. tauto.
  - eapply emits_weaken; [|apply destroy_carla_actor_family]. simpl. tauto.
  - eapply emits_weaken; [|apply update_carla_actor_family]. simpl. tauto.
  - eapply emits_weaken; [|apply update_sumo_traffic_lights_family].
    simpl. tauto.
Qed.

Lemma tick_family :
  ensures (tick args)
    (emits (λ ev,
       family_of ev = SumoStep ∨ family_of ev = CarlaStep ∨
       family_of ev = Vehicle ∨
       (tls_manager args = "sumo" ∧ family_of ev = LightsToCarla) ∨
       (tls_manager args = "carla" ∧ family_of ev = LightsToSumo))).
Proof.
  unfold tick. ens.
  - eapply emits_weaken; [|apply sumo_pass_family]. simpl. tauto.
  - eapply emits_weaken; [|apply carla_pass_family]. simpl. tauto.
Qed.

(** ** Traffic lights *)

Lemma push_lights_to_carla l st st' evs :
  for_each l update_carla_traffic_light st = (Ok tt, st', evs) →
  lights_pushed_to_carla l evs.
Proof.
  revert st evs. induction l as [|x l IH]; intros st evs; simpl.
  - intros [= _ <-]. constructor.
  - intros ([] & st1 & ev1 & ev2 & E1 & E2 & ->)%bind_ok_inv.
    apply IH in E2. revert E1. unfold update_carla_traffic_light.
    run_body; intros ?; simplify_eq/=. by constructor.
Qed.

Lemma push_lights_to_sumo l st st' evs :
  for_each l update_sumo_traffic_light st = (Ok tt, st', evs) →
  lights_pushed_to_sumo l evs.
Proof.
  revert st evs. induction l as [|x l IH]; intros st evs; simpl.
  - intros [= _ <-]. constructor.
  - intros ([] & st1 & ev1 & ev2 & E1 & E2 & ->)%bind_ok_inv.
    apply IH in E2. revert E1. unfold update_sumo_traffic_light.
    run_body; intros ?; simplify_eq/=. by constructor.
Qed.

(** C3.  Traffic-light authority.  Calls that read SUMO's lights and write
    CARLA's are made by the SUMO half-pass only, and only when [tls_manager]
    is ['sumo']; calls in the other direction by the CARLA half-pass only,
    and only when it is ['carla'].  When the step of the matching half-pass
    returns, the landmarks it has walked, each once, are exactly the ids that
    are both in [sumo.traffic_light_ids] and in [carla.traffic_light_ids] when
    the step begins, and for each of them it has read the authority's state,
    translated it and pushed the translation to the other world.  With any
    other [tls_manager], ['none'] in particular, the steps do nothing and
    the tick makes no traffic-light call in either direction. *)
Theorem traffic_light_authority st r st' evs :
  (sumo_pass args st = (r, st', evs) →
     Forall (λ ev, family_of ev ≠ LightsToSumo ∧
                   (tls_manager args ≠ "sumo" → family_of ev ≠ LightsToCarla))
       evs) ∧
  (carla_pass args st = (r, st', evs) →
     Forall (λ ev, family_of ev ≠ LightsToCarla ∧
                   (tls_manager args ≠ "carla" → family_of ev ≠ LightsToSumo))
       evs) ∧
  (tls_manager args = "sumo" →
   update_carla_traffic_lights args st = (Ok tt, st', evs) →
     ∃ landmarks,
       NoDup landmarks ∧
       (∀ l, l ∈ landmarks ↔
             l ∈ sumo_traffic_light_ids (world st) ∧
             l ∈ carla_traffic_light_ids (world st)) ∧
       lights_pushed_to_carla landmarks evs) ∧
  (tls_manager args = "carla" →
   update_sumo_traffic_lights args st = (Ok tt, st', evs) →
     ∃ landmarks,
       NoDup landmarks ∧
       (∀ l, l ∈ landmarks ↔
             l ∈ sumo_traffic_light_ids (world st) ∧
             l ∈ carla_traffic_light_ids (world st)) ∧
       lights_pushed_to_sumo landmarks evs) ∧
  (tls_manager args ≠ "sumo" →
     update_carla_traffic_lights args st = (Ok tt, st, [])) ∧
  (tls_manager args ≠ "carla" →
     update_sumo_traffic_lights args st = (Ok tt, st, [])) ∧
  (tls_manager args = "none" →
   tick args st = (r, st', evs) →
     Forall (λ ev, family_of ev ≠ LightsToCarla ∧ family_of ev ≠ LightsToSumo)
       evs).
Proof.
  split; [|split; [|split; [|split; [|split; [|split]]]]].
  - intros E. apply sumo_pass_family in E. eapply Forall_impl; [exact E|].
    simpl. intros ev [->|[->|[? ->]]]; split; done.
  - intros E. apply carla_pass_family in E. eapply Forall_impl; [exact E|].
    simpl. intros ev [->|[->|[? ->]]]; split; done.
  - intros Htls. unfold update_carla_traffic_lights. case_decide; [|done].
    unfold_monad. simpl.
    destruct (for_each _ _ st) as [[r1 st1] ev1] eqn:E. intros [= -> <- <-].
    exists (elements (common_landmarks st)).
    split; [apply NoDup_elements|]. split; [|by eapply push_lights_to_carla].
    intros l. rewrite elem_of_elements. unfold common_landmarks.
    apply elem_of_intersection.
  - intros Htls. unfold update_sumo_traffic_lights. case_decide; [|done].
    unfold_monad. simpl.
    destruct (for_each _ _ st) as [[r1 st1] ev1] eqn:E. intros [= -> <- <-].
    exists (elements (common_landmarks st)).
    split; [apply NoDup_elements|]. split; [|by eapply push_lights_to_sumo].
    intros l. rewrite elem_of_elements. unfold common_landmarks.
    apply elem_of_intersection.
  - apply update_carla_traffic_lights_off.
  - apply update_sumo_traffic_lights_off.
  - intros Hnone E. apply tick_family in E. eapply Forall_impl; [exact E|].
    simpl. rewrite Hnone.
    intros ev [->|[->|[->|[[? _]|[? _]]]]]; done.
Qed.

(** ** The update loops *)

Lemma update_sumo_loop pairs st st' evs :
  (∀ k v, (k, v) ∈ pairs → sumo2carla_ids st !! k = Some v) →
  for_each pairs.*1 (update_sumo_actor args) st = (Ok tt, st', evs) →
  vehicles_pushed_to_carla (sync_vehicle_lights args) pairs evs.
Proof.
  revert st evs. induction pairs as [|[k v] pairs IH]; intros st evs Hps; simpl.
  - intros [= _ <-]. constructor.
  - intros ([] & st1 & ev1 & ev2 & E1 & E2 & ->)%bind_ok_inv.
    pose proof (update_sumo_actor_keeps _ _ _ _ _ E1) as [Hk _].
    unfold keeps in Hk. apply IH in E2.
    2:{ intros k' v' Hin. rewrite Hk. apply Hps. by right. }
    revert E1. unfold update_sumo_actor. unfold_monad. simpl.
    rewrite (Hps k v) by by left. simpl.
    repeat run_step; intros ?; simplify_eq/=;
      first [by apply to_carla_lit|by apply to_carla_plain].
Qed.

Lemma update_carla_loop pairs st st' evs :
  (∀ k v, (k, v) ∈ pairs → carla2sumo_ids st !! k = Some v) →
  for_each pairs.*1 (update_carla_actor args) st = (Ok tt, st', evs) →
  vehicles_pushed_to_sumo actor_extent (sync_vehicle_lights args) pairs evs.
Proof.
  revert st evs. induction pairs as [|[k v] pairs IH]; intros st evs Hps; simpl.
  - intros [= _ <-]. constructor.
  - intros ([] & st1 & ev1 & ev2 & E1 & E2 & ->)%bind_ok_inv.
    pose proof (update_carla_actor_keeps _ _ _ _ _ E1) as [_ Hk].
    unfold keeps in Hk. apply IH in E2.
    2:{ intros k' v' Hin. rewrite Hk. apply Hps. by right. }
    revert E1. unfold update_carla_actor. unfold_monad. simpl.
    rewrite (Hps k v) by by left. simpl.
    repeat run_step; intros ?; simplify_eq/=;
      first [by apply to_sumo_lit|by apply to_sumo_dark|by apply to_sumo_plain].
Qed.

Lemma update_sumo_actors_ok st st' evs :
  update_sumo_actors args st = (Ok tt, st', evs) →
  vehicles_pushed_to_carla (sync_vehicle_lights args)
    (map_to_list (sumo2carla_ids st)) evs.
Proof.
  unfold update_sumo_actors, dict_keys. unfold_monad. simpl.
  destruct (for_each _ _ st) as [[r1 st1] ev1] eqn:E. intros [= -> <- <-].
  eapply update_sumo_loop; [|exact E].
  intros k v. apply elem_of_map_to_list.
Qed.

Lemma update_carla_actors_ok st st' evs :
  update_carla_actors args st = (Ok tt, st', evs) →
  vehicles_pushed_to_sumo actor_extent (sync_vehicle_lights args)
    (map_to_list (carla2sumo_ids st)) evs.
Proof.
  unfold update_carla_actors, dict_keys. unfold_monad. simpl.
  destruct (for_each _ _ st) as [[r1 st1] ev1] eqn:E. intros [= -> <- <-].
  eapply update_carla_loop; [|exact E].
  intros k v. apply elem_of_map_to_list.
Qed.

(** One push per pair, to the pair's mirror, and without lights when the
    flag is unset. *)
Lemma pushes_to_carla lights_on pairs (evs : list (event Obj)) :
  vehicles_pushed_to_carla lights_on pairs evs →
  (omap pushed_to_carla evs).*1 = pairs.*2 ∧
  (lights_on = false → Forall (λ p, p.2 = None) (omap pushed_to_carla evs)).
Proof.
  induction 1 as [|k v pairs a ca tf evs Hoff _ [IH1 IH2]
                  |k v pairs a actor tf cur lights evs Hon _ [IH1 IH2]]; csimpl.
  - by split.
  - rewrite IH1. split; [done|]. intros Hf. constructor; auto.
  - rewrite IH1. split; [done|]. congruence.
Qed.

Lemma pushes_to_sumo ext lights_on pairs (evs : list (event Obj)) :
  vehicles_pushed_to_sumo ext lights_on pairs evs →
  (omap pushed_to_sumo evs).*1 = pairs.*2 ∧
  (lights_on = false → Forall (λ p, p.2 = None) (omap pushed_to_sumo evs)).
Proof.
  induction 1 as [|k v pairs actor a tf tf' evs Hoff _ [IH1 IH2]
                  |k v pairs actor a tf tf' cl lights evs Hon _ [IH1 IH2]
                  |k v pairs actor a tf tf' evs Hon _ [IH1 IH2]]; csimpl.
  - by split.
  - rewrite IH1. split; [done|]. intros Hf. constructor; auto.
  - rewrite IH1. split; [done|]. congruence.
  - rewrite IH1. split; [done|]. congruence.
Qed.

(** C4.  Unconditional per-tick state overwrite.  When what follows the spawn
    loop of a half-pass returns, the update loop has run on the table as the
    destroy loop left it, pairs recorded by the spawn loop included: for each
    of its pairs, in turn, the driver's actor was read, its pose and extent
    translated and pushed to the mirror, with no comparison against an
    earlier state.  There is one push per pair, to the pair's mirror, and the
    lights pushed are [None] when [sync_vehicle_lights] is unset. *)
Theorem unconditional_state_overwrite st st' evs :
  (sumo_pass_after_spawn args st = (Ok tt, st', evs) →
   ∃ st1 ev1 ev2 ev3,
     destroy_sumo_actors st = (Ok tt, st1, ev1) ∧
     evs = ev1 ++ ev2 ++ ev3 ∧
     Forall (λ ev, pushed_to_carla ev = None) (ev1 ++ ev3) ∧
     vehicles_pushed_to_carla (sync_vehicle_lights args)
       (map_to_list (sumo2carla_ids st1)) ev2 ∧
     (omap pushed_to_carla ev2).*1 = dict_values (sumo2carla_ids st1) ∧
     (sync_vehicle_lights args = false →
        Forall (λ p, p.2 = None) (omap pushed_to_carla ev2))) ∧
  (carla_pass_after_spawn args st = (Ok tt, st', evs) →
   ∃ st1 ev1 ev2 ev3,
     destroy_carla_actors st = (Ok tt, st1, ev1) ∧
     evs = ev1 ++ ev2 ++ ev3 ∧
     Forall (λ ev, pushed_to_sumo ev = None) (ev1 ++ ev3) ∧
     vehicles_pushed_to_sumo actor_extent (sync_vehicle_lights args)
       (map_to_list (carla2sumo_ids st1)) ev2 ∧
     (omap pushed_to_sumo ev2).*1 = dict_values (carla2sumo_ids st1) ∧
     (sync_vehicle_lights args = false →
        Forall (λ p, p.2 = None) (omap pushed_to_sumo ev2))).
Proof.
  split.
  - unfold sumo_pass_after_spawn, mbind, M_bind.
    intros ([] & st1 & ev1 & ? & E1 & E & ->)%bind_ok_inv.
    apply bind_ok_inv in E as ([] & st2 & ev2 & ev3 & E2 & E3 & ->).
    exists st1, ev1, ev2, ev3. split; [done|split; [done|]].
    pose proof (update_sumo_actors_ok _ _ _ E2) as Hpush.
    destruct (pushes_to_carla _ _ _ Hpush) as [Hone Hnone].
    split; [|done]. apply Forall_app. split.
    + pose proof (destroy_sumo_actors_only _ _ _ _ E1) as Hd.
      eapply Forall_impl; [exact Hd|]. intros [R c r] [b Hb].
      by destruct c.
    + apply update_carla_traffic_lights_family in E3.
      eapply Forall_impl; [exact E3|]. intros [R c r] [_ Hf]. by destruct c.
  - unfold carla_pass_after_spawn, mbind, M_bind.
    intros ([] & st1 & ev1 & ? & E1 & E & ->)%bind_ok_inv.
    apply bind_ok_inv in E as ([] & st2 & ev2 & ev3 & E2 & E3 & ->).
    exists st1, ev1, ev2, ev3. split; [done|split; [done|]].
    pose proof (update_carla_actors_ok _ _ _ E2) as Hpush.
    destruct (pushes_to_sumo _ _ _ _ Hpush) as [Hone Hnone].
    split; [|done]. apply Forall_app. split.
    + pose proof (destroy_carla_actors_only _ _ _ _ E1) as Hd.
      eapply Forall_impl; [exact Hd|]. intros [R c r] [b Hb].
      by destruct c.
    + apply update_sumo_traffic_lights_family in E3.
      eapply Forall_impl; [exact E3|]. intros [R c r] [_ Hf]. by destruct c.
Qed.

(** ** Failed spawns and rejected descriptors *)

Lemma for_each_cons_ok {A} (x : A) l (body : A → M unit) st st1 ev1 :
  body x st = (Ok tt, st1, ev1) →
  for_each (x :: l) body st
  = (let '(r, st2, ev2) := for_each l body st1 in (r, st2, ev1 ++ ev2)).
Proof. intros E. simpl. by rewrite (bind_ok _ _ _ _ _ _ E). Qed.




(** ** Exceptions *)

Lemma stops_at_failure_ok {A} (a : A) (evs : list (event Obj)) :
  stops_at_failure (Ok a) evs → clean evs.
Proof. intros [?|(? & ? & ? & _ & _ & _ & ?)]; done. Qed.

Lemma stops_at_failure_app {A B} (a : A) (r : result B) (ev1 ev2 : list (event Obj)) :
  stops_at_failure (Ok a) ev1 → stops_at_failure r ev2 →
  stops_at_failure r (ev1 ++ ev2).
Proof.
  intros H1%stops_at_failure_ok [H2|(evs0 & ev & e & -> & Hc & He & ->)].
  - left. by apply Forall_app.
  - right. exists (ev1 ++ evs0), ev, e. rewrite app_assoc.
    repeat split; try done. by apply Forall_app.
Qed.

Lemma stops_at_failure_retype {A B} e (evs : list (event Obj)) :
  stops_at_failure (Raise (A:=A) e) evs → stops_at_failure (Raise (A:=B) e) evs.
Proof.
  intros [?|(evs0 & ev & e' & ? & ? & ? & [= <-])]; [by left|].
  right. by exists evs0, ev, e.
Qed.

(** A call that raised is the last one, and its exception is the outcome. *)
Lemma stops_at_failure_raised {A} (r : result A) (evs : list (event Obj)) ev e :
  stops_at_failure r evs → ev ∈ evs → raised ev = Some e →
  r = Raise e ∧ last evs = Some ev.
Proof.
  intros [Hc|(evs0 & ev' & e' & -> & Hc & He & ->)] Hin Hr.
  - unfold clean in Hc. rewrite Forall_forall in Hc.
    apply Hc in Hin. congruence.
  - apply elem_of_app in Hin as [Hin|Hin%list_elem_of_singleton].
    + unfold clean in Hc. rewrite Forall_forall in Hc.
      apply Hc in Hin. congruence.
    + subst ev'. rewrite last_snoc. split; congruence.
Qed.

Lemma propagates_ret {A} (a : A) : propagates (ret (W:=W) (Obj:=Obj) a).
Proof. intros ???? [= _ _ <-]. left. constructor. Qed.

Lemma propagates_raise {A} e : propagates (raise (W:=W) (Obj:=Obj) (A:=A) e).
Proof. intros ???? [= _ _ <-]. left. constructor. Qed.

Lemma propagates_gets {A} (f : Sync → A) : propagates (gets f).
Proof. intros ???? [= _ _ <-]. left. constructor. Qed.

Lemma propagates_modify (f : Sync → Sync) : propagates (modify f).
Proof. intros ???? [= _ _ <-]. left. constructor. Qed.

Lemma propagates_do {R} (c : call Obj R) : propagates (do c).
Proof.
  intros st r st' evs. unfold do.
  destruct (handle R c (world st)) as [[a|e] w]; intros [= <- _ <-].
  - left. by repeat constructor.
  - right. exists [], (Ev c (Raise e)), e. repeat split. constructor.
Qed.

Lemma propagates_bind {A B} (m : M A) (f : A → M B) :
  propagates m → (∀ a, propagates (f a)) → propagates (bind m f).
Proof.
  intros Hm Hf st r st' evs
    [(e & -> & E)|(a & st1 & ev1 & ev2 & E1 & E2 & ->)]%bind_inv.
  - apply Hm in E. destruct E as [?|(evs0 & ev & e' & ? & ? & ? & [= <-])].
    + by left.
    + right. by exists evs0, ev, e.
  - eapply stops_at_failure_app; [by eapply Hm|by eapply Hf].
Qed.

Lemma propagates_for_each {A} (l : list A) (body : A → M unit) :
  (∀ x, propagates (body x)) → propagates (for_each l body).
Proof.
  intros Hbody. induction l as [|x l IH]; simpl.
  - apply propagates_ret.
  - apply propagates_bind; [apply Hbody|]. intros _. apply IH.
Qed.

Ltac prop :=
  repeat (unfold mbind, M_bind, subscript, deref;
    lazymatch goal with
    | |- propagates (bind _ _) => apply propagates_bind; [|intros ?]
    | |- propagates (for_each _ _) => apply propagates_for_each; intros ?
    | |- propagates (ret _) => apply propagates_ret
    | |- propagates (raise _) => apply propagates_raise
    | |- propagates (gets _) => apply propagates_gets
    | |- propagates (modify _) => apply propagates_modify
    | |- propagates (do _) => apply propagates_do
    | |- propagates (match ?o with Some _ => _ | None => _ end) => destruct o
    | |- propagates (if ?b then _ else _) => destruct b
    end).

Lemma tick_propagates : propagates (tick args).
Proof.
  unfold tick, sumo_pass, carla_pass, sumo_pass_after_spawn,
    carla_pass_after_spawn, spawn_sumo_actors, destroy_sumo_actors,
    update_sumo_actors, update_carla_traffic_lights, spawn_carla_actors,
    destroy_carla_actors, update_carla_actors, update_sumo_traffic_lights,
    spawn_sumo_actor, destroy_sumo_actor, update_sumo_actor,
    update_carla_traffic_light, spawn_carla_actor, destroy_carla_actor,
    update_carla_actor, update_sumo_traffic_light.
  prop.
Qed.

(** ** The loop *)

Lemma front_view_image_quiet st :
  try_except (bind getFrontViewImage (λ _, ret tt)) NameError (ret tt) st
  = (Ok tt, st, []).
Proof.
  unfold try_except, bind, getFrontViewImage, ret, raise.
  by destruct (image_buffer (world st)).
Qed.

Lemma loop_body_propagates cnt : propagates (loop_body args ego_id cnt).
Proof.
  unfold loop_body, getEgo, moveSpectator, setFrontViewCamera, pace.
  cbv zeta. prop.
  - apply tick_propagates.
  - intros st r st' evs. rewrite front_view_image_quiet.
    intros [= _ _ <-]. left. constructor.
Qed.

Lemma while_loop_stops fuel cnt st r st' evs :
  while_loop args ego_id fuel cnt st = Some (r, st', evs) →
  stops_at_failure r evs.
Proof.
  revert cnt st r st' evs. induction fuel as [|fuel IH];
    intros cnt st r st' evs; simpl; [done|].
  destruct (do TraciGetMinExpectedNumber st) as [[[n|e] st1] ev1] eqn:E1.
  - apply propagates_do in E1. case_decide.
    + intros [= <- _ <-]. left. by apply stops_at_failure_ok in E1.
    + destruct (loop_body args ego_id cnt st1) as [[[[]|e] st2] ev2] eqn:E2.
      * apply loop_body_propagates in E2.
        destruct (while_loop _ _ fuel _ st2) as [[[r3 st3] ev3]|] eqn:E3;
          [|done].
        intros [= <- _ <-]. apply IH in E3.
        eapply stops_at_failure_app; [exact E1|].
        eapply stops_at_failure_app; [exact E2|exact E3].
      * apply loop_body_propagates in E2. intros [= <- _ <-].
        eapply stops_at_failure_app; [exact E1|exact E2].
  - apply propagates_do in E1. intros [= <- _ <-].
    by eapply stops_at_failure_retype.
Qed.

(** The [except] and [finally] clauses, case by case. *)
Lemma leave_loop_unfold r0 st0 ev0 st :
  leave_loop (r0, st0, ev0) st =
    match r0 with
    | Raise KeyboardInterrupt =>
        match do (LoggingInfo "Cancelled by user.") st0 with
        | (r1, st1, ev1) =>
            match bind (do (LoggingInfo "Cleaning synchronization"))
                    (λ _, close) st1 with
            | (Ok _, st2, ev2) => (r1, st2, (ev0 ++ ev1) ++ ev2)
            | (Raise e, st2, ev2) => (Raise e, st2, (ev0 ++ ev1) ++ ev2)
            end
        end
    | _ =>
        match bind (do (LoggingInfo "Cleaning synchronization"))
                (λ _, close) st0 with
        | (Ok _, st2, ev2) => (r0, st2, ev0 ++ ev2)
        | (Raise e, st2, ev2) => (Raise e, st2, ev0 ++ ev2)
        end
    end.
Proof.
  unfold leave_loop, try_finally, try_except, mbind, M_bind.
  destruct r0 as [[]|e]; [done|].
  case_decide as He; [subst e|by destruct e].
  by destruct (do _ st0) as [[??]?].
Qed.

(** C6, as the code has it.  No exception of a call is caught inside the
    tick, nor inside the [while] loop: a call that raises, while one entity
    is processed or elsewhere, is the last call made, and its exception is
    the outcome of the tick and of the loop.  The [except] clause lets every
    exception but [KeyboardInterrupt] through. *)
Theorem failure_aborts_tick_and_loop ev e :
  (∀ st r st' evs,
     tick args st = (r, st', evs) → ev ∈ evs → raised ev = Some e →
     r = Raise e ∧ last evs = Some ev) ∧
  (∀ fuel cnt st r st' evs,
     while_loop args ego_id fuel cnt st = Some (r, st', evs) →
     ev ∈ evs → raised ev = Some e →
     r = Raise e ∧ last evs = Some ev) ∧
  (∀ st0 ev0 st r st' evs,
     e ≠ KeyboardInterrupt →
     leave_loop (Raise e, st0, ev0) st = (r, st', evs) →
     ∃ e', r = Raise e').
Proof.
  split; [|split].
  - intros st r st' evs E. apply tick_propagates in E.
    by apply stops_at_failure_raised.
  - intros fuel cnt st r st' evs E. apply while_loop_stops in E.
    by apply stops_at_failure_raised.
  - intros st0 ev0 st r st' evs Hne. rewrite leave_loop_unfold.
    destruct e; try done;
      destruct (bind _ _ st0) as [[[[]|e'] st2] ev2];
      intros [= <- _ _]; eauto.
Qed.

(** ** Teardown *)

Lemma modify_emits (f : Sync → Sync) (P : event Obj → Prop) :
  ensures (modify f) (emits P).
Proof. intros ???? [= _ _ <-]. constructor. Qed.

Ltac ens_emits :=
  repeat (unfold mbind, M_bind, subscript, deref;
    lazymatch goal with
    | |- ensures (bind _ _) _ => apply ensures_bind; [apply _| |intros ?]
    | |- ensures (for_each _ _) _ => apply ensures_for_each; [apply _|intros ? _]
    | |- ensures (ret _) _ => apply ensures_ret; apply _
    | |- ensures (raise _) _ => apply ensures_raise; apply _
    | |- ensures (gets _) _ => apply ensures_gets; apply _
    | |- ensures (modify _) (emits _) => apply modify_emits
    | |- ensures (do _) (emits _) => apply do_emits; intros ?; by simpl
    | |- ensures (match ?o with Some _ => _ | None => _ end) _ => destruct o
    | |- ensures (if ?b then _ else _) _ => destruct b
    end).

(** The loop neither touches the world settings, nor closes an adapter, nor
    logs. *)
Lemma loop_body_family cnt :
  ensures (loop_body args ego_id cnt)
    (emits (λ ev, family_of ev ≠ Settings ∧ family_of ev ≠ Logging)).
Proof.
  unfold loop_body, getEgo, moveSpectator, setFrontViewCamera, pace.
  cbv zeta. ens_emits.
  - eapply emits_weaken; [|apply tick_family]. simpl.
    intros ev [->|[->|[->|[[_ ->]|[_ ->]]]]]; done.
  - intros st r st' evs. rewrite front_view_image_quiet.
    intros [= _ _ <-]. constructor.
Qed.

Lemma while_loop_family fuel cnt st r st' evs :
  while_loop args ego_id fuel cnt st = Some (r, st', evs) →
  Forall (λ ev, family_of ev ≠ Settings ∧ family_of ev ≠ Logging) evs.
Proof.
  revert cnt st r st' evs. induction fuel as [|fuel IH];
    intros cnt st r st' evs; simpl; [done|].
  destruct (do TraciGetMinExpectedNumber st) as [[r1 st1] ev1] eqn:E1.
  eapply (do_emits _ (λ ev, family_of ev ≠ Settings ∧ family_of ev ≠ Logging))
    in E1; [|done].
  destruct r1 as [n|e]; [|by intros [= _ _ <-]].
  case_decide; [by intros [= _ _ <-]|].
  destruct (loop_body args ego_id cnt st1) as [[r2 st2] ev2] eqn:E2.
  apply loop_body_family in E2. destruct r2 as [[]|e].
  - destruct (while_loop _ _ fuel _ st2) as [[[r3 st3] ev3]|] eqn:E3; [|done].
    intros [= _ _ <-]. apply IH in E3. rewrite !Forall_app. done.
  - intros [= _ _ <-]. rewrite Forall_app. done.
Qed.

Lemma destroy_all_in_carla l st st' evs :
  for_each l (λ i, do (CarlaDestroyActor i)) st = (Ok tt, st', evs) →
  evs = (λ i, Ev (CarlaDestroyActor i) (Ok tt)) <$> l ∧
  sumo2carla_ids st' = sumo2carla_ids st ∧
  carla2sumo_ids st' = carla2sumo_ids st.
Proof.
  revert st evs. induction l as [|x l IH]; intros st evs; simpl.
  - by intros [= <- <-].
  - intros ([] & st1 & ev1 & ev2 & E1 & E2 & ->)%bind_ok_inv.
    apply IH in E2 as (-> & -> & ->). revert E1. unfold do.
    destruct (handle _ _ _) as [[[]|?] ?]; intros ?; by simplify_eq/=.
Qed.

Lemma destroy_all_in_sumo l st st' evs :
  for_each l (λ i, do (SumoDestroyActor i)) st = (Ok tt, st', evs) →
  evs = (λ i, Ev (SumoDestroyActor i) (Ok tt)) <$> l ∧
  sumo2carla_ids st' = sumo2carla_ids st ∧
  carla2sumo_ids st' = carla2sumo_ids st.
Proof.
  revert st evs. induction l as [|x l IH]; intros st evs; simpl.
  - by intros [= <- <-].
  - intros ([] & st1 & ev1 & ev2 & E1 & E2 & ->)%bind_ok_inv.
    apply IH in E2 as (-> & -> & ->). revert E1. unfold do.
    destruct (handle _ _ _) as [[[]|?] ?]; intros ?; by simplify_eq/=.
Qed.

Lemma close_ok st st' evs :
  close st = (Ok tt, st', evs) →
  ∃ settings,
    evs =
      [Ev WorldGetSettings (Ok settings);
       Ev (WorldApplySettings
             {| synchronous_mode := false; fixed_delta_seconds := None;
                other_settings := other_settings settings |}) (Ok tt)]
      ++ ((λ i, Ev (CarlaDestroyActor i) (Ok tt))
            <$> dict_values (sumo2carla_ids st))
      ++ ((λ i, Ev (SumoDestroyActor i) (Ok tt))
            <$> dict_values (carla2sumo_ids st))
      ++ [Ev CarlaClose (Ok tt); Ev SumoClose (Ok tt)].
Proof.
  unfold close, mbind, M_bind.
  intros (settings & st1 & ev1 & ? & E1 & E & ->)%bind_ok_inv.
  apply bind_ok_inv in E as ([] & st2 & ev2 & ? & E2 & E & ->).
  apply bind_ok_inv in E as (ids1 & st3 & ev3 & ? & E3 & E & ->).
  apply bind_ok_inv in E as ([] & st4 & ev4 & ? & E4 & E & ->).
  apply bind_ok_inv in E as (ids2 & st5 & ev5 & ? & E5 & E & ->).
  apply bind_ok_inv in E as ([] & st6 & ev6 & ? & E6 & E & ->).
  apply bind_ok_inv in E as ([] & st7 & ev7 & ev8 & E7 & E8 & ->).
  injection E3 as <- <- <-. injection E5 as <- <- <-.
  apply destroy_all_in_carla in E4 as (-> & _ & Hc).
  apply destroy_all_in_sumo in E6 as (-> & _ & _).
  pose proof (do_keeps_sumo2carla _ _ _ _ _ E1) as H1.
  pose proof (do_keeps_sumo2carla _ _ _ _ _ E2) as H2.
  pose proof (do_keeps_carla2sumo _ _ _ _ _ E1) as H3.
  pose proof (do_keeps_carla2sumo _ _ _ _ _ E2) as H4.
  unfold keeps in *. rewrite Hc, H2, H1, H4, H3.
  revert E1 E2 E7 E8. unfold do.
  repeat (destruct (handle _ _ _) as [[?|?] ?]); intros; simplify_eq/=.
  by eexists.
Qed.

Lemma returns_bind {A B} (m : M A) (f : A → M B) :
  (∀ st, ∃ a st' evs, m st = (Ok a, st', evs)) →
  (∀ a st, ∃ b st' evs, f a st = (Ok b, st', evs)) →
  ∀ st, ∃ b st' evs, bind m f st = (Ok b, st', evs).
Proof.
  intros Hm Hf st. destruct (Hm st) as (a & st1 & ev1 & E1).
  rewrite (bind_ok _ _ _ _ _ _ E1).
  destruct (Hf a st1) as (b & st2 & ev2 & ->). by eexists _, _, _.
Qed.

Lemma returns_do {R} (c : call Obj R) :
  close_calls_return → is_close_call c = true →
  ∀ st, ∃ a st' evs, do c st = (Ok a, st', evs).
Proof.
  intros Hnr Hc st. destruct (Hnr R c (world st) Hc) as (a & w & E).
  unfold do. rewrite E. by eexists _, _, _.
Qed.

Lemma returns_for_each {A} (l : list A) (body : A → M unit) :
  (∀ x st, ∃ u st' evs, body x st = (Ok u, st', evs)) →
  ∀ st, ∃ u st' evs, for_each l body st = (Ok u, st', evs).
Proof.
  intros Hbody. induction l as [|x l IH]; simpl.
  - intros st. by eexists _, _, _.
  - apply returns_bind; [apply Hbody|]. intros _. apply IH.
Qed.

Lemma close_returns st :
  close_calls_return → ∃ st' evs, close st = (Ok tt, st', evs).
Proof.
  intros Hnr.
  assert (∃ u st' evs, close st = (Ok u, st', evs)) as ([] & st' & evs & E).
  { revert st. unfold close, mbind, M_bind.
    repeat first
      [ apply returns_bind; [|intros ?]
      | apply returns_for_each; intros ?
      | by apply returns_do
      | intros ?; by eexists _, _, _ ]. }
  by eexists _, _.
Qed.

Lemma log_then_close msg st :
  logging_returns →
  ∃ w,
    bind (do (LoggingInfo msg)) (λ _, close) st
    = (let '(r, st', evs) := close (set_world w st) in
       (r, st', Ev (LoggingInfo msg) (Ok tt) :: evs)).
Proof.
  intros Hlog. destruct (Hlog msg (world st)) as (w & E). exists w.
  unfold bind, do. rewrite E. by destruct (close _) as [[??]?].
Qed.

(** C7.  Shutdown teardown.  Whatever the outcome of the [while] loop, and
    provided [logging.info] itself does not raise, the events of the run end
    with those of one run of [close], started on the tables the loop left and
    preceded by logging only; the loop itself never reads or applies world
    settings and never closes an adapter.  A [close] that returns has put the
    CARLA world in asynchronous mode with no fixed step, then destroyed every
    value of [sumo2carla_ids] in CARLA and every value of [carla2sumo_ids] in
    SUMO, then closed the CARLA and the SUMO adapter; and [close] does return
    when none of its calls raises. *)
Theorem teardown_on_exit :
  (∀ fuel cnt st1 r0 st0 ev0 r st' evs,
     logging_returns →
     while_loop args ego_id fuel cnt st1 = Some (r0, st0, ev0) →
     leave_loop (r0, st0, ev0) st1 = (r, st', evs) →
     Forall (λ ev, family_of ev ≠ Settings ∧ family_of ev ≠ Logging) ev0 ∧
     ∃ ev_log st_c r_c ev_c,
       evs = ev0 ++ ev_log ++ ev_c ∧
       Forall (λ ev, family_of ev = Logging) ev_log ∧
       sumo2carla_ids st_c = sumo2carla_ids st0 ∧
       carla2sumo_ids st_c = carla2sumo_ids st0 ∧
       close st_c = (r_c, st', ev_c)) ∧
  (∀ st st' evs,
     close st = (Ok tt, st', evs) →
     ∃ settings,
       evs =
         [Ev WorldGetSettings (Ok settings);
          Ev (WorldApplySettings
                {| synchronous_mode := false; fixed_delta_seconds := None;
                   other_settings := other_settings settings |}) (Ok tt)]
         ++ ((λ i, Ev (CarlaDestroyActor i) (Ok tt))
               <$> dict_values (sumo2carla_ids st))
         ++ ((λ i, Ev (SumoDestroyActor i) (Ok tt))
               <$> dict_values (carla2sumo_ids st))
         ++ [Ev CarlaClose (Ok tt); Ev SumoClose (Ok tt)]) ∧
  (∀ st, close_calls_return → ∃ st' evs, close st = (Ok tt, st', evs)).
Proof.
  split; [|split].
  - intros fuel cnt st1 r0 st0 ev0 r st' evs Hlog Hloop.
    split; [by eapply while_loop_family|].
    revert H. rewrite leave_loop_unfold.
    assert (∀ st_a r_a (ev_a pre : list (event Obj)),
      pre = ev0 ++ ev_a →
      sumo2carla_ids st_a = sumo2carla_ids st0 →
      carla2sumo_ids st_a = carla2sumo_ids st0 →
      Forall (λ ev, family_of ev = Logging) ev_a →
      match bind (do (LoggingInfo "Cleaning synchronization"))
              (λ _, close) st_a with
      | (Ok _, st2, ev2) => (r_a, st2, pre ++ ev2)
      | (Raise e, st2, ev2) => (Raise e, st2, pre ++ ev2)
      end = (r, st', evs) →
      ∃ ev_log st_c r_c ev_c,
        evs = ev0 ++ ev_log ++ ev_c ∧
        Forall (λ ev, family_of ev = Logging) ev_log ∧
        sumo2carla_ids st_c = sumo2carla_ids st0 ∧
        carla2sumo_ids st_c = carla2sumo_ids st0 ∧
        close st_c = (r_c, st', ev_c)) as Hfin.
    { intros st_a r_a ev_a pre -> Hs Hc Hev.
      destruct (log_then_close "Cleaning synchronization" st_a Hlog)
        as (w & ->).
      destruct (close (set_world w st_a)) as [[r_c st2] ev_c] eqn:Ec.
      intros E.
      exists (ev_a ++ [Ev (LoggingInfo "Cleaning synchronization") (Ok tt)]),
        (set_world w st_a), r_c, ev_c.
      assert (st' = st2 ∧
              evs = (ev0 ++ ev_a)
                    ++ Ev (LoggingInfo "Cleaning synchronization") (Ok tt)
                       :: ev_c) as [-> ->]
        by (destruct r_c; by simplify_eq).
      split; [by rewrite <- !app_assoc|]. split; [|done].
      apply Forall_app. split; [done|by repeat constructor]. }
    destruct r0 as [[]|e].
    + intros E. apply (Hfin st0 (Ok tt) [] ev0); try done.
      by rewrite app_nil_r.
    + destruct e;
        try (intros E; eapply (Hfin st0 _ [] ev0);
             [by rewrite app_nil_r|done|done|done|exact E]).
      destruct (Hlog "Cancelled by user." (world st0)) as (w & Ew).
      unfold do at 1. rewrite Ew. intros E.
      eapply (Hfin (set_world w st0) _ [_]); try done.
      by repeat constructor.
  - apply close_ok.
  - apply close_returns.
Qed.

(** ** Rejected descriptors *)

Lemma spawn_sumo_actor_rejected i st r st' evs :
  spawn_sumo_actor args i st = (r, st', evs) →
  omap carla_blueprint_for evs = [Ok None] →
  sumo2carla_ids st' = sumo2carla_ids st ∧
  carla2sumo_ids st' = carla2sumo_ids st ∧
  omap spawned_in_carla evs = [] ∧
  last evs ≫= unsubscribed = Some i.
Proof.
  unfold spawn_sumo_actor. run_body; intros [= <- <- <-]; simpl;
    intros ?; by simplify_eq.
Qed.

Lemma spawn_carla_actor_rejected i st r st' evs :
  spawn_carla_actor args i st = (r, st', evs) →
  omap sumo_vtype_for evs = [Ok None] →
  sumo2carla_ids st' = sumo2carla_ids st ∧
  carla2sumo_ids st' = carla2sumo_ids st ∧
  omap spawned_in_sumo evs = [].
Proof.
  unfold spawn_carla_actor. run_body; intros [= <- <- <-]; simpl;
    intros ?; by simplify_eq.
Qed.

(** ** Spawned and destroyed in the same tick *)

Lemma for_each_split_ok {A} (l1 l2 : list A) x (body : A → M unit) st st' evs :
  for_each (l1 ++ x :: l2) body st = (Ok tt, st', evs) →
  ∃ st_a ev_a st_b ev_b ev_c,
    for_each l1 body st = (Ok tt, st_a, ev_a) ∧
    body x st_a = (Ok tt, st_b, ev_b) ∧
    for_each l2 body st_b = (Ok tt, st', ev_c) ∧
    evs = ev_a ++ ev_b ++ ev_c.
Proof.
  rewrite for_each_app.
  intros ([] & st_a & ev_a & ? & E1 & E & ->)%bind_ok_inv. simpl in E.
  apply bind_ok_inv in E as ([] & st_b & ev_b & ev_c & E2 & E3 & ->).
  by exists st_a, ev_a, st_b, ev_b, ev_c.
Qed.

Lemma spawn_sumo_actor_recorded i m st r st' evs :
  spawn_sumo_actor args i st = (r, st', evs) →
  omap spawned_in_carla evs = [Ok m] → m ≠ INVALID_ACTOR_ID →
  sumo2carla_ids st' !! i = Some m.
Proof.
  unfold spawn_sumo_actor. run_body; intros [= <- <- <-]; simpl;
    intros ??; simplify_eq; first [done|apply lookup_insert_eq].
Qed.

Lemma spawn_carla_actor_recorded i m st r st' evs :
  spawn_carla_actor args i st = (r, st', evs) →
  omap spawned_in_sumo evs = [Ok m] → m ≠ INVALID_ACTOR_ID →
  carla2sumo_ids st' !! i = Some m.
Proof.
  unfold spawn_carla_actor. run_body; intros [= <- <- <-]; simpl;
    intros ??; simplify_eq; first [done|apply lookup_insert_eq].
Qed.

Lemma spawn_sumo_loop_frame l :
  ensures (for_each l (spawn_sumo_actor args))
    (sumo2carla_only_at (list_to_set l)).
Proof.
  apply ensures_for_each; [apply _|]. intros i Hi.
  eapply ensures_weaken; [|apply spawn_sumo_actor_frame].
  intros st st' evs (_ & Hk & _) k Hnk. apply Hk. set_solver.
Qed.

Lemma spawn_carla_loop_frame l :
  ensures (for_each l (spawn_carla_actor args))
    (carla2sumo_only_at (list_to_set l)).
Proof.
  apply ensures_for_each; [apply _|]. intros i Hi.
  eapply ensures_weaken; [|apply spawn_carla_actor_frame].
  intros st st' evs (_ & Hk & _) k Hnk. apply Hk. set_solver.
Qed.



(** ** Rejected descriptors, reported again *)

(** An iteration of a spawn loop begins by addressing its id. *)
Lemma spawn_sumo_actor_begins i st r st' evs :
  spawn_sumo_actor args i st = (r, st', evs) →
  head evs ≫= sumo_spawn_source = Some i.
Proof. unfold spawn_sumo_actor. run_body; by intros [= <- <- <-]. Qed.

Lemma spawn_carla_actor_begins i st r st' evs :
  spawn_carla_actor args i st = (r, st', evs) →
  head evs ≫= carla_spawn_source = Some i.
Proof. unfold spawn_carla_actor. run_body; by intros [= <- <- <-]. Qed.

(** An iteration that returns after a translation that answered a blueprint
    has made the spawn call. *)
Lemma spawn_sumo_actor_translated i bp st st' evs :
  spawn_sumo_actor args i st = (Ok tt, st', evs) →
  omap carla_blueprint_for evs = [Ok (Some bp)] →
  ∃ m, omap spawned_in_carla evs = [Ok m].
Proof.
  unfold spawn_sumo_actor. run_body; intros ?; simplify_eq/=;
    intros ?; simplify_eq; by eexists.
Qed.

Lemma spawn_carla_actor_translated i vtype st st' evs :
  spawn_carla_actor args i st = (Ok tt, st', evs) →
  omap sumo_vtype_for evs = [Ok (Some vtype)] →
  ∃ m, omap spawned_in_sumo evs = [Ok m].
Proof.
  unfold spawn_carla_actor. run_body; intros ?; simplify_eq/=;
    intros ?; simplify_eq; by eexists.
Qed.

(** In a spawn loop that returns, the entry of an id of the set is changed
    by the iteration of that id only. *)
Lemma spawn_sumo_actors_own_iteration a st st1 ev1 :
  spawn_sumo_actors args st = (Ok tt, st1, ev1) →
  a ∈ sumo_spawned st →
  ∃ st_a ev_a st_b ev_b ev_c,
    spawn_sumo_actor args a st_a = (Ok tt, st_b, ev_b) ∧
    ev1 = ev_a ++ ev_b ++ ev_c ∧
    sumo2carla_ids st_a !! a = sumo2carla_ids st !! a ∧
    sumo2carla_ids st1 !! a = sumo2carla_ids st_b !! a.
Proof.
  unfold spawn_sumo_actors. unfold_monad. simpl.
  destruct (for_each _ _ st) as [[r' st'] ev'] eqn:E. intros [= -> <- <-] Ha.
  apply elem_of_elements, list_elem_of_split in Ha as (l1 & l2 & Hl).
  pose proof (NoDup_elements (sumo_spawned st)) as Hnd.
  rewrite Hl in E, Hnd.
  apply for_each_split_ok in E
    as (st_a & ev_a & st_b & ev_b & ev_c & E1 & E2 & E3 & ->).
  exists st_a, ev_a, st_b, ev_b, ev_c. split; [done|split; [done|]].
  apply NoDup_app in Hnd as (_ & Hl1 & Hnd). apply NoDup_cons in Hnd as [Hl2 _].
  split.
  - apply spawn_sumo_loop_frame in E1. apply E1.
    rewrite elem_of_list_to_set. intros Hin. apply (Hl1 a Hin). by left.
  - apply spawn_sumo_loop_frame in E3. apply E3.
    by rewrite elem_of_list_to_set.
Qed.

Lemma spawn_carla_actors_own_iteration a st st1 ev1 :
  spawn_carla_actors args st = (Ok tt, st1, ev1) →
  a ∈ carla_spawned st →
  ∃ st_a ev_a st_b ev_b ev_c,
    spawn_carla_actor args a st_a = (Ok tt, st_b, ev_b) ∧
    ev1 = ev_a ++ ev_b ++ ev_c ∧
    carla2sumo_ids st_a !! a = carla2sumo_ids st !! a ∧
    carla2sumo_ids st1 !! a = carla2sumo_ids st_b !! a.
Proof.
  unfold spawn_carla_actors. unfold_monad. simpl.
  destruct (for_each _ _ st) as [[r' st'] ev'] eqn:E. intros [= -> <- <-] Ha.
  apply elem_of_elements, list_elem_of_split in Ha as (l1 & l2 & Hl).
  pose proof (NoDup_elements (carla_spawned st)) as Hnd.
  rewrite Hl in E, Hnd.
  apply for_each_split_ok in E
    as (st_a & ev_a & st_b & ev_b & ev_c & E1 & E2 & E3 & ->).
  exists st_a, ev_a, st_b, ev_b, ev_c. split; [done|split; [done|]].
  apply NoDup_app in Hnd as (_ & Hl1 & Hnd). apply NoDup_cons in Hnd as [Hl2 _].
  split.
  - apply spawn_carla_loop_frame in E1. apply E1.
    rewrite elem_of_list_to_set. intros Hin. apply (Hl1 a Hin). by left.
  - apply spawn_carla_loop_frame in E3. apply E3.
    by rewrite elem_of_list_to_set.
Qed.

(** C8, as the code has it.  In the iteration of a spawn loop in which the
    translation of the descriptor answers [None], no spawn is attempted and
    neither table changes; the SUMO loop then ends the iteration by
    unsubscribing from the id.  Nothing records the rejection.  Whatever
    happened on earlier ticks, a spawn loop that returns has run the
    iteration of every id that its simulator reports as spawned and that is
    no value of the opposite table: the iteration begins by addressing the
    id and translates its descriptor afresh; if the translation answers a
    blueprint (a vtype) the spawn call is made, and if that answers a valid
    id the pair is in the table when the loop ends; if the translation
    answers [None] again the loop leaves the entry of the id as it was.  An
    id that is not reported, or that is a value of the opposite table, is
    not addressed by the loop, whatever its outcome, and keeps its entry or
    its absence. *)
Theorem rejected_descriptor_gets_no_mirror i st r st' evs :
  (spawn_sumo_actor args i st = (r, st', evs) →
   omap carla_blueprint_for evs = [Ok None] →
   sumo2carla_ids st' = sumo2carla_ids st ∧
   carla2sumo_ids st' = carla2sumo_ids st ∧
   omap spawned_in_carla evs = [] ∧
   last evs ≫= unsubscribed = Some i) ∧
  (spawn_carla_actor args i st = (r, st', evs) →
   omap sumo_vtype_for evs = [Ok None] →
   sumo2carla_ids st' = sumo2carla_ids st ∧
   carla2sumo_ids st' = carla2sumo_ids st ∧
   omap spawned_in_sumo evs = []) ∧
  (spawn_sumo_actors args st = (Ok tt, st', evs) →
   i ∈ sumo_spawned_actors (world st) → i ∉ value_set (carla2sumo_ids st) →
   ∃ st_a ev_a st_b ev_b ev_c,
     spawn_sumo_actor args i st_a = (Ok tt, st_b, ev_b) ∧
     evs = ev_a ++ ev_b ++ ev_c ∧
     head ev_b ≫= sumo_spawn_source = Some i ∧
     sumo2carla_ids st_a !! i = sumo2carla_ids st !! i ∧
     (∀ bp, omap carla_blueprint_for ev_b = [Ok (Some bp)] →
        ∃ m, omap spawned_in_carla ev_b = [Ok m] ∧
             (m ≠ INVALID_ACTOR_ID → sumo2carla_ids st' !! i = Some m)) ∧
     (omap carla_blueprint_for ev_b = [Ok None] →
        sumo2carla_ids st' !! i = sumo2carla_ids st !! i)) ∧
  (spawn_carla_actors args st = (Ok tt, st', evs) →
   i ∈ carla_spawned_actors (world st) → i ∉ value_set (sumo2carla_ids st) →
   ∃ st_a ev_a st_b ev_b ev_c,
     spawn_carla_actor args i st_a = (Ok tt, st_b, ev_b) ∧
     evs = ev_a ++ ev_b ++ ev_c ∧
     head ev_b ≫= carla_spawn_source = Some i ∧
     carla2sumo_ids st_a !! i = carla2sumo_ids st !! i ∧
     (∀ vtype, omap sumo_vtype_for ev_b = [Ok (Some vtype)] →
        ∃ m, omap spawned_in_sumo ev_b = [Ok m] ∧
             (m ≠ INVALID_ACTOR_ID → carla2sumo_ids st' !! i = Some m)) ∧
     (omap sumo_vtype_for ev_b = [Ok None] →
        carla2sumo_ids st' !! i = carla2sumo_ids st !! i)) ∧
  (spawn_sumo_actors args st = (r, st', evs) →
   i ∉ sumo_spawned_actors (world st) ∨ i ∈ value_set (carla2sumo_ids st) →
   sumo2carla_ids st' !! i = sumo2carla_ids st !! i ∧
   Forall (λ ev, sumo_spawn_source ev ≠ Some i) evs) ∧
  (spawn_carla_actors args st = (r, st', evs) →
   i ∉ carla_spawned_actors (world st) ∨ i ∈ value_set (sumo2carla_ids st) →
   carla2sumo_ids st' !! i = carla2sumo_ids st !! i ∧
   Forall (λ ev, carla_spawn_source ev ≠ Some i) evs).
Proof.
  split; [|split; [|split; [|split; [|split]]]].
  - apply spawn_sumo_actor_rejected.
  - apply spawn_carla_actor_rejected.
  - intros E Hi Hv.
    assert (i ∈ sumo_spawned st) as Hin by (unfold sumo_spawned; set_solver).
    destruct (spawn_sumo_actors_own_iteration _ _ _ _ E Hin)
      as (st_a & ev_a & st_b & ev_b & ev_c & Eb & -> & Ha & Hb).
    exists st_a, ev_a, st_b, ev_b, ev_c.
    split; [done|]. split; [done|].
    split; [by eapply spawn_sumo_actor_begins|]. split; [done|]. split.
    + intros bp Hbp.
      destruct (spawn_sumo_actor_translated _ _ _ _ _ Eb Hbp) as (m & Hm).
      exists m. split; [done|]. intros Hne. rewrite Hb.
      by eapply spawn_sumo_actor_recorded.
    + intros Hnone.
      destruct (spawn_sumo_actor_rejected _ _ _ _ _ Eb Hnone) as (Hs & _).
      by rewrite Hb, Hs.
  - intros E Hi Hv.
    assert (i ∈ carla_spawned st) as Hin by (unfold carla_spawned; set_solver).
    destruct (spawn_carla_actors_own_iteration _ _ _ _ E Hin)
      as (st_a & ev_a & st_b & ev_b & ev_c & Eb & -> & Ha & Hb).
    exists st_a, ev_a, st_b, ev_b, ev_c.
    split; [done|]. split; [done|].
    split; [by eapply spawn_carla_actor_begins|]. split; [done|]. split.
    + intros vtype Hvt.
      destruct (spawn_carla_actor_translated _ _ _ _ _ Eb Hvt) as (m & Hm).
      exists m. split; [done|]. intros Hne. rewrite Hb.
      by eapply spawn_carla_actor_recorded.
    + intros Hnone.
      destruct (spawn_carla_actor_rejected _ _ _ _ _ Eb Hnone) as (_ & Hc & _).
      by rewrite Hb, Hc.
  - intros (_ & Hk & Hev)%spawn_sumo_actors_frame Hi.
    assert (i ∉ sumo_spawned st) as Hni by (unfold sumo_spawned; set_solver).
    split; [by apply Hk|]. eapply Forall_impl; [exact Hev|].
    simpl. intros ev Hsrc Heq. by apply Hsrc in Heq.
  - intros (_ & Hk & Hev)%spawn_carla_actors_frame Hi.
    assert (i ∉ carla_spawned st) as Hni by (unfold carla_spawned; set_solver).
    split; [by apply Hk|]. eapply Forall_impl; [exact Hev|].
    simpl. intros ev Hsrc Heq. by apply Hsrc in Heq.
Qed.




(** ** Pacing *)

Lemma count_events_app p (ev1 ev2 : list (event Obj)) :
  count_events p (ev1 ++ ev2) = (count_events p ev1 + count_events p ev2)%nat.
Proof. unfold count_events. by rewrite filter_app, length_app. Qed.

Lemma count_events_none p (evs : list (event Obj)) :
  Forall (λ ev, p ev = false) evs → count_events p evs = 0%nat.
Proof.
  unfold count_events. induction 1 as [|ev evs Hev _ IH]; [done|].
  rewrite filter_cons_False; [done|congruence].
Qed.

Lemma count_events_cons p ev (evs : list (event Obj)) :
  count_events p (ev :: evs)
  = ((if p ev then 1 else 0) + count_events p evs)%nat.
Proof.
  unfold count_events. destruct (p ev) eqn:E.
  - by rewrite filter_cons_True.
  - rewrite filter_cons_False; [done|congruence].
Qed.

Lemma counts_bind {A B} p (m : M A) (f : A → M B) n1 n2 :
  counts p m n1 → (∀ a, counts p (f a) n2) → counts p (bind m f) (n1 + n2).
Proof.
  intros Hm Hf st b st' evs (a & st1 & ev1 & ev2 & E1 & E2 & ->)%bind_ok_inv.
  rewrite count_events_app. f_equal; [by eapply Hm|by eapply Hf].
Qed.

Lemma counts_zero {A} p (m : M A) :
  ensures m (emits (λ ev, p ev = false)) → counts p m 0.
Proof. intros H st a st' evs E. apply count_events_none. by eapply H. Qed.

Lemma counts_do {R} p (c : call Obj R) (b : bool) :
  (∀ r, p (Ev c r) = b) → counts p (do c) (if b then 1 else 0).
Proof.
  intros Hp st a st' evs. unfold do.
  destruct (handle R c (world st)) as [r w]. intros [= -> _ <-].
  unfold count_events. destruct b.
  - rewrite filter_cons_True; [done|apply Hp].
  - rewrite filter_cons_False; [done|]. rewrite Hp. done.
Qed.

(** The two half-passes after their world has ticked. *)
Lemma sumo_rest_family :
  ensures (bind (spawn_sumo_actors args) (λ _, sumo_pass_after_spawn args))
    (emits (λ ev, family_of ev = Vehicle ∨ family_of ev = LightsToCarla)).
Proof.
  unfold sumo_pass_after_spawn, spawn_sumo_actors, destroy_sumo_actors,
    update_sumo_actors. ens.
  - eapply emits_weaken; [|apply spawn_sumo_actor_family]. simpl. tauto.
  - eapply emits_weaken; [|apply destroy_sumo_actor_family]. simpl. tauto.
  - eapply emits_weaken; [|apply update_sumo_actor_family]. simpl. tauto.
  - eapply emits_weaken; [|apply update_carla_traffic_lights_family].
    simpl. tauto.
Qed.

Lemma carla_rest_family :
  ensures (bind (spawn_carla_actors args) (λ _, carla_pass_after_spawn args))
    (emits (λ ev, family_of ev = Vehicle ∨ family_of ev = LightsToSumo)).
Proof.
  unfold carla_pass_after_spawn, spawn_carla_actors, destroy_carla_actors,
    update_carla_actors. ens.
  - eapply emits_weaken; [|apply spawn_carla_actor_family]. simpl. tauto.
  - eapply emits_weaken; [|apply destroy_carla_actor_family]. simpl. tauto.
  - eapply emits_weaken; [|apply update_carla_actor_family]. simpl. tauto.
  - eapply emits_weaken; [|apply update_sumo_traffic_lights_family].
    simpl. tauto.
Qed.

(** A tick that returns has ticked each world once. *)
Lemma tick_counts :
  counts (in_family SumoStep) (tick args) 1 ∧
  counts (in_family CarlaStep) (tick args) 1.
Proof.
  unfold tick, sumo_pass, carla_pass, mbind, M_bind. split.
  - apply (counts_bind _ _ _ 1 0).
    + apply (counts_bind _ _ _ 1 0); [by apply (counts_do _ _ true)|].
      intros _. apply counts_zero.
      eapply emits_weaken; [|apply sumo_rest_family].
      unfold in_family. by intros ev [H|H]; simpl; rewrite H.
    + intros _. apply (counts_bind _ _ _ 0 0);
        [by apply (counts_do _ _ false)|].
      intros _. apply counts_zero.
      eapply emits_weaken; [|apply carla_rest_family].
      unfold in_family. by intros ev [H|H]; simpl; rewrite H.
  - apply (counts_bind _ _ _ 0 1).
    + apply (counts_bind _ _ _ 0 0); [by apply (counts_do _ _ false)|].
      intros _. apply counts_zero.
      eapply emits_weaken; [|apply sumo_rest_family].
      unfold in_family. by intros ev [H|H]; simpl; rewrite H.
    + intros _. apply (counts_bind _ _ _ 1 0);
        [by apply (counts_do _ _ true)|].
      intros _. apply counts_zero.
      eapply emits_weaken; [|apply carla_rest_family].
      unfold in_family. by intros ev [H|H]; simpl; rewrite H.
Qed.

(** What follows the tick in an iteration ticks no world, makes no
    simulation step and does not check the loop condition. *)
Lemma after_tick_quiet cnt start p :
  (∀ ev, p ev = true →
     family_of ev = SumoStep ∨ family_of ev = CarlaStep ∨
     is_simulation_step ev = true ∨ found_pending ev = true) →
  ensures
    (bind (getEgo ego_id) (λ vehicle,
       bind (match vehicle with
             | Some v =>
                 bind (moveSpectator v) (λ _,
                   bind (setFrontViewCamera v) (λ _,
                     if decide (cnt `mod` 10 = 0)
                     then try_except (bind getFrontViewImage (λ _, ret tt))
                            NameError (ret tt)
                     else ret tt))
             | None => ret tt
             end) (λ _,
         bind (do TimeTime) (λ finish, pace args start finish))))
    (emits (λ ev, p ev = false)).
Proof.
  intros Hp.
  assert (∀ ev, family_of ev ≠ SumoStep → family_of ev ≠ CarlaStep →
                is_simulation_step ev = false → found_pending ev = false →
                p ev = false) as Hq.
  { intros ev ????. destruct (p ev) eqn:E; [|done].
    destruct (Hp _ E) as [?|[?|[?|?]]]; congruence. }
  unfold getEgo, moveSpectator, setFrontViewCamera, pace. cbv zeta.
  repeat (unfold mbind, M_bind, subscript, deref;
    lazymatch goal with
    | |- ensures (bind _ _) _ => apply ensures_bind; [apply _| |intros ?]
    | |- ensures (ret _) _ => apply ensures_ret; apply _
    | |- ensures (raise _) _ => apply ensures_raise; apply _
    | |- ensures (gets _) _ => apply ensures_gets; apply _
    | |- ensures (modify _) (emits _) => apply modify_emits
    | |- ensures (do _) (emits _) => apply do_emits; intros ?; by apply Hq
    | |- ensures (match ?o with Some _ => _ | None => _ end) _ => destruct o
    | |- ensures (if ?b then _ else _) _ => destruct b
    end).
  intros st r st' evs. rewrite front_view_image_quiet.
  intros [= _ _ <-]. constructor.
Qed.

Lemma tick_not_driver :
  ensures (tick args) (emits (λ ev, family_of ev ≠ Driver)).
Proof.
  eapply emits_weaken; [|apply tick_family]. simpl.
  intros ev [->|[->|[->|[[_ ->]|[_ ->]]]]]; done.
Qed.

Lemma driver_call (ev : event Obj) :
  is_simulation_step ev = true ∨ found_pending ev = true →
  family_of ev = Driver.
Proof. destruct ev as [R c r]. destruct c; simpl; intros [?|?]; done. Qed.

(** An iteration that returns has made one simulation step and one tick of
    each world, and has not checked the loop condition. *)
Lemma loop_body_counts cnt :
  counts is_simulation_step (loop_body args ego_id cnt) 1 ∧
  counts (in_family SumoStep) (loop_body args ego_id cnt) 1 ∧
  counts (in_family CarlaStep) (loop_body args ego_id cnt) 1 ∧
  counts found_pending (loop_body args ego_id cnt) 0.
Proof.
  destruct tick_counts as [Hs Hc].
  unfold loop_body, mbind, M_bind. repeat split.
  - apply (counts_bind _ _ _ 0 1); [by apply (counts_do _ _ false)|].
    intros start. apply (counts_bind _ _ _ 1 0);
      [by apply (counts_do _ _ true)|].
    intros _. apply (counts_bind _ _ _ 0 0).
    + apply counts_zero. eapply emits_weaken; [|apply tick_not_driver].
      simpl. intros ev Hd. destruct (is_simulation_step ev) eqn:E; [|done].
      destruct Hd. apply driver_call. by left.
    + intros _. apply counts_zero. apply after_tick_quiet. tauto.
  - apply (counts_bind _ _ _ 0 1); [by apply (counts_do _ _ false)|].
    intros start. apply (counts_bind _ _ _ 0 1);
      [by apply (counts_do _ _ false)|].
    intros _. apply (counts_bind _ _ _ 1 0); [exact Hs|].
    intros _. apply counts_zero. apply after_tick_quiet.
    unfold in_family. intros ev ?%bool_decide_eq_true. tauto.
  - apply (counts_bind _ _ _ 0 1); [by apply (counts_do _ _ false)|].
    intros start. apply (counts_bind _ _ _ 0 1);
      [by apply (counts_do _ _ false)|].
    intros _. apply (counts_bind _ _ _ 1 0); [exact Hc|].
    intros _. apply counts_zero. apply after_tick_quiet.
    unfold in_family. intros ev ?%bool_decide_eq_true. tauto.
  - apply (counts_bind _ _ _ 0 0); [by apply (counts_do _ _ false)|].
    intros start. apply (counts_bind _ _ _ 0 0);
      [by apply (counts_do _ _ false)|].
    intros _. apply (counts_bind _ _ _ 0 0).
    + apply counts_zero. eapply emits_weaken; [|apply tick_not_driver].
      simpl. intros ev Hd. destruct (found_pending ev) eqn:E; [|done].
      destruct Hd. apply driver_call. by right.
    + intros _. apply counts_zero. apply after_tick_quiet. tauto.
Qed.

Lemma while_loop_counts fuel cnt st st' evs :
  while_loop args ego_id fuel cnt st = Some (Ok tt, st', evs) →
  count_events is_simulation_step evs = count_events found_pending evs ∧
  count_events (in_family SumoStep) evs = count_events found_pending evs ∧
  count_events (in_family CarlaStep) evs = count_events found_pending evs.
Proof.
  revert cnt st st' evs. induction fuel as [|fuel IH];
    intros cnt st st' evs; simpl; [done|].
  unfold do at 1. destruct (handle _ _ _) as [[n|e] w]; [|done].
  case_decide as Hn.
  - intros [= <- <-]. subst n. done.
  - destruct (loop_body args ego_id cnt _) as [[[[]|e] st2] ev2] eqn:E2;
      [|done].
    destruct (while_loop _ _ fuel _ st2) as [[[r3 st3] ev3]|] eqn:E3; [|done].
    intros [= -> <- <-]. apply IH in E3 as (H1 & H2 & H3).
    destruct (loop_body_counts cnt) as (B1 & B2 & B3 & B4).
    apply B1 in E2 as C1. apply B2 in E2 as C2. apply B3 in E2 as C3.
    apply B4 in E2 as C4.
    simpl. rewrite !count_events_cons, !count_events_app.
    rewrite C1, C2, C3, C4, H1, H2, H3. simpl.
    rewrite bool_decide_true by done. done.
Qed.

Lemma pace_on_time start finish st :
  (finish - start < step_length args)%Q →
  pace args start finish st
  = do (TimeSleep (step_length args - (finish - start))%Q) st.
Proof.
  intros Hlt. unfold pace. cbv zeta.
  destruct (Qlt_le_dec _ _) as [_|Hle]; [done|].
  by apply Qlt_not_le in Hlt.
Qed.

Lemma pace_late start finish st :
  (step_length args <= finish - start)%Q →
  pace args start finish st = (Ok tt, st, []).
Proof.
  intros Hle. unfold pace. cbv zeta.
  destruct (Qlt_le_dec _ _) as [Hlt|_]; [|done].
  by apply Qlt_not_le in Hlt.
Qed.

Lemma pace_sleep_time start finish st :
  (sleep_time (pace args start finish st).2
   == Qmax 0 (step_length args - (finish - start)))%Q.
Proof.
  destruct (Qlt_le_dec (finish - start) (step_length args)) as [Hlt|Hle].
  - rewrite (pace_on_time _ _ _ Hlt). unfold do.
    destruct (handle _ _ _) as [r w]. unfold sleep_time. simpl.
    rewrite Qplus_0_r. symmetry. apply Q.max_r. lra.
  - rewrite (pace_late _ _ _ Hle). unfold sleep_time. simpl.
    symmetry. apply Q.max_l. lra.
Qed.

(** C9.  Real-time pacing.  At the end of an iteration the driver sleeps for
    [step_length - elapsed] when [elapsed < step_length], and does not call
    [sleep] otherwise; either way the time slept is
    [max 0 (step_length - elapsed)].  Whatever the clock says, an iteration
    that returns has made one simulation step and one tick of each world,
    and a run of the loop that returns has made one of each for every check
    of the loop condition that found work pending: no tick is skipped. *)
Theorem real_time_pacing start finish st :
  ((finish - start < step_length args)%Q →
     pace args start finish st
     = do (TimeSleep (step_length args - (finish - start))%Q) st) ∧
  ((step_length args <= finish - start)%Q →
     pace args start finish st = (Ok tt, st, [])) ∧
  (sleep_time (pace args start finish st).2
   == Qmax 0 (step_length args - (finish - start)))%Q ∧
  (∀ cnt st' evs,
     loop_body args ego_id cnt st = (Ok tt, st', evs) →
     count_events is_simulation_step evs = 1%nat ∧
     count_events (in_family SumoStep) evs = 1%nat ∧
     count_events (in_family CarlaStep) evs = 1%nat) ∧
  (∀ fuel cnt st' evs,
     while_loop args ego_id fuel cnt st = Some (Ok tt, st', evs) →
     count_events is_simulation_step evs = count_events found_pending evs ∧
     count_events (in_family SumoStep) evs = count_events found_pending evs ∧
     count_events (in_family CarlaStep) evs = count_events found_pending evs).
Proof.
  split; [|split; [|split; [|split]]].
  - apply pace_on_time.
  - apply pace_late.
  - apply pace_sleep_time.
  - intros cnt st' evs E. destruct (loop_body_counts cnt) as (B1 & B2 & B3 & _).
    repeat split; [by eapply B1|by eapply B2|by eapply B3].
  - intros fuel cnt st' evs. apply while_loop_counts.
Qed.

(** ** The exceptions of the tick's own code *)

Lemma missing_actor_app {A} (r : result A) (ev1 ev2 : list (event Obj)) :
  raised_by_call_or_missing_actor r ev2 →
  raised_by_call_or_missing_actor r (ev1 ++ ev2).
Proof.
  destruct r as [a|e]; [done|]. simpl. intros [H|[-> H]].
  - left. rewrite last_app. by destruct (last ev2).
  - right. split; [done|]. rewrite omap_app.
    intros [_ ?]%app_eq_nil. done.
Qed.

Lemma raises_no_other_ret {A} (a : A) : raises_no_other (ret (W:=W) (Obj:=Obj) a).
Proof. by intros ???? [= <- _ _]. Qed.

Lemma raises_no_other_gets {A} (f : Sync → A) : raises_no_other (gets f).
Proof. by intros ???? [= <- _ _]. Qed.

Lemma raises_no_other_do {R} (c : call Obj R) : raises_no_other (do c).
Proof.
  intros st r st' evs. unfold do.
  destruct (handle R c (world st)) as [[a|e] w]; intros [= <- _ <-]; [done|].
  by left.
Qed.

Lemma raises_no_other_bind {A B} (m : M A) (f : A → M B) :
  raises_no_other m → (∀ a, raises_no_other (f a)) → raises_no_other (bind m f).
Proof.
  intros Hm Hf st r st' evs
    [(e & -> & E)|(a & st1 & ev1 & ev2 & E1 & E2 & ->)]%bind_inv.
  - apply Hm in E. exact E.
  - apply missing_actor_app. by eapply Hf.
Qed.

Lemma raises_no_other_for_each {A} (l : list A) (body : A → M unit) :
  (∀ x, raises_no_other (body x)) → raises_no_other (for_each l body).
Proof.
  intros Hbody. induction l as [|x l IH]; simpl.
  - apply raises_no_other_ret.
  - apply raises_no_other_bind; [apply Hbody|]. intros _. apply IH.
Qed.

Ltac body_raises :=
  intros ? ? ? ?; unfold raised_by_call_or_missing_actor; run_body;
  intros [= <- <- <-]; simpl;
  first [done|by left|by right].

Lemma spawn_sumo_actor_raises i : raises_no_other (spawn_sumo_actor args i).
Proof. unfold spawn_sumo_actor. body_raises. Qed.

Lemma destroy_sumo_actor_raises i : raises_no_other (destroy_sumo_actor i).
Proof. unfold destroy_sumo_actor. body_raises. Qed.

Lemma spawn_carla_actor_raises i : raises_no_other (spawn_carla_actor args i).
Proof. unfold spawn_carla_actor. body_raises. Qed.

Lemma destroy_carla_actor_raises i : raises_no_other (destroy_carla_actor i).
Proof. unfold destroy_carla_actor. body_raises. Qed.

Lemma update_carla_traffic_light_raises l :
  raises_no_other (update_carla_traffic_light l).
Proof. unfold update_carla_traffic_light. body_raises. Qed.

Lemma update_sumo_traffic_light_raises l :
  raises_no_other (update_sumo_traffic_light l).
Proof. unfold update_sumo_traffic_light. body_raises. Qed.

(** The subscript of an update loop is on a key of the table. *)
Lemma update_sumo_actor_raises k st r st' evs :
  is_Some (sumo2carla_ids st !! k) →
  update_sumo_actor args k st = (r, st', evs) →
  raised_by_call_or_missing_actor r evs.
Proof.
  intros [v Hv]. unfold update_sumo_actor, raised_by_call_or_missing_actor.
  unfold_monad. simpl. rewrite Hv. simpl. repeat run_step;
    intros [= <- <- <-]; simpl; first [done|by left|by right].
Qed.

Lemma update_carla_actor_raises k st r st' evs :
  is_Some (carla2sumo_ids st !! k) →
  update_carla_actor args k st = (r, st', evs) →
  raised_by_call_or_missing_actor r evs.
Proof.
  intros [v Hv]. unfold update_carla_actor, raised_by_call_or_missing_actor.
  unfold_monad. simpl. rewrite Hv. simpl. repeat run_step;
    intros [= <- <- <-]; simpl; first [done|by left|by right].
Qed.

Lemma update_sumo_loop_raises l st r st' evs :
  (∀ k, k ∈ l → is_Some (sumo2carla_ids st !! k)) →
  for_each l (update_sumo_actor args) st = (r, st', evs) →
  raised_by_call_or_missing_actor r evs.
Proof.
  revert st evs. induction l as [|k l IH]; intros st evs Hl; simpl.
  - by intros [= <- _ _].
  - intros [(e & -> & E)|(a & st1 & ev1 & ev2 & E1 & E2 & ->)]%bind_inv.
    + eapply update_sumo_actor_raises in E; [exact E|]. apply Hl. by left.
    + apply missing_actor_app. eapply IH; [|exact E2].
      intros k' Hk'. apply update_sumo_actor_keeps in E1 as [E1 _].
      unfold keeps in E1. rewrite E1. apply Hl. by right.
Qed.

Lemma update_carla_loop_raises l st r st' evs :
  (∀ k, k ∈ l → is_Some (carla2sumo_ids st !! k)) →
  for_each l (update_carla_actor args) st = (r, st', evs) →
  raised_by_call_or_missing_actor r evs.
Proof.
  revert st evs. induction l as [|k l IH]; intros st evs Hl; simpl.
  - by intros [= <- _ _].
  - intros [(e & -> & E)|(a & st1 & ev1 & ev2 & E1 & E2 & ->)]%bind_inv.
    + eapply update_carla_actor_raises in E; [exact E|]. apply Hl. by left.
    + apply missing_actor_app. eapply IH; [|exact E2].
      intros k' Hk'. apply update_carla_actor_keeps in E1 as [_ E1].
      unfold keeps in E1. rewrite E1. apply Hl. by right.
Qed.

Lemma dict_keys_mapped (d : gmap actor_id actor_id) k :
  k ∈ dict_keys d → is_Some (d !! k).
Proof.
  unfold dict_keys. intros [[k' v] [-> Hin]]%list_elem_of_fmap.
  apply elem_of_map_to_list in Hin. by exists v.
Qed.

Lemma update_sumo_actors_raises : raises_no_other (update_sumo_actors args).
Proof.
  intros st r st' evs. unfold update_sumo_actors. unfold_monad. simpl.
  destruct (for_each _ _ st) as [[r1 st1] ev1] eqn:E. intros [= <- <- <-].
  eapply update_sumo_loop_raises; [|exact E]. apply dict_keys_mapped.
Qed.

Lemma update_carla_actors_raises : raises_no_other (update_carla_actors args).
Proof.
  intros st r st' evs. unfold update_carla_actors. unfold_monad. simpl.
  destruct (for_each _ _ st) as [[r1 st1] ev1] eqn:E. intros [= <- <- <-].
  eapply update_carla_loop_raises; [|exact E]. apply dict_keys_mapped.
Qed.

Ltac raises :=
  repeat (unfold mbind, M_bind;
    lazymatch goal with
    | |- raises_no_other (bind _ _) => apply raises_no_other_bind; [|intros ?]
    | |- raises_no_other (for_each _ _) =>
        apply raises_no_other_for_each; intros ?
    | |- raises_no_other (ret _) => apply raises_no_other_ret
    | |- raises_no_other (gets _) => apply raises_no_other_gets
    | |- raises_no_other (do _) => apply raises_no_other_do
    | |- raises_no_other (if ?b then _ else _) => destruct b
    | _ => fail
    end).

Lemma tick_raises : raises_no_other (tick args).
Proof.
  unfold tick, sumo_pass, carla_pass, sumo_pass_after_spawn,
    carla_pass_after_spawn, spawn_sumo_actors, destroy_sumo_actors,
    update_carla_traffic_lights, spawn_carla_actors, destroy_carla_actors,
    update_sumo_traffic_lights.
  raises;
    first [ apply spawn_sumo_actor_raises | apply destroy_sumo_actor_raises
          | apply update_sumo_actors_raises
          | apply update_carla_traffic_light_raises
          | apply spawn_carla_actor_raises | apply destroy_carla_actor_raises
          | apply update_carla_actors_raises
          | apply update_sumo_traffic_light_raises ].
Qed.

(** X1.  The exceptions of [tick].  A tick that raises [e] either made a
    call that raised [e], as its last call, or no call of it raised, [e] is
    [AttributeError] and [carla.get_actor] answered [None] during the tick.
    In particular the subscripts [sumo2carla_ids[k]] and [carla2sumo_ids[k]]
    of the update loops never raise [KeyError]. *)
Theorem tick_raises_only st e st' evs :
  tick args st = (Raise e, st', evs) →
  last evs ≫= raised = Some e ∨
  (e = AttributeError ∧ clean evs ∧ omap not_found evs ≠ []).
Proof.
  intros E. destruct (tick_raises _ _ _ _ E) as [H|[-> H]]; [by left|].
  destruct (tick_propagates _ _ _ _ E)
    as [Hc|(evs0 & ev & e' & -> & _ & He & [= <-])].
  - by right.
  - left. rewrite last_snoc. simpl. done.
Qed.

(** ** What the update loops read *)

Lemma update_sumo_actor_reads k :
  ensures (update_sumo_actor args k)
    (emits (λ ev, ∀ j, sumo_spawn_source ev = Some j → j = k)).
Proof.
  intros st r st' evs. unfold update_sumo_actor, emits.
  run_body; intros [= <- <- <-]; repeat constructor; simpl; congruence.
Qed.

Lemma update_carla_actor_reads k :
  ensures (update_carla_actor args k)
    (emits (λ ev, ∀ j, carla_spawn_source ev = Some j → j = k)).
Proof.
  intros st r st' evs. unfold update_carla_actor, emits.
  run_body; intros [= <- <- <-]; repeat constructor; simpl; congruence.
Qed.

Lemma update_sumo_actors_reads st r st' evs :
  update_sumo_actors args st = (r, st', evs) →
  Forall (λ ev, ∀ j, sumo_spawn_source ev = Some j →
                     is_Some (sumo2carla_ids st !! j)) evs.
Proof.
  unfold update_sumo_actors. unfold_monad. simpl.
  destruct (for_each _ _ st) as [[r1 st1] ev1] eqn:E. intros [= <- <- <-].
  eapply (ensures_for_each _ _
    (emits (λ ev, ∀ j, sumo_spawn_source ev = Some j
                       → is_Some (sumo2carla_ids st !! j)))) in E; [exact E|].
  intros k Hk%dict_keys_mapped. eapply emits_weaken;
    [|apply update_sumo_actor_reads].
  simpl. intros ev He j Hj. apply He in Hj as ->. done.
Qed.

Lemma update_carla_actors_reads st r st' evs :
  update_carla_actors args st = (r, st', evs) →
  Forall (λ ev, ∀ j, carla_spawn_source ev = Some j →
                     is_Some (carla2sumo_ids st !! j)) evs.
Proof.
  unfold update_carla_actors. unfold_monad. simpl.
  destruct (for_each _ _ st) as [[r1 st1] ev1] eqn:E. intros [= <- <- <-].
  eapply (ensures_for_each _ _
    (emits (λ ev, ∀ j, carla_spawn_source ev = Some j
                       → is_Some (carla2sumo_ids st !! j)))) in E; [exact E|].
  intros k Hk%dict_keys_mapped. eapply emits_weaken;
    [|apply update_carla_actor_reads].
  simpl. intros ev He j Hj. apply He in Hj as ->. done.
Qed.

Lemma destroy_in_carla_reads_nothing (ev : event Obj) :
  is_Some (destroyed_in_carla ev) → sumo_spawn_source ev = None.
Proof. destruct ev as [R c r]. destruct c; simpl; by intros [? ?]. Qed.

Lemma destroy_in_sumo_reads_nothing (ev : event Obj) :
  is_Some (destroyed_in_sumo ev) → carla_spawn_source ev = None.
Proof. destruct ev as [R c r]. destruct c; simpl; by intros [? ?]. Qed.

Lemma lights_to_carla_reads_nothing (ev : event Obj) :
  family_of ev = LightsToCarla → sumo_spawn_source ev = None.
Proof. destruct ev as [R c r]. by destruct c. Qed.

Lemma lights_to_sumo_reads_nothing (ev : event Obj) :
  family_of ev = LightsToSumo → carla_spawn_source ev = None.
Proof. destruct ev as [R c r]. by destruct c. Qed.

(** X2.  Destroy runs before update.  After the spawn loop, a half-pass
    reads from its source simulator only actors that were keys of its table
    when the destroy loop began and that the simulator did not report as
    destroyed: [sumo.get_actor] in the SUMO half, [carla.get_actor] in the
    CARLA half, whatever the outcome of the half-pass. *)
Theorem destroyed_actors_are_not_read st r st' evs :
  (sumo_pass_after_spawn args st = (r, st', evs) →
   Forall (λ ev, ∀ j, sumo_spawn_source ev = Some j →
             is_Some (sumo2carla_ids st !! j) ∧
             j ∉ sumo_destroyed_actors (world st)) evs) ∧
  (carla_pass_after_spawn args st = (r, st', evs) →
   Forall (λ ev, ∀ j, carla_spawn_source ev = Some j →
             is_Some (carla2sumo_ids st !! j) ∧
             j ∉ carla_destroyed_actors (world st)) evs).
Proof.
  split.
  - unfold sumo_pass_after_spawn, mbind, M_bind.
    intros [(e & -> & E)|([] & st1 & ev1 & ev2 & E1 & E2 & ->)]%bind_inv.
    { apply destroy_sumo_actors_only in E. eapply Forall_impl; [exact E|].
      simpl. intros ev Hev%destroy_in_carla_reads_nothing j. congruence. }
    apply Forall_app. split.
    { apply destroy_sumo_actors_only in E1. eapply Forall_impl; [exact E1|].
      simpl. intros ev Hev%destroy_in_carla_reads_nothing j. congruence. }
    assert (∀ j, is_Some (sumo2carla_ids st1 !! j) →
                 is_Some (sumo2carla_ids st !! j) ∧
                 j ∉ sumo_destroyed_actors (world st)) as Hkeys.
    { intros j Hj.
      destruct (decide (j ∈ sumo_destroyed_actors (world st))) as [Hd|Hd].
      - destruct (destroy_sumo_actors_ok _ _ _ E1 j Hd) as [Hnone _].
        rewrite Hnone in Hj. by destruct Hj.
      - apply destroy_sumo_actors_frame in E1 as (_ & Hsame & _).
        by rewrite <- (Hsame j Hd). }
    assert (∀ ra sta eva, update_sumo_actors args st1 = (ra, sta, eva) →
              Forall (λ ev, ∀ j, sumo_spawn_source ev = Some j →
                is_Some (sumo2carla_ids st !! j) ∧
                j ∉ sumo_destroyed_actors (world st)) eva) as Hup.
    { intros ra sta eva Ea. apply update_sumo_actors_reads in Ea.
      eapply Forall_impl; [exact Ea|]. simpl. intros ev He j Hj. eauto. }
    apply bind_inv in E2
      as [(e & -> & E)|([] & st2 & ev3 & ev4 & E3 & E4 & ->)]; [by eapply Hup|].
    apply Forall_app. split; [by eapply Hup|].
    apply update_carla_traffic_lights_family in E4.
    eapply Forall_impl; [exact E4|]. simpl.
    intros ev [_ Hev%lights_to_carla_reads_nothing] j. congruence.
  - unfold carla_pass_after_spawn, mbind, M_bind.
    intros [(e & -> & E)|([] & st1 & ev1 & ev2 & E1 & E2 & ->)]%bind_inv.
    { apply destroy_carla_actors_only in E. eapply Forall_impl; [exact E|].
      simpl. intros ev Hev%destroy_in_sumo_reads_nothing j. congruence. }
    apply Forall_app. split.
    { apply destroy_carla_actors_only in E1. eapply Forall_impl; [exact E1|].
      simpl. intros ev Hev%destroy_in_sumo_reads_nothing j. congruence. }
    assert (∀ j, is_Some (carla2sumo_ids st1 !! j) →
                 is_Some (carla2sumo_ids st !! j) ∧
                 j ∉ carla_destroyed_actors (world st)) as Hkeys.
    { intros j Hj.
      destruct (decide (j ∈ carla_destroyed_actors (world st))) as [Hd|Hd].
      - destruct (destroy_carla_actors_ok _ _ _ E1 j Hd) as [Hnone _].
        rewrite Hnone in Hj. by destruct Hj.
      - apply destroy_carla_actors_frame in E1 as (_ & Hsame & _).
        by rewrite <- (Hsame j Hd). }
    assert (∀ ra sta eva, update_carla_actors args st1 = (ra, sta, eva) →
              Forall (λ ev, ∀ j, carla_spawn_source ev = Some j →
                is_Some (carla2sumo_ids st !! j) ∧
                j ∉ carla_destroyed_actors (world st)) eva) as Hup.
    { intros ra sta eva Ea. apply update_carla_actors_reads in Ea.
      eapply Forall_impl; [exact Ea|]. simpl. intros ev He j Hj. eauto. }
    apply bind_inv in E2
      as [(e & -> & E)|([] & st2 & ev3 & ev4 & E3 & E4 & ->)]; [by eapply Hup|].
    apply Forall_app. split; [by eapply Hup|].
    apply update_sumo_traffic_lights_family in E4.
    eapply Forall_impl; [exact E4|]. simpl.
    intros ev [_ Hev%lights_to_sumo_reads_nothing] j. congruence.
Qed.

(** ** Transitions of the whole tick and of the whole loop *)

(** A stable transition that holds of the two world ticks and of the body
    of each loop holds of the tick. *)
Lemma tick_ensures (G : transition) `{!Stable G} :
  ensures (do SumoTick) G → ensures (do CarlaTick) G →
  (∀ i, ensures (spawn_sumo_actor args i) G) →
  (∀ i, ensures (destroy_sumo_actor i) G) →
  (∀ i, ensures (update_sumo_actor args i) G) →
  (∀ l, ensures (update_carla_traffic_light l) G) →
  (∀ i, ensures (spawn_carla_actor args i) G) →
  (∀ i, ensures (destroy_carla_actor i) G) →
  (∀ i, ensures (update_carla_actor args i) G) →
  (∀ l, ensures (update_sumo_traffic_light l) G) →
  ensures (tick args) G.
Proof.
  intros. unfold tick, sumo_pass, carla_pass, sumo_pass_after_spawn,
    carla_pass_after_spawn, spawn_sumo_actors, destroy_sumo_actors,
    update_sumo_actors, update_carla_traffic_lights, spawn_carla_actors,
    destroy_carla_actors, update_carla_actors, update_sumo_traffic_lights.
  repeat first [progress ens | case_decide]; done.
Qed.

#[local] Instance preserves_stable (P : Sync → Prop) : Stable (preserves P).
Proof. split; unfold preserves; [done|]. intros; eauto. Qed.

#[local] Instance sumo2carla_new_subscribed_stable :
  Stable (sumo2carla_new_subscribed (Obj:=Obj) (W:=W)).
Proof.
  split; unfold sumo2carla_new_subscribed; [by left|].
  intros st0 st1 st2 ev1 ev2 H1 H2 k m Hk. rewrite omap_app, elem_of_app.
  destruct (H2 k m Hk) as [Hk1|?]; [|by right; right].
  destruct (H1 k m Hk1) as [?|?]; [by left|by right; left].
Qed.

#[local] Instance carla2sumo_new_subscribed_stable :
  Stable (carla2sumo_new_subscribed (Obj:=Obj) (W:=W)).
Proof.
  split; unfold carla2sumo_new_subscribed; [by left|].
  intros st0 st1 st2 ev1 ev2 H1 H2 k m Hk. rewrite omap_app, elem_of_app.
  destruct (H2 k m Hk) as [Hk1|?]; [|by right; right].
  destruct (H1 k m Hk1) as [?|?]; [by left|by right; left].
Qed.

(** ** Subscriptions *)

Ltac table_step i :=
  let k := fresh "k" in let m := fresh "m" in let Hk := fresh "Hk" in
  intros k m Hk; simpl in *;
  first
    [ by left
    | apply lookup_delete_Some in Hk as [_ Hk]; by left
    | destruct (decide (k = i)) as [->|?];
      [ rewrite lookup_insert_eq in Hk; simplify_eq; right; set_solver
      | rewrite lookup_insert_ne in Hk by done; by left ] ].

Ltac subscribed_body i :=
  intros ? ? ? ?;
  unfold both, sumo2carla_new_subscribed, carla2sumo_new_subscribed;
  run_body; intros [= <- <- <-]; (split; table_step i).

Lemma tick_subscribes :
  ensures (tick args) (both sumo2carla_new_subscribed carla2sumo_new_subscribed).
Proof.
  apply tick_ensures; try apply _.
  - unfold do. subscribed_body INVALID_ACTOR_ID.
  - unfold do. subscribed_body INVALID_ACTOR_ID.
  - intros i. unfold spawn_sumo_actor. subscribed_body i.
  - intros i. unfold destroy_sumo_actor. subscribed_body i.
  - intros i. unfold update_sumo_actor. subscribed_body i.
  - intros i. unfold update_carla_traffic_light. subscribed_body i.
  - intros i. unfold spawn_carla_actor. subscribed_body i.
  - intros i. unfold destroy_carla_actor. subscribed_body i.
  - intros i. unfold update_carla_actor. subscribed_body i.
  - intros i. unfold update_sumo_traffic_light. subscribed_body i.
Qed.

(** X3.  Subscriptions follow the tables.  Whatever its outcome, a tick
    leaves in [sumo2carla_ids] only entries that were there before or whose
    key it has passed to [sumo.subscribe], and in [carla2sumo_ids] only
    entries that were there before or whose value, the SUMO mirror, it has
    passed to [sumo.subscribe]. *)
Theorem new_entries_are_subscribed st r st' evs :
  tick args st = (r, st', evs) →
  (∀ k m, sumo2carla_ids st' !! k = Some m →
          sumo2carla_ids st !! k = Some m ∨ k ∈ omap subscribed evs) ∧
  (∀ k m, carla2sumo_ids st' !! k = Some m →
          carla2sumo_ids st !! k = Some m ∨ m ∈ omap subscribed evs).
Proof. intros E. by apply tick_subscribes in E. Qed.

(** A stable transition that holds of the tick, of the cosmetic methods and
    of the calls of the driver holds of an iteration, and of the loop. *)
Lemma loop_body_ensures (G : transition) `{!Stable G} cnt :
  ensures (tick args) G → ensures (getEgo ego_id) G →
  (∀ v, ensures (moveSpectator v) G) →
  (∀ v, ensures (setFrontViewCamera v) G) →
  (∀ R (c : call Obj R), family_of_call c = Driver → ensures (do c) G) →
  ensures (loop_body args ego_id cnt) G.
Proof.
  intros Htick Hego Hmove Hcam Hdo. unfold loop_body, pace. cbv zeta.
  repeat first
    [ progress ens
    | done
    | by apply Hdo
    | lazymatch goal with
      | |- ensures (match ?o with Some _ => _ | None => _ end) _ => destruct o
      | |- ensures (if ?b then _ else _) _ => destruct b
      end ].
  intros st r st' evs. rewrite front_view_image_quiet.
  intros [= _ <- <-]. apply stable_refl.
Qed.

Lemma while_loop_ensures (G : transition) `{!Stable G} fuel cnt st r st' evs :
  (∀ cnt, ensures (loop_body args ego_id cnt) G) →
  ensures (do TraciGetMinExpectedNumber) G →
  while_loop args ego_id fuel cnt st = Some (r, st', evs) → G st st' evs.
Proof.
  intros Hbody Hdo. revert cnt st r st' evs. induction fuel as [|fuel IH];
    intros cnt st r st' evs; simpl; [done|].
  destruct (do TraciGetMinExpectedNumber st) as [[r1 st1] ev1] eqn:E1.
  apply Hdo in E1.
  destruct r1 as [n|e]; [|by intros [= _ <- <-]].
  case_decide; [by intros [= _ <- <-]|].
  destruct (loop_body args ego_id cnt st1) as [[r2 st2] ev2] eqn:E2.
  apply Hbody in E2. destruct r2 as [[]|e].
  - destruct (while_loop _ _ fuel _ st2) as [[[r3 st3] ev3]|] eqn:E3; [|done].
    intros [= _ <- <-]. apply IH in E3.
    eapply stable_trans; [done|]. by eapply stable_trans.
  - intros [= _ <- <-]. by eapply stable_trans.
Qed.

Lemma close_ensures (G : transition) `{!Stable G} :
  (∀ R (c : call Obj R), is_close_call c = true → ensures (do c) G) →
  ensures close G.
Proof.
  intros Hdo. unfold close. repeat first [progress ens | by apply Hdo].
Qed.

Lemma leave_loop_ensures (G : transition) `{!Stable G} r0 st0 ev0 st r st' evs :
  (∀ msg, ensures (do (LoggingInfo msg)) G) → ensures close G →
  leave_loop (r0, st0, ev0) st = (r, st', evs) →
  ∃ ev', evs = ev0 ++ ev' ∧ G st0 st' ev'.
Proof.
  intros Hlog Hclose. rewrite leave_loop_unfold.
  assert (ensures (bind (do (LoggingInfo "Cleaning synchronization"))
                     (λ _, close)) G) as Hfin by (by ens).
  assert (∀ st_a ev_a (r_a : result unit),
    G st0 st_a ev_a →
    match bind (do (LoggingInfo "Cleaning synchronization"))
            (λ _, close) st_a with
    | (Ok _, st2, ev2) => (r_a, st2, (ev0 ++ ev_a) ++ ev2)
    | (Raise e, st2, ev2) => (Raise e, st2, (ev0 ++ ev_a) ++ ev2)
    end = (r, st', evs) →
    ∃ ev', evs = ev0 ++ ev' ∧ G st0 st' ev') as Hrest.
  { intros st_a ev_a r_a Ha.
    destruct (bind _ _ st_a) as [[r2 st2] ev2] eqn:E2. apply Hfin in E2.
    intros E. exists (ev_a ++ ev2).
    assert (st' = st2 ∧ evs = (ev0 ++ ev_a) ++ ev2) as [-> ->]
      by (destruct r2; by simplify_eq).
    split; [by rewrite app_assoc|]. by eapply stable_trans. }
  assert (∀ r_a : result unit,
    match bind (do (LoggingInfo "Cleaning synchronization"))
            (λ _, close) st0 with
    | (Ok _, st2, ev2) => (r_a, st2, ev0 ++ ev2)
    | (Raise e, st2, ev2) => (Raise e, st2, ev0 ++ ev2)
    end = (r, st', evs) →
    ∃ ev', evs = ev0 ++ ev' ∧ G st0 st' ev') as Hplain.
  { intros r_a E. apply (Hrest st0 [] r_a); [apply stable_refl|].
    by rewrite app_nil_r. }
  destruct r0 as [[]|e]; [apply Hplain|].
  destruct e; try apply Hplain.
  destruct (do (LoggingInfo "Cancelled by user.") st0) as [[r1 st1] ev1] eqn:E1.
  apply Hlog in E1. by apply Hrest.
Qed.

(** ** The sentinel is never stored *)

Ltac valid_step :=
  let Hv := fresh "Hv" in let k := fresh "k" in let v := fresh "v" in
  let H := fresh "H" in
  intros Hv k v [H|H]; simpl in *;
  try (apply lookup_delete_Some in H as [_ H]);
  try (lazymatch type of H with
       | context [insert ?i] =>
           destruct (decide (k = i)) as [->|?];
           [ rewrite lookup_insert_eq in H; by simplify_eq
           | rewrite lookup_insert_ne in H by done ]
       end);
  eauto.

Ltac valid_body :=
  intros ? ? ? ?; unfold preserves, no_invalid_mirror;
  run_body; intros [= <- <- <-]; valid_step.

Lemma do_valid {R} (c : call Obj R) :
  ensures (do c) (preserves no_invalid_mirror).
Proof. unfold do. valid_body. Qed.

Lemma tick_valid : ensures (tick args) (preserves no_invalid_mirror).
Proof.
  apply tick_ensures; try apply _; try apply do_valid; intros i.
  - unfold spawn_sumo_actor. valid_body.
  - unfold destroy_sumo_actor. valid_body.
  - unfold update_sumo_actor. valid_body.
  - unfold update_carla_traffic_light. valid_body.
  - unfold spawn_carla_actor. valid_body.
  - unfold destroy_carla_actor. valid_body.
  - unfold update_carla_actor. valid_body.
  - unfold update_sumo_traffic_light. valid_body.
Qed.

Lemma keeps_tables_valid {A} (m : M A) :
  ensures m (both (keeps sumo2carla_ids) (keeps carla2sumo_ids)) →
  ensures m (preserves no_invalid_mirror).
Proof.
  apply ensures_weaken. unfold both, keeps, preserves, no_invalid_mirror.
  intros st st' _ [E1 E2] Hv k v. rewrite E1, E2. apply Hv.
Qed.

(** ** The cosmetic methods and the tables *)

Ltac keeps_body :=
  intros ? ? ? ?; unfold both, keeps; run_body; by intros [= <- <- <-].

Lemma getEgo_keeps :
  ensures (getEgo ego_id) (both (keeps sumo2carla_ids) (keeps carla2sumo_ids)).
Proof. unfold getEgo. keeps_body. Qed.

Lemma moveSpectator_keeps v :
  ensures (moveSpectator v) (both (keeps sumo2carla_ids) (keeps carla2sumo_ids)).
Proof. unfold moveSpectator. keeps_body. Qed.

Lemma setFrontViewCamera_keeps v :
  ensures (setFrontViewCamera v)
    (both (keeps sumo2carla_ids) (keeps carla2sumo_ids)).
Proof. unfold setFrontViewCamera. keeps_body. Qed.

Lemma do_keeps_tables {R} (c : call Obj R) :
  ensures (do c) (both (keeps sumo2carla_ids) (keeps carla2sumo_ids)).
Proof. unfold do. keeps_body. Qed.

Lemma close_keeps :
  ensures close (both (keeps sumo2carla_ids) (keeps carla2sumo_ids)).
Proof. apply close_ensures; [apply _|]. intros R c _. apply do_keeps_tables. Qed.

Lemma loop_body_valid cnt :
  ensures (loop_body args ego_id cnt) (preserves no_invalid_mirror).
Proof.
  apply loop_body_ensures; [apply _|apply tick_valid|..].
  - apply keeps_tables_valid, getEgo_keeps.
  - intros v. apply keeps_tables_valid, moveSpectator_keeps.
  - intros v. apply keeps_tables_valid, setFrontViewCamera_keeps.
  - intros R c _. apply do_valid.
Qed.

Lemma construct_valid st r st' evs :
  construct args st = (r, st', evs) → no_invalid_mirror st → no_invalid_mirror st'.
Proof.
  revert st r st' evs.
  change (ensures (construct args) (preserves no_invalid_mirror)).
  unfold construct, init.
  repeat first
    [ progress ens | apply do_valid | case_decide
    | (intros ? ? ? ? [= _ <- _]; unfold preserves, no_invalid_mirror;
       simpl; intros Hv k v [H|H]; by eauto) ].
Qed.

(** X4.  [INVALID_ACTOR_ID] is never stored.  A tick, and the [while] loop,
    started on tables that hold no [INVALID_ACTOR_ID] as a value leave such
    tables, whatever their outcome; and so do the tables a run of
    [synchronization_loop] ends with, when the run ends. *)
Theorem invalid_id_never_stored :
  (∀ st r st' evs,
     tick args st = (r, st', evs) → no_invalid_mirror st → no_invalid_mirror st') ∧
  (∀ fuel cnt st r st' evs,
     while_loop args ego_id fuel cnt st = Some (r, st', evs) →
     no_invalid_mirror st → no_invalid_mirror st') ∧
  (∀ fuel w r st' evs,
     synchronization_loop args ego_id fuel w = Some (r, st', evs) →
     no_invalid_mirror st').
Proof.
  assert (∀ fuel cnt st r st' evs,
     while_loop args ego_id fuel cnt st = Some (r, st', evs) →
     no_invalid_mirror st → no_invalid_mirror st') as Hloop.
  { intros fuel cnt st r st' evs E.
    eapply (while_loop_ensures (preserves no_invalid_mirror)) in E; [exact E|..].
    - apply loop_body_valid.
    - apply do_valid. }
  split; [|split; [exact Hloop|]].
  - intros st r st' evs E. by apply tick_valid in E.
  - intros fuel w r st' evs. unfold synchronization_loop.
    destruct (construct args (fresh_sync w)) as [[[[]|e] st1] ev1] eqn:E1.
    + apply construct_valid in E1; [|by intros k v [?|?]].
      destruct (while_loop _ _ fuel 0 st1) as [[[r0 st0] ev0]|] eqn:E2; [|done].
      apply Hloop in E2; [|done].
      destruct (leave_loop _ st1) as [[r2 st2] ev2] eqn:E3.
      intros [= _ <- _].
      destruct (leave_loop_ensures (preserves no_invalid_mirror)
                  _ _ _ _ _ _ _ (λ msg, do_valid _)
                  (keeps_tables_valid _ close_keeps) E3) as (ev' & _ & Hv).
      exact (Hv E2).
    + intros [= _ <- _]. apply construct_valid in E1; [done|].
      by intros k v [?|?].
Qed.

(** ** Which simulator a half-pass writes to *)

Lemma sumo_pass_writes :
  ensures (sumo_pass args) (emits (λ ev, writes_sumo ev = false)).
Proof.
  unfold sumo_pass, sumo_pass_after_spawn, spawn_sumo_actors,
    destroy_sumo_actors, update_sumo_actors, update_carla_traffic_lights.
  repeat first [progress ens | case_decide].
  - by apply do_emits.
  - unfold spawn_sumo_actor. body_emits.
  - unfold destroy_sumo_actor. body_emits.
  - unfold update_sumo_actor. body_emits.
  - unfold update_carla_traffic_light. body_emits.
Qed.

Lemma carla_pass_writes :
  ensures (carla_pass args) (emits (λ ev, writes_carla ev = false)).
Proof.
  unfold carla_pass, carla_pass_after_spawn, spawn_carla_actors,
    destroy_carla_actors, update_carla_actors, update_sumo_traffic_lights.
  repeat first [progress ens | case_decide].
  - by apply do_emits.
  - unfold spawn_carla_actor. body_emits.
  - unfold destroy_carla_actor. body_emits.
  - unfold update_carla_actor. body_emits.
  - unfold update_sumo_traffic_light. body_emits.
Qed.

Lemma sumo_pass_before_carla_tick :
  ensures (sumo_pass args) (emits (λ ev, family_of ev ≠ CarlaStep)).
Proof.
  eapply emits_weaken; [|apply sumo_pass_family]. simpl.
  intros ev [->|[->|[_ ->]]]; done.
Qed.

Lemma carla_pass_after_sumo_tick :
  ensures (carla_pass args) (emits (λ ev, family_of ev ≠ SumoStep)).
Proof.
  eapply emits_weaken; [|apply carla_pass_family]. simpl.
  intros ev [->|[->|[_ ->]]]; done.
Qed.

(** X5.  Each half-pass writes one way.  Whatever the configuration and
    the outcome, the SUMO half of a tick never spawns, destroys or moves a
    vehicle in SUMO nor sets a traffic light there, and the CARLA half never
    does so in CARLA.  So the calls of a tick split in two runs: the first
    writes nothing to SUMO and holds no [carla.tick()], the second writes
    nothing to CARLA and holds no [sumo.tick()]. *)
Theorem half_passes_write_one_way st r st' evs :
  (sumo_pass args st = (r, st', evs) →
   Forall (λ ev, writes_sumo ev = false) evs) ∧
  (carla_pass args st = (r, st', evs) →
   Forall (λ ev, writes_carla ev = false) evs) ∧
  (tick args st = (r, st', evs) →
   ∃ ev1 ev2,
     evs = ev1 ++ ev2 ∧
     Forall (λ ev, writes_sumo ev = false ∧ family_of ev ≠ CarlaStep) ev1 ∧
     Forall (λ ev, writes_carla ev = false ∧ family_of ev ≠ SumoStep) ev2).
Proof.
  split; [|split]; intros E.
  - by apply sumo_pass_writes in E.
  - by apply carla_pass_writes in E.
  - revert E. unfold tick, mbind, M_bind.
    intros [(e & -> & E)|([] & st1 & ev1 & ev2 & E1 & E2 & ->)]%bind_inv.
    + exists evs, []. rewrite app_nil_r. split; [done|]. split; [|done].
      apply Forall_and. split.
      * by apply sumo_pass_writes in E.
      * by apply sumo_pass_before_carla_tick in E.
    + exists ev1, ev2. split; [done|]. split; apply Forall_and; split.
      * by apply sumo_pass_writes in E1.
      * by apply sumo_pass_before_carla_tick in E1.
      * by apply carla_pass_writes in E2.
      * by apply carla_pass_after_sumo_tick in E2.
Qed.

(** ** The camera *)

Lemma tick_keeps_record : ensures (tick args) (keeps record).
Proof.
  apply tick_ensures; try apply _; try (by apply do_keeps); intros i.
  - unfold spawn_sumo_actor. keeps_body.
  - unfold destroy_sumo_actor. keeps_body.
  - unfold update_sumo_actor. keeps_body.
  - unfold update_carla_traffic_light. keeps_body.
  - unfold spawn_carla_actor. keeps_body.
  - unfold destroy_carla_actor. keeps_body.
  - unfold update_carla_actor. keeps_body.
  - unfold update_sumo_traffic_light. keeps_body.
Qed.

Lemma tick_no_camera :
  ensures (tick args) (emits (λ ev, camera_spawned ev = false)).
Proof.
  eapply emits_weaken; [|apply tick_family]. intros [R c r]. simpl.
  destruct c; simpl; intros [?|[?|[?|[[_ ?]|[_ ?]]]]]; done.
Qed.

Lemma once_quiet {A} (m : M A) :
  ensures m (both (keeps record) (emits (λ ev, camera_spawned ev = false))) →
  attaches_camera_once m.
Proof.
  intros Hm st r st' evs E. apply Hm in E as [Hr Hev].
  unfold keeps in Hr. apply count_events_none in Hev. rewrite Hr, Hev.
  split; [done|]. intros _. split; [lia|done].
Qed.

Lemma once_bind {A B} (m : M A) (f : A → M B) :
  attaches_camera_once m → (∀ a, attaches_camera_once (f a)) →
  attaches_camera_once (bind m f).
Proof.
  intros Hm Hf st r st' evs
    [(e & -> & E)|(a & st1 & ev1 & ev2 & E1 & E2 & ->)]%bind_inv.
  - apply Hm in E as [Hon Hoff]. split; [done|]. intros Hr.
    destruct (Hoff Hr) as [Hle _]. split; [done|]. by intros _ [? ?].
  - apply Hm in E1 as [Hon1 Hoff1]. apply Hf in E2 as [Hon2 Hoff2].
    rewrite count_events_app. split.
    + intros Hr. destruct (Hon1 Hr) as [Hr1 ->].
      destruct (Hon2 Hr1) as [Hr2 ->]. done.
    + intros Hr. destruct (Hoff1 Hr) as [Hle1 Hset1].
      destruct (record st1) eqn:Hr1.
      * destruct (Hon2 eq_refl) as [Hr2 ->]. split; [lia|done].
      * destruct (Hoff2 eq_refl) as [Hle2 Hset2].
        assert (count_events camera_spawned ev1 = 0%nat) as ->.
        { destruct (count_events camera_spawned ev1) as [|[|n]] eqn:Hc;
            [done| |lia].
          specialize (Hset1 eq_refl (ex_intro _ a eq_refl)). congruence. }
        split; [done|]. simpl. done.
Qed.

Lemma setFrontViewCamera_once v : attaches_camera_once (setFrontViewCamera v).
Proof.
  intros st r st' evs. unfold setFrontViewCamera, set_camera.
  unfold_monad. simpl. destruct (record st) eqn:Hr; simpl.
  - intros [= <- <- <-]. split; [by rewrite Hr|done].
  - repeat run_step; intros [= <- <- <-]; (split; [done|]); intros _;
      (split; [vm_compute; lia|]); simpl; try done;
      intros _ [? ?]; done.
Qed.

Ltac quiet_body :=
  intros ? ? ? ?; unfold both, keeps, emits; run_body; intros [= <- <- <-];
  (split; [done|repeat constructor]).

Lemma do_quiet {R} (c : call Obj R) :
  (∀ r, camera_spawned (Ev c r) = false) → attaches_camera_once (do c).
Proof.
  intros Hc. apply once_quiet, ensures_both; [by apply do_keeps|].
  by apply do_emits.
Qed.

Lemma getEgo_quiet :
  ensures (getEgo ego_id)
    (both (keeps record) (emits (λ ev, camera_spawned ev = false))).
Proof. unfold getEgo. quiet_body. Qed.

Lemma moveSpectator_quiet v :
  ensures (moveSpectator v)
    (both (keeps record) (emits (λ ev, camera_spawned ev = false))).
Proof. unfold moveSpectator. quiet_body. Qed.

Lemma loop_body_once cnt : attaches_camera_once (loop_body args ego_id cnt).
Proof.
  unfold loop_body, pace. cbv zeta. unfold mbind, M_bind.
  apply once_bind; [by apply do_quiet|intros start].
  apply once_bind; [by apply do_quiet|intros _].
  apply once_bind;
    [apply once_quiet, ensures_both; [apply tick_keeps_record|apply tick_no_camera]
    |intros _].
  apply once_bind; [apply once_quiet, getEgo_quiet|intros vehicle].
  apply once_bind.
  - destruct vehicle as [v|].
    + apply once_bind; [apply once_quiet, moveSpectator_quiet|intros _].
      apply once_bind; [apply setFrontViewCamera_once|intros _].
      case_decide.
      * intros st r st' evs. rewrite front_view_image_quiet.
        intros [= _ <- <-]. split; [done|]. intros _.
        split; [unfold count_events; simpl; lia|done].
      * apply once_quiet. ens.
    + apply once_quiet. ens.
  - intros _. apply once_bind; [by apply do_quiet|intros finish].
    destruct (Qlt_le_dec _ _); [by apply do_quiet|apply once_quiet; ens].
Qed.

Lemma while_loop_once fuel cnt st r st' evs :
  while_loop args ego_id fuel cnt st = Some (r, st', evs) →
  (record st = true →
     record st' = true ∧ count_events camera_spawned evs = 0%nat) ∧
  (count_events camera_spawned evs ≤ 1)%nat.
Proof.
  revert cnt st r st' evs. induction fuel as [|fuel IH];
    intros cnt st r st' evs; simpl; [done|].
  destruct (do TraciGetMinExpectedNumber st) as [[r1 st1] ev1] eqn:E1.
  assert (record st1 = record st ∧ count_events camera_spawned ev1 = 0%nat)
    as [Hr1 Hc1].
  { revert E1. unfold do. destruct (handle _ _ _) as [r0 w0].
    by intros [= _ <- <-]. }
  destruct r1 as [n|e]; [|intros [= _ <- <-]; rewrite <- Hr1, Hc1;
                           split; [done|lia]].
  case_decide; [intros [= _ <- <-]; rewrite <- Hr1, Hc1; split; [done|lia]|].
  destruct (loop_body args ego_id cnt st1) as [[r2 st2] ev2] eqn:E2.
  apply loop_body_once in E2 as [Hon Hoff]. rewrite Hr1 in Hon, Hoff.
  destruct r2 as [[]|e].
  - destruct (while_loop _ _ fuel _ st2) as [[[r3 st3] ev3]|] eqn:E3; [|done].
    intros [= _ <- <-]. apply IH in E3 as [Hon3 Hle3].
    rewrite !count_events_app, Hc1. split.
    + intros Hr. destruct (Hon Hr) as [Hr2 ->].
      destruct (Hon3 Hr2) as [? ->]. done.
    + destruct (record st) eqn:Hr.
      * destruct (Hon eq_refl) as [Hr2 ->].
        destruct (Hon3 Hr2) as [_ ->]. simpl. lia.
      * destruct (Hoff eq_refl) as [Hle2 Hset2].
        destruct (count_events camera_spawned ev2) as [|[|k]] eqn:Hc2;
          [simpl; lia| |lia].
        destruct (Hon3 (Hset2 eq_refl (ex_intro _ () eq_refl))) as [_ ->].
        simpl. lia.
  - intros [= _ <- <-]. rewrite count_events_app, Hc1. split.
    + intros Hr. by destruct (Hon Hr) as [? ->].
    + destruct (record st) eqn:Hr.
      * destruct (Hon eq_refl) as [_ ->]. simpl. lia.
      * destruct (Hoff eq_refl) as [Hle2 _]. simpl. lia.
Qed.

(** X6.  One camera per run.  During a run of the [while] loop the front
    camera is spawned at most once, whatever the outcome of the loop and
    however many iterations find the ego vehicle; a loop started with
    [record] set spawns none. *)
Theorem camera_attached_at_most_once fuel cnt st r st' evs :
  while_loop args ego_id fuel cnt st = Some (r, st', evs) →
  (count_events camera_spawned evs ≤ 1)%nat ∧
  (record st = true → count_events camera_spawned evs = 0%nat).
Proof.
  intros [Hon Hle]%while_loop_once. split; [done|].
  intros Hr. by destruct (Hon Hr).
Qed.

(** ** [__init__] *)

(** X7.  What [__init__] leaves.  When [__init__] returns, both tables are
    empty and [record] is unset; SUMO's traffic lights have been switched
    off exactly when [tls_manager] is ['carla'], CARLA's exactly when it is
    ['sumo'], so neither for any other value; and the CARLA world has been
    given one setting, synchronous mode with the step length of the CARLA
    adapter as fixed step. *)
Theorem init_returns st st' evs :
  init args st = (Ok tt, st', evs) →
  sumo2carla_ids st' = ∅ ∧ carla2sumo_ids st' = ∅ ∧ record st' = false ∧
  (count_events switches_off_sumo_lights evs
   = if decide (tls_manager args = "carla") then 1%nat else 0%nat) ∧
  (count_events switches_off_carla_lights evs
   = if decide (tls_manager args = "sumo") then 1%nat else 0%nat) ∧
  ∃ w, omap settings_applied evs = [(true, Some (carla_step_length w))].
Proof.
  unfold init. run_body; intros ?; simplify_eq/=;
    (repeat split; try done; try congruence; by eexists).
Qed.

(** ** [close] and the tables *)

Lemma omap_destroyed_in_carla (l : list actor_id) :
  omap destroyed_in_carla
    ((λ i, Ev (Obj:=Obj) (CarlaDestroyActor i) (Ok tt)) <$> l) = l.
Proof. induction l as [|x l IH]; csimpl; [done|]. by rewrite IH. Qed.

Lemma omap_destroyed_in_sumo (l : list actor_id) :
  omap destroyed_in_sumo
    ((λ i, Ev (Obj:=Obj) (SumoDestroyActor i) (Ok tt)) <$> l) = l.
Proof. induction l as [|x l IH]; csimpl; [done|]. by rewrite IH. Qed.

Lemma omap_none {A} (f : event Obj → option A) (evs : list (event Obj)) :
  Forall (λ ev, f ev = None) evs → omap f evs = [].
Proof. induction 1 as [|ev evs Hev _ IH]; csimpl; [done|]. by rewrite Hev. Qed.

Lemma close_destroys st st' evs :
  close st = (Ok tt, st', evs) →
  omap destroyed_in_carla evs = dict_values (sumo2carla_ids st) ∧
  omap destroyed_in_sumo evs = dict_values (carla2sumo_ids st).
Proof.
  intros (settings & ->)%close_ok. rewrite !omap_app.
  rewrite omap_destroyed_in_carla, omap_destroyed_in_sumo.
  rewrite (omap_none destroyed_in_sumo
             ((λ i, Ev (CarlaDestroyActor i) (Ok tt)) <$> _))
    by (apply Forall_fmap, Forall_forall; done).
  rewrite (omap_none destroyed_in_carla
             ((λ i, Ev (SumoDestroyActor i) (Ok tt)) <$> _))
    by (apply Forall_fmap, Forall_forall; done).
  simpl. by rewrite !app_nil_r.
Qed.

(** X8.  [close] does not empty the tables.  Whatever its outcome, [close]
    leaves both tables as they were; so a second [close] that returns
    destroys again every mirror the first one destroyed: every value of
    [sumo2carla_ids] in CARLA and every value of [carla2sumo_ids] in SUMO. *)
Theorem close_keeps_the_tables st r st' evs :
  close st = (r, st', evs) →
  sumo2carla_ids st' = sumo2carla_ids st ∧
  carla2sumo_ids st' = carla2sumo_ids st ∧
  (r = Ok tt →
   ∀ st2 ev2, close st' = (Ok tt, st2, ev2) →
     omap destroyed_in_carla ev2 = omap destroyed_in_carla evs ∧
     omap destroyed_in_sumo ev2 = omap destroyed_in_sumo evs ∧
     omap destroyed_in_carla evs = dict_values (sumo2carla_ids st) ∧
     omap destroyed_in_sumo evs = dict_values (carla2sumo_ids st)).
Proof.
  intros E. destruct (close_keeps _ _ _ _ E) as [Hs Hc]. unfold keeps in *.
  split; [done|split; [done|]]. intros -> st2 ev2 E2.
  apply close_destroys in E as [-> ->].
  apply close_destroys in E2 as [-> ->]. by rewrite Hs, Hc.
Qed.

(** ** [getEgo] *)

(** X9.  Looking up the ego vehicle.  [getEgo] changes no table.  When
    [ego_id] is no key of [sumo2carla_ids] it looks up no CARLA actor, and
    the value it returns, if it returns, is [None], whatever
    [carla2sumo_ids] holds; when [ego_id] is mapped to [c] and [getEgo]
    returns, its last call is [carla.get_actor(c)] and it returns the
    answer.  It raises only what one of its calls raised: its subscript
    never raises [KeyError]. *)
Theorem getEgo_looks_up_the_mirror st r st' evs :
  getEgo ego_id st = (r, st', evs) →
  sumo2carla_ids st' = sumo2carla_ids st ∧
  carla2sumo_ids st' = carla2sumo_ids st ∧
  (∀ e, r = Raise e → last evs ≫= raised = Some e) ∧
  (sumo2carla_ids st !! ego_id = None →
   omap carla_spawn_source evs = [] ∧ ∀ v, r = Ok v → v = None) ∧
  (∀ c v, sumo2carla_ids st !! ego_id = Some c → r = Ok v →
   omap carla_spawn_source evs = [c] ∧
   last evs = Some (Ev (CarlaGetActor c) (Ok v))).
Proof.
  unfold getEgo. unfold_monad. simpl.
  destruct (handle _ WorldGetVehicles (world st)) as [[l|e] w]; simpl.
  - destruct (decide (ego_id ∈ dom (sumo2carla_ids st))) as [Hin|Hout].
    + apply elem_of_dom in Hin as [c Hc]. rewrite Hc. simpl.
      destruct (handle _ (CarlaGetActor c) w) as [[v|e] w1]; simpl;
        intros [= <- <- <-]; simpl;
        (repeat split; try done; intros; simplify_eq; try done; congruence).
    + apply not_elem_of_dom in Hout. rewrite Hout. simpl.
      intros [= <- <- <-]; simpl.
      repeat split; try done; intros; simplify_eq; try done; congruence.
  - intros [= <- <- <-]; simpl.
    repeat split; try done; intros; simplify_eq; try done; congruence.
Qed.

(** ** Leaving the loop *)

Lemma close_logs_nothing :
  ensures close (emits (λ ev, logged ev = None)).
Proof.
  apply close_ensures; [apply _|]. intros R c Hc. apply do_emits.
  intros r. by destruct c.
Qed.

(** X10.  What the run returns.  Provided [logging.info] and the calls of
    [close] do not raise: a loop left by [KeyboardInterrupt] makes the run
    return normally, after logging ['Cancelled by user.'] and ['Cleaning
    synchronization']; a loop left by any other exception makes the run
    raise that same exception, and a loop that returned makes it return,
    both after logging ['Cleaning synchronization'] only. *)
Theorem cancellation_is_not_an_error r0 st0 ev0 st r st' evs :
  logging_returns → close_calls_return →
  leave_loop (r0, st0, ev0) st = (r, st', evs) →
  r = match r0 with Raise KeyboardInterrupt => Ok tt | _ => r0 end ∧
  omap logged evs =
    omap logged ev0
    ++ match r0 with
       | Raise KeyboardInterrupt => ["Cancelled by user."]
       | _ => []
       end
    ++ ["Cleaning synchronization"].
Proof.
  intros Hlog Hclose. rewrite leave_loop_unfold.
  assert (∀ st_a (r_a : result unit) pre,
    match bind (do (LoggingInfo "Cleaning synchronization"))
            (λ _, close) st_a with
    | (Ok _, st2, ev2) => (r_a, st2, pre ++ ev2)
    | (Raise e, st2, ev2) => (Raise e, st2, pre ++ ev2)
    end = (r, st', evs) →
    r = r_a ∧ omap logged evs = omap logged pre ++ ["Cleaning synchronization"])
    as Hfin.
  { intros st_a r_a pre.
    destruct (log_then_close "Cleaning synchronization" st_a Hlog) as (w & ->).
    destruct (close_returns (set_world w st_a) Hclose) as (st2 & ev2 & E2).
    rewrite E2. intros [= <- _ <-]. split; [done|].
    apply close_logs_nothing in E2. rewrite omap_app. csimpl.
    by rewrite (omap_none _ _ E2). }
  destruct r0 as [[]|e].
  - intros [-> ->]%Hfin. by rewrite app_nil_l.
  - destruct e; try (intros [-> ->]%Hfin; by rewrite app_nil_l).
    destruct (Hlog "Cancelled by user." (world st0)) as (w & Ew).
    unfold do at 1. rewrite Ew. intros [-> ->]%Hfin.
    rewrite omap_app. csimpl. by rewrite <- app_assoc.
Qed.

(** ** A tick with nothing to do *)

Lemma destroy_sumo_loop_unmapped l st :
  sumo2carla_ids st = ∅ → for_each l destroy_sumo_actor st = (Ok tt, st, []).
Proof.
  intros Hs. induction l as [|x l IH]; [done|].
  rewrite (for_each_cons_ok _ _ _ _ st []); [by rewrite IH|].
  apply destroy_sumo_actor_unmapped. by rewrite Hs.
Qed.

Lemma destroy_carla_loop_unmapped l st :
  carla2sumo_ids st = ∅ → for_each l destroy_carla_actor st = (Ok tt, st, []).
Proof.
  intros Hs. induction l as [|x l IH]; [done|].
  rewrite (for_each_cons_ok _ _ _ _ st []); [by rewrite IH|].
  apply destroy_carla_actor_unmapped. by rewrite Hs.
Qed.

Lemma dict_keys_empty : dict_keys ∅ = [].
Proof. unfold dict_keys. by rewrite map_to_list_empty. Qed.

Lemma value_set_empty : value_set ∅ = ∅.
Proof. unfold value_set, dict_values. by rewrite map_to_list_empty. Qed.

Lemma sumo_pass_idle st w1 :
  sumo2carla_ids st = ∅ → carla2sumo_ids st = ∅ → tls_manager args ≠ "sumo" →
  handle _ SumoTick (world st) = (Ok tt, w1) → sumo_spawned_actors w1 = ∅ →
  sumo_pass args st = (Ok tt, set_world w1 st, [Ev SumoTick (Ok tt)]).
Proof.
  intros Hs Hc Hns E1 Hs1.
  assert (do SumoTick st = (Ok tt, set_world w1 st, [Ev SumoTick (Ok tt)]))
    as Etick by (unfold do; by rewrite E1).
  assert (spawn_sumo_actors args (set_world w1 st)
          = (Ok tt, set_world w1 st, [])) as Espawn.
  { unfold spawn_sumo_actors, mbind, M_bind, bind, gets, sumo_spawned. simpl.
    by rewrite Hs1, Hc, value_set_empty, difference_diag_L, elements_empty. }
  assert (destroy_sumo_actors (set_world w1 st)
          = (Ok tt, set_world w1 st, [])) as Edestroy.
  { unfold destroy_sumo_actors, mbind, M_bind, bind, gets.
    by rewrite destroy_sumo_loop_unmapped. }
  assert (update_sumo_actors args (set_world w1 st)
          = (Ok tt, set_world w1 st, [])) as Eupdate.
  { unfold update_sumo_actors, mbind, M_bind, bind, gets. simpl.
    by rewrite Hs, dict_keys_empty. }
  unfold sumo_pass, sumo_pass_after_spawn, mbind, M_bind.
  rewrite (bind_ok _ _ _ _ _ _ Etick), (bind_ok _ _ _ _ _ _ Espawn),
    (bind_ok _ _ _ _ _ _ Edestroy), (bind_ok _ _ _ _ _ _ Eupdate).
  by rewrite update_carla_traffic_lights_off.
Qed.

Lemma carla_pass_idle st w2 :
  sumo2carla_ids st = ∅ → carla2sumo_ids st = ∅ → tls_manager args ≠ "carla" →
  handle _ CarlaTick (world st) = (Ok tt, w2) → carla_spawned_actors w2 = ∅ →
  carla_pass args st = (Ok tt, set_world w2 st, [Ev CarlaTick (Ok tt)]).
Proof.
  intros Hs Hc Hnc E2 Hs2.
  assert (do CarlaTick st = (Ok tt, set_world w2 st, [Ev CarlaTick (Ok tt)]))
    as Etick by (unfold do; by rewrite E2).
  assert (spawn_carla_actors args (set_world w2 st)
          = (Ok tt, set_world w2 st, [])) as Espawn.
  { unfold spawn_carla_actors, mbind, M_bind, bind, gets, carla_spawned. simpl.
    by rewrite Hs2, Hs, value_set_empty, difference_diag_L, elements_empty. }
  assert (destroy_carla_actors (set_world w2 st)
          = (Ok tt, set_world w2 st, [])) as Edestroy.
  { unfold destroy_carla_actors, mbind, M_bind, bind, gets.
    by rewrite destroy_carla_loop_unmapped. }
  assert (update_carla_actors args (set_world w2 st)
          = (Ok tt, set_world w2 st, [])) as Eupdate.
  { unfold update_carla_actors, mbind, M_bind, bind, gets. simpl.
    by rewrite Hc, dict_keys_empty. }
  unfold carla_pass, carla_pass_after_spawn, mbind, M_bind.
  rewrite (bind_ok _ _ _ _ _ _ Etick), (bind_ok _ _ _ _ _ _ Espawn),
    (bind_ok _ _ _ _ _ _ Edestroy), (bind_ok _ _ _ _ _ _ Eupdate).
  by rewrite update_sumo_traffic_lights_off.
Qed.

(** X11.  An idle tick.  With both tables empty, no traffic-light manager
    among the two simulators, and two world ticks that return and report
    nothing spawned, a tick makes no other call than the two world ticks
    and returns, whatever the simulators report as destroyed. *)
Theorem idle_tick_only_steps st w1 w2 :
  sumo2carla_ids st = ∅ → carla2sumo_ids st = ∅ →
  tls_manager args ≠ "sumo" → tls_manager args ≠ "carla" →
  handle _ SumoTick (world st) = (Ok tt, w1) → sumo_spawned_actors w1 = ∅ →
  handle _ CarlaTick w1 = (Ok tt, w2) → carla_spawned_actors w2 = ∅ →
  tick args st
  = (Ok tt, set_world w2 st, [Ev SumoTick (Ok tt); Ev CarlaTick (Ok tt)]).
Proof.
  intros Hs Hc Hns Hnc E1 Hs1 E2 Hs2. unfold tick, mbind, M_bind.
  rewrite (bind_ok _ _ _ _ _ _ (sumo_pass_idle st w1 Hs Hc Hns E1 Hs1)).
  by rewrite (carla_pass_idle (set_world w1 st) w2).
Qed.

(** ** A construction that fails *)

Lemma construct_leaves_open :
  ensures (construct args)
    (emits (λ ev, closes_adapter ev = false ∧ logged ev = None ∧
                  ∀ p, settings_applied ev = Some p → p.1 = true)).
Proof.
  unfold construct, init.
  repeat first
    [ progress ens
    | case_decide
    | apply modify_emits
    | (apply do_emits; intros ?; simpl; repeat split; try done;
       by intros ? [= <-]) ].
Qed.

(** X12.  No teardown after a failed construction.  When one of the two
    adapter constructors or [__init__] raises, [synchronization_loop] raises
    that exception without entering the loop, whatever the fuel: by then no
    adapter has been closed, nothing has been logged, and the CARLA world
    has not been put back in asynchronous mode. *)
Theorem failed_construction_is_not_torn_down fuel w e st1 ev1 :
  construct args (fresh_sync w) = (Raise e, st1, ev1) →
  synchronization_loop args ego_id fuel w = Some (Raise e, st1, ev1) ∧
  Forall (λ ev, closes_adapter ev = false ∧ logged ev = None ∧
                ∀ p, settings_applied ev = Some p → p.1 = true) ev1.
Proof.
  intros E. split; [unfold synchronization_loop; by rewrite E|].
  by apply construct_leaves_open in E.
Qed.

(** ** The exceptions of the loop's own code *)

Lemma getEgo_raises : raises_no_other (getEgo ego_id).
Proof.
  intros st r st' evs. unfold getEgo. unfold_monad. simpl.
  destruct (handle _ WorldGetVehicles (world st)) as [[l|e] w]; simpl;
    [|intros [= <- _ <-]; by left].
  destruct (decide (ego_id ∈ dom (sumo2carla_ids st))) as [Hin|Hout];
    [|by intros [= <- _ _]].
  apply elem_of_dom in Hin as [c Hc]. rewrite Hc. simpl.
  destruct (handle _ (CarlaGetActor c) w) as [[v|e] w1]; simpl;
    intros [= <- _ <-]; [done|by left].
Qed.

Lemma moveSpectator_raises v : raises_no_other (moveSpectator v).
Proof. unfold moveSpectator. body_raises. Qed.

Lemma setFrontViewCamera_raises v : raises_no_other (setFrontViewCamera v).
Proof. unfold setFrontViewCamera. body_raises. Qed.

Lemma loop_body_raises cnt : raises_no_other (loop_body args ego_id cnt).
Proof.
  unfold loop_body, pace. cbv zeta.
  repeat first
    [ progress raises
    | apply tick_raises | apply getEgo_raises | apply moveSpectator_raises
    | apply setFrontViewCamera_raises
    | lazymatch goal with
      | |- raises_no_other (match ?o with Some _ => _ | None => _ end) =>
          destruct o
      end ].
  intros st r st' evs. rewrite front_view_image_quiet. by intros [= <- _ _].
Qed.

Lemma while_loop_raises fuel cnt st r st' evs :
  while_loop args ego_id fuel cnt st = Some (r, st', evs) →
  raised_by_call_or_missing_actor r evs.
Proof.
  revert cnt st r st' evs. induction fuel as [|fuel IH];
    intros cnt st r st' evs; simpl; [done|].
  destruct (do TraciGetMinExpectedNumber st) as [[r1 st1] ev1] eqn:E1.
  apply raises_no_other_do in E1.
  destruct r1 as [n|e]; [|by intros [= <- _ <-]].
  case_decide; [by intros [= <- _ _]|].
  destruct (loop_body args ego_id cnt st1) as [[r2 st2] ev2] eqn:E2.
  apply loop_body_raises in E2. destruct r2 as [[]|e].
  - destruct (while_loop _ _ fuel _ st2) as [[[r3 st3] ev3]|] eqn:E3; [|done].
    intros [= <- _ <-]. apply IH in E3. by do 2 apply missing_actor_app.
  - intros [= <- _ <-]. by apply missing_actor_app.
Qed.

(** X13.  The exceptions of the loop.  A [while] loop that ends with an
    exception [e] either made a call that raised [e], as its last call, or
    no call of it raised, [e] is [AttributeError] and [carla.get_actor]
    answered [None] during the run.  In particular the [NameError] of an
    image buffer that was never set does not end the loop, and the subscript
    of [getEgo] never raises [KeyError]. *)
Theorem loop_raises_only fuel cnt st e st' evs :
  while_loop args ego_id fuel cnt st = Some (Raise e, st', evs) →
  last evs ≫= raised = Some e ∨
  (e = AttributeError ∧ clean evs ∧ omap not_found evs ≠ []).
Proof.
  intros E. destruct (while_loop_raises _ _ _ _ _ _ E) as [H|[-> H]];
    [by left|].
  destruct (while_loop_stops _ _ _ _ _ _ E)
    as [Hc|(evs0 & ev & e' & -> & _ & He & [= <-])].
  - by right.
  - left. rewrite last_snoc. simpl. done.
Qed.

(** ** What the spawn loops leave alone *)

#[local] Instance keeps_keys_stable (f : Sync → gmap actor_id actor_id) :
  Stable (keeps_keys f).
Proof. split; unfold keeps_keys; [done|]. intros; eauto. Qed.

Lemma spawn_sumo_actor_adds i :
  ensures (spawn_sumo_actor args i)
    (both (keeps_keys sumo2carla_ids)
       (emits (λ ev, destroyed_in_carla ev = None ∧ pushed_to_carla ev = None))).
Proof.
  intros st r st' evs. unfold spawn_sumo_actor, both, keeps_keys, emits.
  run_body; intros [= <- <- <-]; simpl;
    (split; [|by repeat constructor]); intros k Hk; try done.
  destruct (decide (k = i)) as [->|?];
    [by rewrite lookup_insert_eq|by rewrite lookup_insert_ne].
Qed.

Lemma spawn_carla_actor_adds i :
  ensures (spawn_carla_actor args i)
    (both (keeps_keys carla2sumo_ids)
       (emits (λ ev, destroyed_in_sumo ev = None ∧ pushed_to_sumo ev = None))).
Proof.
  intros st r st' evs. unfold spawn_carla_actor, both, keeps_keys, emits.
  run_body; intros [= <- <- <-]; simpl;
    (split; [|by repeat constructor]); intros k Hk; try done;
    (destruct (decide (k = i)) as [->|?];
      [by rewrite lookup_insert_eq|by rewrite lookup_insert_ne]).
Qed.

(** X14.  The spawn loops only add.  Whatever its outcome, a spawn loop
    removes no key from its table, and makes no destroy call and no update
    of a vehicle in the simulator it spawns in: a vehicle that goes through
    the loop while it has a mirror keeps an entry, and the mirror it had is
    not destroyed. *)
Theorem spawn_loops_only_add st r st' evs :
  (spawn_sumo_actors args st = (r, st', evs) →
   (∀ k, is_Some (sumo2carla_ids st !! k) → is_Some (sumo2carla_ids st' !! k)) ∧
   Forall (λ ev, destroyed_in_carla ev = None ∧ pushed_to_carla ev = None) evs) ∧
  (spawn_carla_actors args st = (r, st', evs) →
   (∀ k, is_Some (carla2sumo_ids st !! k) → is_Some (carla2sumo_ids st' !! k)) ∧
   Forall (λ ev, destroyed_in_sumo ev = None ∧ pushed_to_sumo ev = None) evs).
Proof.
  split; intros E.
  - revert st r st' evs E.
    change (ensures (spawn_sumo_actors args)
              (both (keeps_keys sumo2carla_ids)
                 (emits (λ ev, destroyed_in_carla ev = None ∧
                               pushed_to_carla ev = None)))).
    unfold spawn_sumo_actors. ens. apply spawn_sumo_actor_adds.
  - revert st r st' evs E.
    change (ensures (spawn_carla_actors args)
              (both (keeps_keys carla2sumo_ids)
                 (emits (λ ev, destroyed_in_sumo ev = None ∧
                               pushed_to_sumo ev = None)))).
    unfold spawn_carla_actors. ens. apply spawn_carla_actor_adds.
Qed.

(** ** A spawn that fails stays subscribed *)


(** ** An entry is removed before its mirror is destroyed *)

(** X16.  The entry goes first.  The destroy loop removes the entry of a
    vehicle from the table before it asks the other simulator to destroy the
    mirror: when that call raises, the entry is gone all the same, and a
    later pass over the same vehicle makes no call. *)
Theorem entry_is_removed_before_the_destroy a b st r st' evs :
  (destroy_sumo_actor a st = (r, st', evs) →
   sumo2carla_ids st !! a = Some b →
   sumo2carla_ids st' = delete a (sumo2carla_ids st) ∧
   omap destroyed_in_carla evs = [b] ∧
   (∀ e, r = Raise e → last evs ≫= raised = Some e) ∧
   destroy_sumo_actor a st' = (Ok tt, st', [])) ∧
  (destroy_carla_actor a st = (r, st', evs) →
   carla2sumo_ids st !! a = Some b →
   carla2sumo_ids st' = delete a (carla2sumo_ids st) ∧
   omap destroyed_in_sumo evs = [b] ∧
   (∀ e, r = Raise e → last evs ≫= raised = Some e) ∧
   destroy_carla_actor a st' = (Ok tt, st', [])).
Proof.
  split; intros E Hb.
  - rewrite (destroy_sumo_actor_mapped _ _ _ Hb) in E.
    destruct (handle _ _ _) as [r1 w1]. injection E as <- <- <-. simpl.
    repeat split; [by intros e ->|].
    apply destroy_sumo_actor_unmapped. simpl. apply lookup_delete_eq.
  - rewrite (destroy_carla_actor_mapped _ _ _ Hb) in E.
    destruct (handle _ _ _) as [r1 w1]. injection E as <- <- <-. simpl.
    repeat split; [by intros e ->|].
    apply destroy_carla_actor_unmapped. simpl. apply lookup_delete_eq.
Qed.

(** ** The order of [close] *)

Lemma close_cut st :
  close st = bind close_until_adapters (λ _, close_adapters) st.
Proof.
  unfold close, close_until_adapters, close_adapters, mbind, M_bind.
  rewrite !bind_assoc. apply bind_ext. intros settings st1.
  rewrite !bind_assoc. apply bind_ext. intros _ st2.
  rewrite !bind_assoc. apply bind_ext. intros ids st3.
  rewrite !bind_assoc. apply bind_ext. intros _ st4.
  rewrite !bind_assoc. done.
Qed.

Lemma close_until_adapters_closes_none :
  ensures close_until_adapters (emits (λ ev, closes_adapter ev = false)).
Proof.
  unfold close_until_adapters.
  repeat first [progress ens | by apply do_emits].
Qed.

Lemma close_until_adapters_ok st st' evs :
  close_until_adapters st = (Ok tt, st', evs) →
  clean evs ∧
  omap destroyed_in_carla evs = dict_values (sumo2carla_ids st) ∧
  omap destroyed_in_sumo evs = dict_values (carla2sumo_ids st) ∧
  omap settings_applied evs = [(false, None)].
Proof.
  unfold close_until_adapters, mbind, M_bind.
  intros (settings & st1 & ev1 & ? & E1 & E & ->)%bind_ok_inv.
  apply bind_ok_inv in E as ([] & st2 & ev2 & ? & E2 & E & ->).
  apply bind_ok_inv in E as (ids1 & st3 & ev3 & ? & E3 & E & ->).
  apply bind_ok_inv in E as ([] & st4 & ev4 & ev5 & E4 & E5 & ->).
  apply bind_ok_inv in E5 as (ids2 & st5 & ev6 & ev7 & E5 & E6 & ->).
  injection E3 as <- <- <-. injection E5 as <- <- <-.
  apply destroy_all_in_carla in E4 as (-> & _ & Hc).
  apply destroy_all_in_sumo in E6 as (-> & _ & _).
  pose proof (do_keeps_sumo2carla _ _ _ _ _ E1) as H1.
  pose proof (do_keeps_sumo2carla _ _ _ _ _ E2) as H2.
  pose proof (do_keeps_carla2sumo _ _ _ _ _ E1) as H3.
  pose proof (do_keeps_carla2sumo _ _ _ _ _ E2) as H4.
  unfold keeps in *. rewrite Hc, H2, H1, H4, H3.
  revert E1 E2. unfold do.
  repeat (destruct (handle _ _ _) as [[?|?] ?]); intros; simplify_eq/=.
  rewrite !omap_app, omap_destroyed_in_carla, omap_destroyed_in_sumo.
  rewrite (omap_none destroyed_in_sumo
             ((λ i, Ev (CarlaDestroyActor i) (Ok tt)) <$> _))
    by (apply Forall_fmap, Forall_forall; done).
  rewrite (omap_none destroyed_in_carla
             ((λ i, Ev (SumoDestroyActor i) (Ok tt)) <$> _))
    by (apply Forall_fmap, Forall_forall; done).
  rewrite (omap_none settings_applied
             ((λ i, Ev (CarlaDestroyActor i) (Ok tt)) <$> _))
    by (apply Forall_fmap, Forall_forall; done).
  rewrite (omap_none settings_applied
             ((λ i, Ev (SumoDestroyActor i) (Ok tt)) <$> _))
    by (apply Forall_fmap, Forall_forall; done).
  rewrite !app_nil_r. repeat split; try done.
  unfold clean. repeat constructor. apply Forall_app.
  split; apply Forall_fmap, Forall_forall; done.
Qed.

(** X17.  Adapters are closed last.  Whatever the outcome of [close], if it
    called [carla.close()] or [sumo.close()] then, before that, the CARLA
    world was put in asynchronous mode with no fixed step and every value
    of [sumo2carla_ids] was destroyed in CARLA and every value of
    [carla2sumo_ids] in SUMO, no call raising: a [close] in which a destroy
    call raises closes no adapter. *)
Theorem adapters_are_closed_last st r st' evs :
  close st = (r, st', evs) →
  Exists (λ ev, closes_adapter ev = true) evs →
  ∃ ev1 ev2,
    evs = ev1 ++ ev2 ∧ clean ev1 ∧
    Forall (λ ev, closes_adapter ev = false) ev1 ∧
    Forall (λ ev, closes_adapter ev = true) ev2 ∧
    omap destroyed_in_carla ev1 = dict_values (sumo2carla_ids st) ∧
    omap destroyed_in_sumo ev1 = dict_values (carla2sumo_ids st) ∧
    omap settings_applied ev1 = [(false, None)].
Proof.
  rewrite close_cut.
  intros [(e & -> & E)|([] & st1 & ev1 & ev2 & E1 & E2 & ->)]%bind_inv Hex.
  - apply close_until_adapters_closes_none in E. unfold emits in E.
    rewrite Forall_forall in E. apply Exists_exists in Hex as (ev & Hin & Hev).
    apply E in Hin. congruence.
  - exists ev1, ev2. split; [done|].
    pose proof (close_until_adapters_closes_none _ _ _ _ E1) as Hnone.
    apply close_until_adapters_ok in E1 as (? & ? & ? & ?).
    repeat split; try done.
    revert E2. unfold close_adapters. run_body; intros [= <- <- <-];
      by repeat constructor.
Qed.

(** ** The colour and light switches *)

Lemma tick_follows_the_switches :
  ensures (tick args)
    (emits (λ ev,
       (∀ b, blueprint_color_flag ev = Some b → b = sync_vehicle_color args) ∧
       (sync_vehicle_color args = false →
        ∀ c, spawn_color ev = Some c → c = None) ∧
       (sync_vehicle_lights args = false →
        reads_lights ev = false ∧
        (∀ p, pushed_to_carla ev = Some p → p.2 = None) ∧
        (∀ p, pushed_to_sumo ev = Some p → p.2 = None)))).
Proof.
  assert (∀ (m : M unit),
    (∀ st r st' evs, m st = (r, st', evs) →
       Forall (λ ev,
         (∀ b, blueprint_color_flag ev = Some b → b = sync_vehicle_color args) ∧
         (sync_vehicle_color args = false →
          ∀ c, spawn_color ev = Some c → c = None) ∧
         (sync_vehicle_lights args = false →
          reads_lights ev = false ∧
          (∀ p, pushed_to_carla ev = Some p → p.2 = None) ∧
          (∀ p, pushed_to_sumo ev = Some p → p.2 = None))) evs) →
    ensures m (emits (λ ev,
       (∀ b, blueprint_color_flag ev = Some b → b = sync_vehicle_color args) ∧
       (sync_vehicle_color args = false →
        ∀ c, spawn_color ev = Some c → c = None) ∧
       (sync_vehicle_lights args = false →
        reads_lights ev = false ∧
        (∀ p, pushed_to_carla ev = Some p → p.2 = None) ∧
        (∀ p, pushed_to_sumo ev = Some p → p.2 = None))))) as Hbody by done.
  apply tick_ensures; try apply _;
    try (apply do_emits; intros ?; simpl; by repeat split);
    intros i; apply Hbody; intros st r st' evs.
  - unfold spawn_sumo_actor. run_body; intros [= <- <- <-];
      repeat constructor; simpl; intros; by simplify_eq.
  - unfold destroy_sumo_actor. run_body; intros [= <- <- <-];
      repeat constructor; simpl; intros; by simplify_eq.
  - unfold update_sumo_actor. run_body; intros [= <- <- <-];
      repeat constructor; simpl; intros; by simplify_eq.
  - unfold update_carla_traffic_light. run_body; intros [= <- <- <-];
      repeat constructor; simpl; intros; by simplify_eq.
  - unfold spawn_carla_actor. run_body; intros [= <- <- <-];
      repeat constructor; simpl; intros; by simplify_eq.
  - unfold destroy_carla_actor. run_body; intros [= <- <- <-];
      repeat constructor; simpl; intros; by simplify_eq.
  - unfold update_carla_actor. run_body; intros [= <- <- <-];
      repeat constructor; simpl; intros; by simplify_eq.
  - unfold update_sumo_traffic_light. run_body; intros [= <- <- <-];
      repeat constructor; simpl; intros; by simplify_eq.
Qed.

(** X18.  The colour and light switches.  Whatever the outcome of a tick:
    every blueprint is requested with the value of [sync_vehicle_color];
    with [sync_vehicle_color] unset every SUMO mirror is spawned with no
    colour; with [sync_vehicle_lights] unset the tick reads and translates
    no vehicle lights and every update it pushes, to CARLA or to SUMO,
    carries no lights. *)
Theorem switches_are_followed st r st' evs :
  tick args st = (r, st', evs) →
  Forall (λ ev,
    (∀ b, blueprint_color_flag ev = Some b → b = sync_vehicle_color args) ∧
    (sync_vehicle_color args = false → ∀ c, spawn_color ev = Some c → c = None) ∧
    (sync_vehicle_lights args = false →
     reads_lights ev = false ∧
     (∀ p, pushed_to_carla ev = Some p → p.2 = None) ∧
     (∀ p, pushed_to_sumo ev = Some p → p.2 = None))) evs.
Proof. apply tick_follows_the_switches. Qed.

(** ** Leaving the loop normally *)

(** X19.  The loop returns when nothing is pending.  A [while] loop that
    returns, rather than raising, ends with a call of
    [traci.simulation.getMinExpectedNumber()] that answered [0]: after the
    last iteration the condition was checked once more, and nothing was
    called after that check. *)
Theorem loop_returns_when_nothing_is_pending fuel cnt st st' evs :
  while_loop args ego_id fuel cnt st = Some (Ok tt, st', evs) →
  last evs = Some (Ev TraciGetMinExpectedNumber (Ok 0)).
Proof.
  revert cnt st st' evs. induction fuel as [|fuel IH];
    intros cnt st st' evs; simpl; [done|].
  unfold do. destruct (handle _ TraciGetMinExpectedNumber (world st))
    as [[n|e] w1]; [|done].
  case_decide as Hn; [subst n; by intros [= <- <-]|].
  destruct (loop_body args ego_id cnt _) as [[[[]|e] st2] ev2]; [|done].
  destruct (while_loop _ _ fuel _ st2) as [[[r3 st3] ev3]|] eqn:E3; [|done].
  intros [= -> <- <-]. apply IH in E3. simpl.
  by rewrite app_comm_cons, last_app, E3.
Qed.

End Properties.

(** * Runs against the scripted simulators *)

Section Runs.

Import Double.

Lemma double_logging_returns : logging_returns (sims := Double.sims).
Proof. intros msg w. by exists w. Qed.

Lemma double_close_calls_return : close_calls_return (sims := Double.sims).
Proof. intros R c w. destruct c; try done; intros _; by eexists _, _. Qed.

(** The mirror [1000] is not addressed; only ["v1"] is. *)
Lemma no_remirroring_of_mirrors_run :
  ∃ r st' evs,
    spawn_sumo_actors cfg mirror_reported = (r, st', evs) ∧
    Forall (λ ev, ∀ i, sumo_spawn_source ev = Some i →
              i ∈ sumo_spawned_actors (world mirror_reported) ∧
              i ∉ value_set (carla2sumo_ids mirror_reported)) evs ∧
    carla2sumo_ids st' = carla2sumo_ids mirror_reported ∧
    ∀ k, k ∈ value_set (carla2sumo_ids mirror_reported) →
         sumo2carla_ids st' !! k = sumo2carla_ids mirror_reported !! k.
Proof.
  eexists _, _, _. split; [vm_compute; reflexivity|].
  refine (proj1 (no_remirroring_of_mirrors cfg mirror_reported _ _ _) _).
  vm_compute. reflexivity.
Defined.

Lemma no_orphan_mirrors_run :
  ∃ st ev0 st' evs,
    tick_until_sumo_destroy cfg orphan_start = (Ok tt, st, ev0) ∧
    tick cfg orphan_start = (Ok tt, st', evs) ∧
    (∃ ev1, evs = ev0 ++ ev1 ∧ Ev (CarlaDestroyActor (IdInt 1)) (Ok tt) ∈ ev1) ∧
    sumo2carla_ids st' !! IdStr "v1" = None.
Proof.
  eexists _, _, _, _. split; [vm_compute; reflexivity|].
  split; [vm_compute; reflexivity|].
  refine (proj1 (no_orphan_mirrors cfg) orphan_start _ _ _ _
            (IdStr "v1") (IdInt 1) _ _ _ _); vm_compute; reflexivity.
Defined.

(** Of SUMO's two traffic lights only ["tl7"], which CARLA has too, is
    pushed. *)
Lemma traffic_light_authority_run :
  ∃ st' evs,
    update_carla_traffic_lights (config "sumo" false) lights_start
    = (Ok tt, st', evs) ∧
    length evs = 3%nat ∧
    ∃ landmarks,
      NoDup landmarks ∧
      (∀ l, l ∈ landmarks ↔
            l ∈ sumo_traffic_light_ids (world lights_start) ∧
            l ∈ carla_traffic_light_ids (world lights_start)) ∧
      lights_pushed_to_carla landmarks evs.
Proof.
  eexists _, _. split; [vm_compute; reflexivity|].
  split; [vm_compute; reflexivity|].
  refine (proj1 (proj2 (proj2 (traffic_light_authority (config "sumo" false)
            lights_start (Ok tt) _ _))) _ _); vm_compute; reflexivity.
Defined.

Lemma unconditional_state_overwrite_run :
  ∃ st' evs,
    sumo_pass_after_spawn cfg update_start = (Ok tt, st', evs) ∧
    ∃ st1 ev1 ev2 ev3,
      destroy_sumo_actors update_start = (Ok tt, st1, ev1) ∧
      evs = ev1 ++ ev2 ++ ev3 ∧
      Forall (λ ev, pushed_to_carla ev = None) (ev1 ++ ev3) ∧
      vehicles_pushed_to_carla (sync_vehicle_lights cfg)
        (map_to_list (sumo2carla_ids st1)) ev2 ∧
      (omap pushed_to_carla ev2).*1 = dict_values (sumo2carla_ids st1) ∧
      (sync_vehicle_lights cfg = false →
         Forall (λ p, p.2 = None) (omap pushed_to_carla ev2)).
Proof.
  eexists _, _. split; [vm_compute; reflexivity|].
  refine (proj1 (unconditional_state_overwrite cfg update_start _ _) _).
  vm_compute; reflexivity.
Defined.


(** C6 fails on the code.  SUMO reports ["v1"] as spawned and [get_actor]
    fails on it: the tick raises at that call, CARLA is not ticked, its new
    actor [7] is not mirrored, and the [while] loop ends with the exception
    although SUMO has work pending. *)
Lemma stale_actor_aborts_tick :
  ∃ st' st'',
    tick cfg stale_start
    = (Raise stale_error, st',
       [Ev SumoTick (Ok tt); Ev (SumoSubscribe (IdStr "v1")) (Ok tt);
        Ev (SumoGetActor (IdStr "v1")) (Raise stale_error)]) ∧
    carla_script (world st') = [frame [IdInt 7] [] [] []] ∧
    carla2sumo_ids st' = ∅ ∧
    while_loop cfg (IdInt 0) 5 0 stale_start
    = Some (Raise stale_error, st'',
       [Ev TraciGetMinExpectedNumber (Ok 2); Ev TimeTime (Ok 0%Q);
        Ev TraciSimulationStep (Ok tt);
        Ev SumoTick (Ok tt); Ev (SumoSubscribe (IdStr "v1")) (Ok tt);
        Ev (SumoGetActor (IdStr "v1")) (Raise stale_error)]) ∧
    sumo_script (world st'') = [empty_frame].
Proof.
  eexists _, _. split; [vm_compute; reflexivity|].
  split; [vm_compute; reflexivity|]. split; [vm_compute; reflexivity|].
  split; vm_compute; reflexivity.
Qed.

Lemma failure_aborts_tick_and_loop_run :
  ∃ r st' evs,
    tick cfg stale_start = (r, st', evs) ∧
    Ev (SumoGetActor (IdStr "v1")) (Raise stale_error) ∈ evs ∧
    r = Raise stale_error ∧
    last evs = Some (Ev (SumoGetActor (IdStr "v1")) (Raise stale_error)).
Proof.
  eexists _, _, _. split; [vm_compute; reflexivity|].
  assert (Ev (SumoGetActor (IdStr "v1")) (Raise stale_error)
          ∈ (tick cfg stale_start).2) as Hin.
  { vm_compute. do 2 right. left. }
  split; [exact Hin|].
  refine (proj1 (failure_aborts_tick_and_loop cfg (IdInt 0)
            (Ev (SumoGetActor (IdStr "v1")) (Raise stale_error)) stale_error)
            stale_start _ _ _ _ Hin _); vm_compute; reflexivity.
Defined.

Lemma teardown_on_exit_run :
  ∃ r0 st0 ev0 r st' evs,
    while_loop cfg (IdInt 0) 3 0 teardown_start = Some (r0, st0, ev0) ∧
    leave_loop (r0, st0, ev0) teardown_start = (r, st', evs) ∧
    Forall (λ ev, family_of ev ≠ Settings ∧ family_of ev ≠ Logging) ev0 ∧
    ∃ ev_log st_c r_c ev_c,
      evs = ev0 ++ ev_log ++ ev_c ∧
      Forall (λ ev, family_of ev = Logging) ev_log ∧
      sumo2carla_ids st_c = sumo2carla_ids st0 ∧
      carla2sumo_ids st_c = carla2sumo_ids st0 ∧
      close st_c = (r_c, st', ev_c).
Proof.
  eexists _, _, _, _, _, _. split; [vm_compute; reflexivity|].
  split; [vm_compute; reflexivity|].
  refine (proj1 (teardown_on_exit cfg (IdInt 0)) 3%nat 0
            teardown_start _ _ _ _ _ _ double_logging_returns _ _);
    vm_compute; reflexivity.
Defined.

(** C8 fails on the code.  In the first tick the descriptor of ["v1"], and
    that of CARLA's [7], translate to [None] and nothing is mirrored; each
    simulator reports its id again on the second tick, with a descriptor that
    translates, and both are mirrored. *)
Lemma rejected_then_mirrored :
  ∃ st1 ev1 st2 ev2,
    tick cfg retried_start = (Ok tt, st1, ev1) ∧
    omap carla_blueprint_for ev1 = [Ok None] ∧
    omap sumo_vtype_for ev1 = [Ok None] ∧
    sumo2carla_ids st1 = ∅ ∧
    carla2sumo_ids st1 = ∅ ∧
    tick cfg st1 = (Ok tt, st2, ev2) ∧
    sumo2carla_ids st2 !! IdStr "v1" = Some (IdInt 1) ∧
    carla2sumo_ids st2 !! IdInt 7 = Some (IdInt 1000).
Proof.
  eexists _, _, _, _. split; [vm_compute; reflexivity|].
  split; [vm_compute; reflexivity|]. split; [vm_compute; reflexivity|].
  split; [vm_compute; reflexivity|]. split; [vm_compute; reflexivity|].
  split; [vm_compute; reflexivity|]. split; vm_compute; reflexivity.
Qed.

(** ["v1"] is rejected by the first tick and reported again on the second:
    the spawn loop of the second tick runs its iteration afresh and, its
    descriptor translating this time, records its mirror. *)
Lemma rejected_descriptor_gets_no_mirror_run :
  (∃ r st' evs,
     spawn_sumo_actor cfg (IdStr "v1") unknown_start = (r, st', evs) ∧
     omap carla_blueprint_for evs = [Ok None] ∧
     sumo2carla_ids st' = sumo2carla_ids unknown_start ∧
     carla2sumo_ids st' = carla2sumo_ids unknown_start ∧
     omap spawned_in_carla evs = [] ∧
     last evs ≫= unsubscribed = Some (IdStr "v1")) ∧
  (∃ st1 ev1 st ev_t st' evs,
     tick cfg retried_start = (Ok tt, st1, ev1) ∧
     omap carla_blueprint_for ev1 = [Ok None] ∧
     sumo2carla_ids st1 = ∅ ∧
     do SumoTick st1 = (Ok tt, st, ev_t) ∧
     spawn_sumo_actors cfg st = (Ok tt, st', evs) ∧
     sumo2carla_ids st' !! IdStr "v1" = Some (IdInt 1) ∧
     ∃ st_a ev_a st_b ev_b ev_c,
       spawn_sumo_actor cfg (IdStr "v1") st_a = (Ok tt, st_b, ev_b) ∧
       evs = ev_a ++ ev_b ++ ev_c ∧
       head ev_b ≫= sumo_spawn_source = Some (IdStr "v1") ∧
       sumo2carla_ids st_a !! IdStr "v1" = sumo2carla_ids st !! IdStr "v1" ∧
       (∀ bp, omap carla_blueprint_for ev_b = [Ok (Some bp)] →
          ∃ m, omap spawned_in_carla ev_b = [Ok m] ∧
               (m ≠ INVALID_ACTOR_ID →
                sumo2carla_ids st' !! IdStr "v1" = Some m)) ∧
       (omap carla_blueprint_for ev_b = [Ok None] →
          sumo2carla_ids st' !! IdStr "v1" = sumo2carla_ids st !! IdStr "v1")).
Proof.
  split.
  - eexists _, _, _. split; [vm_compute; reflexivity|].
    split; [vm_compute; reflexivity|].
    refine (proj1 (rejected_descriptor_gets_no_mirror cfg (IdStr "v1")
              unknown_start _ _ _) _ _); vm_compute; reflexivity.
  - eexists _, _, _, _, _, _. split; [vm_compute; reflexivity|].
    split; [vm_compute; reflexivity|]. split; [vm_compute; reflexivity|].
    split; [vm_compute; reflexivity|]. split; [vm_compute; reflexivity|].
    split; [vm_compute; reflexivity|].
    refine (proj1 (proj2 (proj2 (rejected_descriptor_gets_no_mirror cfg
              (IdStr "v1") _ (Ok tt) _ _))) _ _ _);
      first [vm_compute; reflexivity | vm_compute; discriminate].
Defined.

(** Half a step elapsed: the driver sleeps the other half. *)
Lemma real_time_pacing_run :
  ((1 # 20) - 0 < step_length cfg)%Q ∧
  pace cfg 0%Q (1 # 20)%Q (start quiet)
  = do (TimeSleep (step_length cfg - ((1 # 20) - 0))%Q) (start quiet).
Proof.
  split; [reflexivity|].
  refine (proj1 (real_time_pacing cfg (IdInt 0) 0%Q (1 # 20)%Q (start quiet)) _).
  reflexivity.
Defined.


(** A mirror that CARLA no longer knows, with light synchronization on:
    the tick raises [AttributeError], and no call raised. *)
Lemma tick_raises_only_run :
  ∃ st' evs,
    tick (config "none" true) vanished_start = (Raise AttributeError, st', evs) ∧
    (last evs ≫= raised = Some AttributeError ∨
     (AttributeError = AttributeError ∧ clean evs ∧ omap not_found evs ≠ [])).
Proof.
  eexists _, _. split; [vm_compute; reflexivity|].
  eapply (tick_raises_only (config "none" true) vanished_start).
  vm_compute; reflexivity.
Defined.

Lemma destroyed_actors_are_not_read_run :
  ∃ r st' evs,
    sumo_pass_after_spawn cfg departing_start = (r, st', evs) ∧
    Forall (λ ev, ∀ j, sumo_spawn_source ev = Some j →
              is_Some (sumo2carla_ids departing_start !! j) ∧
              j ∉ sumo_destroyed_actors (world departing_start)) evs.
Proof.
  eexists _, _, _. split; [vm_compute; reflexivity|].
  refine (proj1 (destroyed_actors_are_not_read cfg departing_start _ _ _) _).
  vm_compute; reflexivity.
Defined.

Lemma new_entries_are_subscribed_run :
  ∃ r st' evs,
    tick cfg teardown_start = (r, st', evs) ∧
    (∀ k m, sumo2carla_ids st' !! k = Some m →
            sumo2carla_ids teardown_start !! k = Some m ∨
            k ∈ omap subscribed evs) ∧
    (∀ k m, carla2sumo_ids st' !! k = Some m →
            carla2sumo_ids teardown_start !! k = Some m ∨
            m ∈ omap subscribed evs).
Proof.
  eexists _, _, _. split; [vm_compute; reflexivity|].
  refine (new_entries_are_subscribed cfg teardown_start _ _ _ _).
  vm_compute; reflexivity.
Defined.

(** A whole run in which one spawn is refused in each direction: the
    tables end with the two vehicles that were spawned, and no sentinel. *)
Lemma invalid_id_never_stored_run :
  ∃ r st' evs,
    synchronization_loop cfg (IdStr "v1") 5 refusing_world = Some (r, st', evs) ∧
    Exists (λ ev, spawned_in_carla ev = Some (Ok INVALID_ACTOR_ID)) evs ∧
    Exists (λ ev, spawned_in_sumo ev = Some (Ok INVALID_ACTOR_ID)) evs ∧
    tables st' = ([(IdStr "v2", IdInt 1)], [(IdInt 8, IdInt 1000)]) ∧
    no_invalid_mirror st'.
Proof.
  eexists _, _, _. split; [vm_compute; reflexivity|].
  split; [repeat first [by apply Exists_cons_hd | apply Exists_cons_tl]|].
  split; [repeat first [by apply Exists_cons_hd | apply Exists_cons_tl]|].
  split; [vm_compute; reflexivity|].
  refine (proj2 (proj2 (invalid_id_never_stored cfg (IdStr "v1")))
            5%nat refusing_world _ _ _ _).
  vm_compute; reflexivity.
Defined.

Lemma half_passes_write_one_way_run :
  ∃ r st' evs,
    tick cfg teardown_start = (r, st', evs) ∧
    ∃ ev1 ev2,
      evs = ev1 ++ ev2 ∧
      Forall (λ ev, writes_sumo ev = false ∧ family_of ev ≠ CarlaStep) ev1 ∧
      Forall (λ ev, writes_carla ev = false ∧ family_of ev ≠ SumoStep) ev2.
Proof.
  eexists _, _, _. split; [vm_compute; reflexivity|].
  refine (proj2 (proj2 (half_passes_write_one_way cfg teardown_start _ _ _)) _).
  vm_compute; reflexivity.
Defined.

(** The ego vehicle is found on two iterations; one camera is spawned. *)
Lemma camera_attached_at_most_once_run :
  ∃ r st' evs,
    while_loop cfg (IdStr "v1") 5 0 ego_start = Some (r, st', evs) ∧
    count_events camera_spawned evs = 1%nat ∧
    (count_events camera_spawned evs ≤ 1)%nat ∧
    (record ego_start = true → count_events camera_spawned evs = 0%nat).
Proof.
  eexists _, _, _. split; [vm_compute; reflexivity|].
  split; [vm_compute; reflexivity|].
  refine (camera_attached_at_most_once cfg (IdStr "v1") 5 0 ego_start _ _ _ _).
  vm_compute; reflexivity.
Defined.

Lemma init_returns_run :
  ∃ st' evs,
    init (config "sumo" false) (start quiet) = (Ok tt, st', evs) ∧
    sumo2carla_ids st' = ∅ ∧ carla2sumo_ids st' = ∅ ∧ record st' = false ∧
    count_events switches_off_sumo_lights evs = 0%nat ∧
    count_events switches_off_carla_lights evs = 1%nat ∧
    ∃ w, omap settings_applied evs = [(true, Some (carla_step_length w))].
Proof.
  eexists _, _. split; [vm_compute; reflexivity|].
  refine (init_returns (config "sumo" false) (start quiet) _ _ _).
  vm_compute; reflexivity.
Defined.

Lemma close_keeps_the_tables_run :
  ∃ st' evs,
    close update_start = (Ok tt, st', evs) ∧
    sumo2carla_ids st' = sumo2carla_ids update_start ∧
    carla2sumo_ids st' = carla2sumo_ids update_start ∧
    (Ok tt = Ok tt →
     ∀ st2 ev2, close st' = (Ok tt, st2, ev2) →
       omap destroyed_in_carla ev2 = omap destroyed_in_carla evs ∧
       omap destroyed_in_sumo ev2 = omap destroyed_in_sumo evs ∧
       omap destroyed_in_carla evs = dict_values (sumo2carla_ids update_start) ∧
       omap destroyed_in_sumo evs = dict_values (carla2sumo_ids update_start)).
Proof.
  eexists _, _. split; [vm_compute; reflexivity|].
  refine (close_keeps_the_tables update_start _ _ _ _).
  vm_compute; reflexivity.
Defined.

Lemma getEgo_looks_up_the_mirror_run :
  ∃ r st' evs,
    getEgo (IdStr "v1") update_start = (r, st', evs) ∧
    sumo2carla_ids st' = sumo2carla_ids update_start ∧
    carla2sumo_ids st' = carla2sumo_ids update_start ∧
    (∀ e, r = Raise e → last evs ≫= raised = Some e) ∧
    (sumo2carla_ids update_start !! IdStr "v1" = None →
     omap carla_spawn_source evs = [] ∧ ∀ v, r = Ok v → v = None) ∧
    (∀ c v, sumo2carla_ids update_start !! IdStr "v1" = Some c → r = Ok v →
     omap carla_spawn_source evs = [c] ∧
     last evs = Some (Ev (CarlaGetActor c) (Ok v))).
Proof.
  eexists _, _, _. split; [vm_compute; reflexivity|].
  refine (getEgo_looks_up_the_mirror (IdStr "v1") update_start _ _ _ _).
  vm_compute; reflexivity.
Defined.

Lemma cancellation_is_not_an_error_run :
  ∃ r st' evs,
    leave_loop (Raise KeyboardInterrupt, update_start, []) update_start
    = (r, st', evs) ∧
    r = Ok tt ∧
    omap logged evs
    = omap logged ([] : list (event string))
      ++ ["Cancelled by user."] ++ ["Cleaning synchronization"].
Proof.
  eexists _, _, _. split; [vm_compute; reflexivity|].
  refine (cancellation_is_not_an_error (Raise KeyboardInterrupt) update_start []
            update_start _ _ _ double_logging_returns
            double_close_calls_return _).
  vm_compute; reflexivity.
Defined.

Lemma idle_tick_only_steps_run :
  tick cfg (start quiet)
  = (Ok tt, set_world quiet (start quiet),
     [Ev SumoTick (Ok tt); Ev CarlaTick (Ok tt)]).
Proof.
  apply (idle_tick_only_steps cfg (start quiet) quiet quiet);
    first [reflexivity | done].
Defined.

Lemma failed_construction_is_not_torn_down_run :
  ∃ st1 ev1,
    construct (sims := Offline.unreachable) cfg (fresh_sync tt)
    = (Raise Offline.refused, st1, ev1) ∧
    synchronization_loop (sims := Offline.unreachable) cfg (IdStr "v1") 3 tt
    = Some (Raise Offline.refused, st1, ev1) ∧
    Forall (λ ev, closes_adapter ev = false ∧ logged ev = None ∧
                  ∀ p, settings_applied ev = Some p → p.1 = true) ev1.
Proof.
  eexists _, _. split; [vm_compute; reflexivity|].
  refine (failed_construction_is_not_torn_down (sims := Offline.unreachable) cfg
            (IdStr "v1") 3 tt Offline.refused _ _ _).
  vm_compute; reflexivity.
Defined.

(** SUMO cannot describe ["v1"]: the loop ends with that exception. *)
Lemma loop_raises_only_run :
  ∃ st' evs,
    while_loop cfg (IdStr "v1") 5 0 stale_start = Some (Raise stale_error, st', evs) ∧
    (last evs ≫= raised = Some stale_error ∨
     (stale_error = AttributeError ∧ clean evs ∧ omap not_found evs ≠ [])).
Proof.
  eexists _, _. split; [vm_compute; reflexivity|].
  eapply (loop_raises_only cfg (IdStr "v1") 5 0 stale_start).
  vm_compute; reflexivity.
Defined.

Lemma spawn_loops_only_add_run :
  ∃ r st' evs,
    spawn_sumo_actors cfg respawn_start = (r, st', evs) ∧
    (∀ k, is_Some (sumo2carla_ids respawn_start !! k) →
          is_Some (sumo2carla_ids st' !! k)) ∧
    Forall (λ ev, destroyed_in_carla ev = None ∧ pushed_to_carla ev = None) evs.
Proof.
  eexists _, _, _. split; [vm_compute; reflexivity|].
  refine (proj1 (spawn_loops_only_add cfg respawn_start _ _ _) _).
  vm_compute; reflexivity.
Defined.


Lemma entry_is_removed_before_the_destroy_run :
  ∃ r st' evs,
    destroy_sumo_actor (IdStr "v1") departing_start = (r, st', evs) ∧
    sumo2carla_ids st' = delete (IdStr "v1") (sumo2carla_ids departing_start) ∧
    omap destroyed_in_carla evs = [IdInt 1] ∧
    (∀ e, r = Raise e → last evs ≫= raised = Some e) ∧
    destroy_sumo_actor (IdStr "v1") st' = (Ok tt, st', []).
Proof.
  eexists _, _, _. split; [vm_compute; reflexivity|].
  refine (proj1 (entry_is_removed_before_the_destroy (IdStr "v1") (IdInt 1)
                   departing_start _ _ _) _ _); vm_compute; reflexivity.
Defined.

Lemma adapters_are_closed_last_run :
  ∃ r st' evs,
    close update_start = (r, st', evs) ∧
    ∃ ev1 ev2,
      evs = ev1 ++ ev2 ∧ clean ev1 ∧
      Forall (λ ev, closes_adapter ev = false) ev1 ∧
      Forall (λ ev, closes_adapter ev = true) ev2 ∧
      omap destroyed_in_carla ev1 = dict_values (sumo2carla_ids update_start) ∧
      omap destroyed_in_sumo ev1 = dict_values (carla2sumo_ids update_start) ∧
      omap settings_applied ev1 = [(false, None)].
Proof.
  eexists _, _, _. split; [vm_compute; reflexivity|].
  refine (adapters_are_closed_last update_start _ _ _ _ _);
    [vm_compute; reflexivity|].
  repeat first [by apply Exists_cons_hd | apply Exists_cons_tl].
Defined.

Lemma switches_are_followed_run :
  ∃ r st' evs,
    tick cfg teardown_start = (r, st', evs) ∧
    Forall (λ ev,
      (∀ b, blueprint_color_flag ev = Some b → b = sync_vehicle_color cfg) ∧
      (sync_vehicle_color cfg = false →
       ∀ c, spawn_color ev = Some c → c = None) ∧
      (sync_vehicle_lights cfg = false →
       reads_lights ev = false ∧
       (∀ p, pushed_to_carla ev = Some p → p.2 = None) ∧
       (∀ p, pushed_to_sumo ev = Some p → p.2 = None))) evs.
Proof.
  eexists _, _, _. split; [vm_compute; reflexivity|].
  refine (switches_are_followed cfg teardown_start _ _ _ _).
  vm_compute; reflexivity.
Defined.

Lemma loop_returns_when_nothing_is_pending_run :
  ∃ st' evs,
    while_loop cfg (IdStr "v1") 5 0 ego_start = Some (Ok tt, st', evs) ∧
    last evs = Some (Ev TraciGetMinExpectedNumber (Ok 0)).
Proof.
  eexists _, _. split; [vm_compute; reflexivity|].
  refine (loop_returns_when_nothing_is_pending cfg (IdStr "v1") 5 0 ego_start
            _ _ _).
  vm_compute; reflexivity.
Defined.

End Runs.
